(** * ThreadPoolMan: the worker pool of s3fs (src/threadpoolman.cpp)

    A shallow embedding of the pool manager and of its worker threads.
    Every worker thread is a small program counter machine that follows
    [ThreadPoolMan::Worker] line by line; the methods that run on the
    calling thread ([Initialize], [Destroy], [Instruct], [StartThreads],
    [StopThreads], the constructor and the destructor) are written in a
    state monad over the whole process state.  Between two shared-memory
    accesses of the calling thread a scheduler may run any finite number
    of steps of the other threads, so every statement below is about all
    interleavings.

    A section of code under [thread_list_lock] is one atomic step: the
    sections are short, do not block, and exclude each other.  What the
    code cannot decide itself comes from the process state: the return
    codes of [pthread_create], [pthread_mutex_init] and
    [pthread_mutex_destroy].  A task is its descriptor; running it yields
    its result and has no other effect on the pool. *)

From stdpp Require Import base option list gmap strings.
From Stdlib Require Import ZArith Lia.

Local Open Scope Z_scope.
Local Open Scope nat_scope.

(** ** Data model *)

(** [pthread_t]: the index of the thread in the process' thread table. *)
Abbreviation pthread_t := nat (only parsing).

(** The address of a [ThreadPoolMan] object on the heap. *)
Abbreviation addr := nat (only parsing).

(** A handle of a caller-owned completion semaphore ([Semaphore*]). *)
Abbreviation sem_handle := nat (only parsing).

(** [thpoolman_param]: the task descriptor.  The struct is declared in
    threadpoolman.h; the worker uses the three members below.  A null
    [psem] is [None]; [pfunc] maps the opaque argument to the opaque
    result, where [0] stands for [nullptr]. *)
Record thpoolman_param := mk_param {
  args : Z;
  psem : option sem_handle;
  pfunc : Z → Z
}.

(** The members of a [ThreadPoolMan] object. *)
Record ThreadPoolMan := mk_pool {
  is_exit : bool;
  thpoolman_sem : nat;
  is_lock_init : bool;
  thread_list : list pthread_t;
  instruction_list : list thpoolman_param
}.

Definition set_is_exit (b : bool) (o : ThreadPoolMan) : ThreadPoolMan :=
  mk_pool b (thpoolman_sem o) (is_lock_init o) (thread_list o) (instruction_list o).

Definition set_sem (n : nat) (o : ThreadPoolMan) : ThreadPoolMan :=
  mk_pool (is_exit o) n (is_lock_init o) (thread_list o) (instruction_list o).

Definition set_is_lock_init (b : bool) (o : ThreadPoolMan) : ThreadPoolMan :=
  mk_pool (is_exit o) (thpoolman_sem o) b (thread_list o) (instruction_list o).

Definition set_thread_list (l : list pthread_t) (o : ThreadPoolMan) : ThreadPoolMan :=
  mk_pool (is_exit o) (thpoolman_sem o) (is_lock_init o) l (instruction_list o).

Definition set_instruction_list (l : list thpoolman_param) (o : ThreadPoolMan) : ThreadPoolMan :=
  mk_pool (is_exit o) (thpoolman_sem o) (is_lock_init o) (thread_list o) l.

(** Modelled from the spec: the counting wakeup primitive [Semaphore]
    (psemaphore.h is not part of src/).  Its count is a natural number;
    posting increments it, a blocking wait decrements it and is only
    enabled on a positive count, and [try_wait] decrements a positive
    count and reports whether it did. *)
Definition sem_post (n : nat) : nat := S n.

Definition sem_wait (n : nat) : option nat :=
  match n with
  | O => None
  | S m => Some m
  end.

Definition sem_try_wait (n : nat) : bool * nat :=
  match n with
  | O => (false, O)
  | S m => (true, m)
  end.

(** [std::list]: [front] and [pop_front] are undefined on an empty list. *)
Definition front {A} (l : list A) : option A := head l.

Definition pop_front {A} (l : list A) : option (list A) :=
  match l with
  | [] => None
  | _ :: l' => Some l'
  end.

Definition push_back {A} (x : A) (l : list A) : list A := l ++ [x].

(** ** Worker threads *)

(** The program counter of a worker thread, one value per place where
    [ThreadPoolMan::Worker] touches shared state. *)
Inductive wpc :=
| W_start                        (* line 73: the null check of the argument *)
| W_loop                         (* line 79: the loop condition !IsExit() *)
| W_wait                         (* line 81: thpoolman_sem.wait() *)
| W_woken                        (* line 83: IsExit() after the wait *)
| W_fetch                        (* lines 89-99: the locked look at the queue *)
| W_call (p : thpoolman_param)   (* lines 101-104: param.pfunc(param.args) *)
| W_post (p : thpoolman_param)   (* lines 105-107: param.psem->post() *)
| W_exit (retval : Z)            (* returned, not yet joined *)
| W_reaped.                      (* returned and joined *)

(** An entry of the thread table. *)
Record thread := mk_thread {
  t_arg : option addr;           (* the void* argument: psingleton *)
  t_pc : wpc
}.

(** The thread has not returned from [Worker]. *)
Definition live (th : thread) : bool :=
  match t_pc th with
  | W_exit _ | W_reaped => false
  | _ => true
  end.

(** ** Observable events *)

(** The levels of the logger. *)
Inductive severity := CRIT | ERR | WARN | INFO | INFO3 | DBG.

(** Who did it. *)
Inductive actor :=
| Caller                         (* the thread that runs the method at hand *)
| Racer                          (* any other client thread *)
| Thr (t : pthread_t).           (* a worker thread *)

(** What was done. *)
Inductive event :=
| E_log (lv : severity) (msg : string)
| E_push (a : addr) (p : thpoolman_param)    (* instruction_list.push_back *)
| E_pop (a : addr) (p : thpoolman_param)     (* front + pop_front *)
| E_post (a : addr)                          (* thpoolman_sem.post() *)
| E_call (p : thpoolman_param) (r : Z)       (* pfunc(args) returned r *)
| E_signal (h : sem_handle)                  (* psem->post() *)
| E_create (t : pthread_t)
| E_join (t : pthread_t) (rc : Z).

(** ** The process state *)

(** The heap, the static handle, the threads, the environment and the
    history of the process. *)
Record world := mk_world {
  heap : gmap addr ThreadPoolMan;     (* the live ThreadPoolMan objects *)
  next_addr : addr;                   (* allocation pointer of operator new *)
  singleton : option addr;            (* ThreadPoolMan::singleton *)
  threads : list thread;              (* the thread table *)
  create_tape : list Z;               (* what the next pthread_create calls return *)
  mutex_init_rc : Z;                  (* what pthread_mutex_init returns *)
  mutex_destroy_rc : Z;               (* what pthread_mutex_destroy returns *)
  csem : gmap sem_handle nat;         (* the callers' completion semaphores *)
  trace : list (actor * event)        (* what happened so far, oldest first *)
}.

Definition set_heap (h : gmap addr ThreadPoolMan) (w : world) : world :=
  mk_world h (next_addr w) (singleton w) (threads w) (create_tape w)
           (mutex_init_rc w) (mutex_destroy_rc w) (csem w) (trace w).

Definition set_next_addr (n : addr) (w : world) : world :=
  mk_world (heap w) n (singleton w) (threads w) (create_tape w)
           (mutex_init_rc w) (mutex_destroy_rc w) (csem w) (trace w).

Definition set_singleton (p : option addr) (w : world) : world :=
  mk_world (heap w) (next_addr w) p (threads w) (create_tape w)
           (mutex_init_rc w) (mutex_destroy_rc w) (csem w) (trace w).

Definition set_threads (l : list thread) (w : world) : world :=
  mk_world (heap w) (next_addr w) (singleton w) l (create_tape w)
           (mutex_init_rc w) (mutex_destroy_rc w) (csem w) (trace w).

Definition set_create_tape (l : list Z) (w : world) : world :=
  mk_world (heap w) (next_addr w) (singleton w) (threads w) l
           (mutex_init_rc w) (mutex_destroy_rc w) (csem w) (trace w).

Definition set_csem (c : gmap sem_handle nat) (w : world) : world :=
  mk_world (heap w) (next_addr w) (singleton w) (threads w) (create_tape w)
           (mutex_init_rc w) (mutex_destroy_rc w) c (trace w).

Definition set_trace (tr : list (actor * event)) (w : world) : world :=
  mk_world (heap w) (next_addr w) (singleton w) (threads w) (create_tape w)
           (mutex_init_rc w) (mutex_destroy_rc w) (csem w) tr.

(** Appending an event to the history. *)
Definition emit (who : actor) (e : event) (w : world) : world :=
  set_trace (trace w ++ [(who, e)]) w.

(** Writing the object at address [a]. *)
Definition put_obj (a : addr) (o : ThreadPoolMan) (w : world) : world :=
  set_heap (<[a := o]> (heap w)) w.

(** Moving thread [t] to the program counter [pc]. *)
Definition set_pc (t : pthread_t) (th : thread) (pc : wpc) (w : world) : world :=
  set_threads (<[t := mk_thread (t_arg th) pc]> (threads w)) w.

(** [Semaphore::post] on a caller-owned completion semaphore. *)
Definition signal (h : sem_handle) (w : world) : world :=
  set_csem (<[h := sem_post (default 0 (csem w !! h))]> (csem w)) w.

(** ** One step of a worker thread

    [worker_body t th w] is the next atomic step of [ThreadPoolMan::Worker]
    in thread [t]: the new program counter and the new shared state, or
    [None] when the thread cannot move: it is blocked in [wait] on a zero
    count, it has returned, or its pool object is gone. *)
Definition worker_body (t : pthread_t) (th : thread) (w : world) : option (wpc * world) :=
  match t_pc th with
  | W_start =>
      match t_arg th with
      | None =>
          Some (W_exit (-5),
                emit (Thr t) (E_log ERR "The parameter for worker thread is invalid.") w)
      | Some _ =>
          Some (W_loop, emit (Thr t) (E_log INFO3 "Start worker thread in ThreadPoolMan.") w)
      end
  | W_loop =>
      a ← t_arg th; o ← heap w !! a;
      if is_exit o then Some (W_exit 0, w) else Some (W_wait, w)
  | W_wait =>
      a ← t_arg th; o ← heap w !! a;
      n ← sem_wait (thpoolman_sem o);
      Some (W_woken, put_obj a (set_sem n o) w)
  | W_woken =>
      a ← t_arg th; o ← heap w !! a;
      if is_exit o then Some (W_exit 0, w) else Some (W_fetch, w)
  | W_fetch =>
      a ← t_arg th; o ← heap w !! a;
      if bool_decide (instruction_list o = []) then
        Some (W_loop,
              emit (Thr t) (E_log DBG "Got a semaphore, but the instruction is empty.") w)
      else
        param ← front (instruction_list o);
        rest ← pop_front (instruction_list o);
        Some (W_call param,
              emit (Thr t) (E_pop a param) (put_obj a (set_instruction_list rest o) w))
  | W_call param =>
      let retval := pfunc param (args param) in
      let w1 := emit (Thr t) (E_call param retval) w in
      if bool_decide (retval = 0%Z) then Some (W_post param, w1)
      else
        Some (W_post param,
              emit (Thr t)
                (E_log WARN "The instruction function returned with somthign error code(%ld).") w1)
  | W_post param =>
      match psem param with
      | Some h => Some (W_loop, emit (Thr t) (E_signal h) (signal h w))
      | None => Some (W_loop, w)
      end
  | W_exit _ => None
  | W_reaped => None
  end.

(** The step of thread [t] in the process. *)
Definition worker_step (t : pthread_t) (w : world) : option world :=
  th ← threads w !! t;
  r ← worker_body t th w;
  Some (set_pc t th r.1 r.2).

(** ** Interference

    What the threads other than the calling one can do in one atomic
    step: a worker moves, or another client is inside [Instruct] and does
    the locked [push_back] or the [post] of [SetInstruction]. *)
Inductive action :=
| A_step (t : pthread_t)
| A_push (a : addr) (p : thpoolman_param)
| A_post (a : addr).

(** The locked [instruction_list.push_back(param)] of [SetInstruction],
    done by [who].  It is undefined on an object that does not exist. *)
Definition push_instruction (who : actor) (a : addr) (p : thpoolman_param)
    (w : world) : option world :=
  o ← heap w !! a;
  Some (emit who (E_push a p)
          (put_obj a (set_instruction_list (push_back p (instruction_list o)) o) w)).

(** [thpoolman_sem.post()], done by [who]. *)
Definition post_wakeup (who : actor) (a : addr) (w : world) : option world :=
  o ← heap w !! a;
  Some (emit who (E_post a) (put_obj a (set_sem (sem_post (thpoolman_sem o)) o) w)).

(** An action that is not enabled leaves the state as it is.  A racing
    push or post stands for another client inside [SetInstruction], on an
    object that exists; on an address without an object it is skipped. *)
Definition apply_action (act : action) (w : world) : world :=
  match act with
  | A_step t => default w (worker_step t w)
  | A_push a p => default w (push_instruction Racer a p w)
  | A_post a => default w (post_wakeup Racer a w)
  end.

(** The actions of the other threads, one after the other. *)
Fixpoint run_actions (acts : list action) (w : world) : world :=
  match acts with
  | [] => w
  | act :: acts' => run_actions acts' (apply_action act w)
  end.

(** A schedule: the [i]-th element is what the other threads do before
    the [i]-th shared-memory access of the calling thread. *)
Definition sched := list (list action).

(** ** The monad of the calling thread *)

(** How a call ends. *)
Inductive outcome (A : Type) :=
| Ret (a : A) (s : sched) (w : world)   (* the call returned *)
| Aborted (w : world)                   (* abort() *)
| Stuck (w : world).                    (* blocked for ever, or undefined behaviour *)
Arguments Ret {A} a s w.
Arguments Aborted {A} w.
Arguments Stuck {A} w.

(** A call runs on the rest of the schedule and on the process state. *)
Definition M (A : Type) : Type := sched → world → outcome A.

#[global] Instance M_ret : MRet M := λ A a s w, Ret a s w.

#[global] Instance M_bind : MBind M := λ A B k m s w,
  match m s w with
  | Ret a s' w' => k a s' w'
  | Aborted w' => Aborted w'
  | Stuck w' => Stuck w'
  end.

(** The other threads run: the next element of the schedule is consumed.
    A [yield] stands before every access of the calling thread to state
    that the workers or the other clients read or write. *)
Definition yield : M unit := λ s w,
  match s with
  | [] => Ret () [] w
  | c :: s' => Ret () s' (run_actions c w)
  end.

(** [abort()] ends the process. *)
Definition abort {A} : M A := λ _ w, Aborted w.

Definition get_world : M world := λ s w, Ret w s w.

Definition modify (f : world → world) : M unit := λ s w, Ret () s (f w).

(** A step that is undefined when [f] has no result. *)
Definition try_modify (f : world → option world) : M unit := λ s w,
  match f w with
  | Some w' => Ret () s w'
  | None => Stuck w
  end.

(** [S3FS_PRN_CRIT], [S3FS_PRN_ERR], [S3FS_PRN_WARN], [S3FS_PRN_INFO] and
    [S3FS_PRN_DBG] on the calling thread. *)
Definition log (lv : severity) (msg : string) : M unit :=
  modify (emit Caller (E_log lv msg)).

(** Reading and writing the members of [*this]. *)
Definition get_obj (this : addr) : M ThreadPoolMan := λ s w,
  match heap w !! this with
  | Some o => Ret o s w
  | None => Stuck w
  end.

Definition modify_obj (this : addr) (f : ThreadPoolMan → ThreadPoolMan) : M unit :=
  o ← get_obj this; modify (put_obj this (f o)).

(** ** POSIX threads *)

Definition EAGAIN : Z := 11%Z.

Definition ESRCH : Z := 3%Z.

(** [pthread_create(&thread, nullptr, ThreadPoolMan::Worker, arg)]: the
    return code comes from the environment's tape (an exhausted tape means
    success); on success the new thread is appended to the thread table
    and starts at the top of [Worker]. *)
Definition pthread_create (arg : option addr) : M (Z * pthread_t) := λ s w,
  let rc := default 0%Z (head (create_tape w)) in
  let w1 := set_create_tape (tail (create_tape w)) w in
  if bool_decide (rc = 0%Z) then
    let t := length (threads w1) in
    Ret (0%Z, t) s
      (emit Caller (E_create t) (set_threads (threads w1 ++ [mk_thread arg W_start]) w1))
  else Ret (rc, 0) s w1.

(** Thread [t] running on its own until it has returned; [None] when it
    blocks before that. *)
Fixpoint run_to_exit (t : pthread_t) (fuel : nat) (w : world) : option world :=
  match threads w !! t with
  | None => None
  | Some th =>
      match t_pc th with
      | W_exit _ => Some w
      | _ =>
          match fuel with
          | O => None
          | S fuel' => w' ← worker_step t w; run_to_exit t fuel' w'
          end
      end
  end.

(** Between two waits a worker makes at most six steps, and every wait
    takes one unit of the count, so this many steps bring a worker either
    to its return or to a wait on a zero count. *)
Definition join_fuel (t : pthread_t) (w : world) : nat :=
  match threads w !! t with
  | Some th =>
      match t_arg th with
      | Some a => 7 * S (default 0 (thpoolman_sem <$> heap w !! a))
      | None => 7
      end
  | None => 0
  end.

(** [pthread_join(t, &retval)]: fails with [ESRCH] on a thread that does
    not exist or was joined before; otherwise it returns once the thread
    has returned, with its return value. *)
Definition pthread_join (t : pthread_t) : M (Z * Z) := λ s w,
  match threads w !! t with
  | None => Ret (ESRCH, 0%Z) s (emit Caller (E_join t ESRCH) w)
  | Some th =>
      match t_pc th with
      | W_reaped => Ret (ESRCH, 0%Z) s (emit Caller (E_join t ESRCH) w)
      | _ =>
          match run_to_exit t (join_fuel t w) w with
          | None => Stuck w
          | Some w' =>
              match t_pc <$> threads w' !! t with
              | Some (W_exit retval) =>
                  Ret (0%Z, retval) s (emit Caller (E_join t 0%Z) (set_pc t th W_reaped w'))
              | _ => Stuck w'
              end
          end
      end
  end.

(** ** ThreadPoolMan methods *)

Definition IsExit (this : addr) : M bool :=
  o ← get_obj this; mret (is_exit o).

Definition SetExitFlag (this : addr) (exit_flag : bool) : M unit :=
  modify_obj this (set_is_exit exit_flag).

(** [for(size_t waitcnt = thread_list.size(); 0 < waitcnt; --waitcnt) thpoolman_sem.post();] *)
Fixpoint post_loop (this : addr) (waitcnt : nat) : M unit :=
  match waitcnt with
  | O => mret ()
  | S waitcnt' =>
      yield;; try_modify (post_wakeup Caller this);; post_loop this waitcnt'
  end.

(** The loop over [thread_list] that joins every worker. *)
Fixpoint join_loop (l : list pthread_t) : M unit :=
  match l with
  | [] => mret ()
  | t :: l' =>
      yield;;
      r ← pthread_join t;
      (if bool_decide (r.1 = 0%Z) then log DBG "succeed pthread_join - return code(%ld)"
       else log ERR "failed pthread_join - result(%d)");;
      join_loop l'
  end.

(** [while(thpoolman_sem.try_wait()){}] *)
Fixpoint drain_loop (this : addr) (fuel : nat) : M unit :=
  match fuel with
  | O => λ _ w, Stuck w
  | S fuel' =>
      yield;;
      o ← get_obj this;
      let r := sem_try_wait (thpoolman_sem o) in
      modify (put_obj this (set_sem r.2 o));;
      if r.1 then drain_loop this fuel' else mret ()
  end.

(** The drain loop makes one round per unit of the count, and the count
    grows by at most one per action of the other threads. *)
Definition drain (this : addr) : M unit := λ s w,
  drain_loop this
    (S (default 0 (thpoolman_sem <$> heap w !! this) + length (concat s))) s w.

Definition StopThreads (this : addr) : M bool :=
  o ← get_obj this;
  if bool_decide (thread_list o = []) then
    log INFO "Any threads are running now, then nothing to do.";;
    mret true
  else
    (* all threads to exit *)
    yield;;
    SetExitFlag this true;;
    post_loop this (length (thread_list o));;
    (* wait for threads exiting *)
    join_loop (thread_list o);;
    modify_obj this (set_thread_list []);;
    (* reset semaphore(to zero) *)
    drain this;;
    mret true.

(** [for(int cnt = 0; cnt < count; ++cnt)]: [n] is the number of rounds
    that are left. *)
Fixpoint create_loop (this : addr) (n : nat) : M bool :=
  match n with
  | O => mret true
  | S n' =>
      yield;;
      r ← pthread_create (Some this);
      if bool_decide (r.1 = 0%Z) then
        modify_obj this (λ o, set_thread_list (push_back r.2 (thread_list o)) o);;
        create_loop this n'
      else
        log ERR "failed pthread_create with return code(%d)";;
        StopThreads this;;      (* if possible, stop all threads *)
        mret false
  end.

Definition StartThreads (this : addr) (count : Z) : M bool :=
  if bool_decide (count < 1)%Z then
    log ERR "Failed to creating threads, because thread count(%d) is under 1.";;
    mret false
  else
    (* stop all thread if they are running. *)
    stopped ← StopThreads this;
    if negb stopped then
      log ERR "Failed to stop existed threads.";;
      mret false
    else
      (* create all threads *)
      yield;;
      SetExitFlag this false;;
      create_loop this (Z.to_nat count).

Definition SetInstruction (this : addr) (param : thpoolman_param) : M unit :=
  (* set parameter to list *)
  yield;;
  try_modify (push_instruction Caller this param);;
  (* run thread *)
  yield;;
  try_modify (post_wakeup Caller this).

(** [new ThreadPoolMan(count)]: the allocation, the member initialisers
    and the body of the constructor. *)
Definition new_ThreadPoolMan (count : Z) : M addr :=
  w0 ← get_world;
  let this := next_addr w0 in
  modify (λ w, set_next_addr (S this) (put_obj this (mk_pool false 0 false [] []) w));;
  if bool_decide (count < 1)%Z then
    log CRIT "Failed to creating singleton for Thread Manager, because thread count(%d) is under 1.";;
    abort
  else
    w ← get_world;
    if bool_decide (singleton w ≠ None) then
      log CRIT "Already singleton for Thread Manager is existed.";;
      abort
    else if bool_decide (mutex_init_rc w ≠ 0%Z) then
      log CRIT "failed to init thread_list_lock: %d";;
      abort
    else
      modify_obj this (set_is_lock_init true);;
      (* create threads *)
      started ← StartThreads this count;
      if negb started then
        log ERR "Failed starting threads at initializing.";;
        abort
      else mret this.

(** [delete p]: the destructor, then the memory is released. *)
Definition delete_ThreadPoolMan (this : addr) : M unit :=
  StopThreads this;;
  o ← get_obj this;
  (if is_lock_init o then
     w ← get_world;
     if bool_decide (mutex_destroy_rc w ≠ 0%Z) then
       log CRIT "failed to destroy thread_list_lock: %d";;
       abort
     else modify_obj this (set_is_lock_init false)
   else mret ());;
  modify (λ w, set_heap (delete this (heap w)) w).

(** ** ThreadPoolMan class methods *)

Definition Destroy : M unit :=
  w ← get_world;
  match singleton w with
  | Some p => delete_ThreadPoolMan p;; modify (set_singleton None)
  | None => mret ()
  end.

Definition Initialize (count : Z) : M bool :=
  w ← get_world;
  (if bool_decide (singleton w ≠ None) then
     log WARN "Already singleton for Thread Manager is existed, then re-create it.";;
     Destroy
   else mret ());;
  p ← new_ThreadPoolMan count;
  modify (set_singleton (Some p));;
  mret true.

Definition Instruct (param : thpoolman_param) : M bool :=
  w ← get_world;
  match singleton w with
  | None =>
      log WARN "The singleton object is not initialized yet.";;
      mret false
  | Some p =>
      SetInstruction p param;;
      mret true
  end.

(** * Specification vocabulary

    The predicates and the relations in which the properties of the pool
    are stated, and the states used as examples. *)

(** ** Outcomes of a call *)

(** [wp m E Q s w]: from schedule [s] and state [w] the call [m] does not
    get stuck; when it returns, [Q] holds of the result, and when it aborts
    the process, [E] holds of the state at the abort. *)
Definition wp {A} (m : M A) (E : world → Prop) (Q : A → sched → world → Prop)
    (s : sched) (w : world) : Prop :=
  match m s w with
  | Ret a s' w' => Q a s' w'
  | Aborted w' => E w'
  | Stuck _ => False
  end.

(** ** What a step leaves alone

    [frame o] is the part of an object that the workers and the other
    clients never write; [env w] is the part of the process state that
    they never write. *)
Definition frame (o : ThreadPoolMan) : bool * list pthread_t * bool :=
  (is_exit o, thread_list o, is_lock_init o).

Definition env (w : world) : option addr * addr * list Z * Z * Z :=
  (singleton w, next_addr w, create_tape w, mutex_init_rc w, mutex_destroy_rc w).

(** [quiet w w']: from [w] to [w'] no object was created or released, no
    exit flag and no worker list changed, no thread was created and no
    thread that had returned came back. *)
Record quiet (w w' : world) : Prop := mk_quiet {
  q_env : env w' = env w;
  q_heap : ∀ a, frame <$> heap w' !! a = frame <$> heap w !! a;
  q_args : ∀ t, t_arg <$> threads w' !! t = t_arg <$> threads w !! t;
  q_dead : ∀ t th, threads w !! t = Some th → live th = false →
           ∃ th', threads w' !! t = Some th' ∧ live th' = false
}.

(** ** Workers inside the wait *)

(** The number of elements of [l] that satisfy [f]. *)
Fixpoint countb {A} (f : A → bool) (l : list A) : nat :=
  match l with
  | [] => 0
  | x :: l' => Nat.b2n (f x) + countb f l'
  end.

(** Thread [th] is a worker of pool [a] inside [wait]. *)
Definition is_waiting (a : addr) (th : thread) : bool :=
  match t_pc th, t_arg th with
  | W_wait, Some b => bool_decide (b = a)
  | _, _ => false
  end.

(** The number of workers of pool [a] that are inside [wait]. *)
Definition waiting (a : addr) (w : world) : nat :=
  countb (is_waiting a) (threads w).

(** The exit flag of pool [a] is set, and its wakeup count together with
    the [k] posts that [StopThreads] still has to make covers every
    worker inside [wait]. *)
Definition releasing (a : addr) (k : nat) (w : world) : Prop :=
  ∃ o, heap w !! a = Some o ∧ is_exit o = true ∧
       waiting a w ≤ thpoolman_sem o + k.

(** The number of steps a worker needs to return once the exit flag is set. *)
Definition dist (pc : wpc) : nat :=
  match pc with
  | W_start => 2
  | W_loop => 1
  | W_wait => 2
  | W_woken => 1
  | W_fetch => 4
  | W_call _ => 3
  | W_post _ => 2
  | W_exit _ => 0
  | W_reaped => 0
  end.

(** ** Events of the calling thread *)

Definition by_caller (f : event → bool) (e : actor * event) : bool :=
  match e.1 with
  | Caller => f e.2
  | _ => false
  end.

Definition is_post (a : addr) (e : event) : bool :=
  match e with
  | E_post b => bool_decide (b = a)
  | _ => false
  end.

Definition is_join (e : event) : bool :=
  match e with
  | E_join _ _ => true
  | _ => false
  end.

(** How often the calling thread has posted the wakeup signal of [a]. *)
Definition caller_posts (a : addr) (w : world) : nat :=
  countb (by_caller (is_post a)) (trace w).

(** How often the calling thread has called [pthread_join]. *)
Definition caller_joins (w : world) : nat :=
  countb (by_caller is_join) (trace w).

(** ** Well-formed pools *)

(** Every worker of pool [a] that has not returned is in its [thread_list]. *)
Definition tracked (a : addr) (w : world) : Prop :=
  ∀ t th, threads w !! t = Some th → t_arg th = Some a → live th = true →
    ∃ o, heap w !! a = Some o ∧ t ∈ thread_list o.

(** Every thread in the [thread_list] of pool [a] was started on [a]. *)
Definition owned (a : addr) (w : world) : Prop :=
  ∀ o t th, heap w !! a = Some o → t ∈ thread_list o →
    threads w !! t = Some th → t_arg th = Some a.

(** The pool object exists and its worker list is accurate. *)
Definition pool_ok (a : addr) (w : world) : Prop :=
  is_Some (heap w !! a) ∧ tracked a w ∧ owned a w.

(** ** What [StopThreads] leaves alone

    [stable this w w']: as [quiet], but the exit flag and the worker list
    of [this] may have changed. *)
Record stable (this : addr) (w w' : world) : Prop := mk_stable {
  s_env : env w' = env w;
  s_heap : ∀ a, a ≠ this → frame <$> heap w' !! a = frame <$> heap w !! a;
  s_lock : is_lock_init <$> heap w' !! this = is_lock_init <$> heap w !! this;
  s_args : ∀ t, t_arg <$> threads w' !! t = t_arg <$> threads w !! t;
  s_dead : ∀ t th, threads w !! t = Some th → live th = false →
           ∃ th', threads w' !! t = Some th' ∧ live th' = false
}.

(** Every worker that was started on pool [a] has returned. *)
Definition all_returned (a : addr) (w : world) : Prop :=
  ∀ t th, threads w !! t = Some th → t_arg th = Some a → live th = false.

(** ** What [StartThreads] leaves alone

    [grows this w w']: as [stable], but threads may have been created,
    all of them on [this]. *)
Definition genv (w : world) : option addr * addr * Z * Z :=
  (singleton w, next_addr w, mutex_init_rc w, mutex_destroy_rc w).

Record grows (this : addr) (w w' : world) : Prop := mk_grows {
  g_env : genv w' = genv w;
  g_heap : ∀ a, a ≠ this → frame <$> heap w' !! a = frame <$> heap w !! a;
  g_lock : is_lock_init <$> heap w' !! this = is_lock_init <$> heap w !! this;
  g_old : ∀ t th, threads w !! t = Some th →
          ∃ th', threads w' !! t = Some th' ∧ t_arg th' = t_arg th ∧
                 (live th = false → live th' = false);
  g_new : ∀ t th', threads w' !! t = Some th' → length (threads w) ≤ t →
          t_arg th' = Some this
}.

(** ** The singleton *)

(** No pool exists: no object, no handle, and every thread has returned. *)
Definition idle (w : world) : Prop :=
  singleton w = None ∧ (∀ a, heap w !! a = None) ∧
  (∀ t th, threads w !! t = Some th → live th = false).

(** The state between two calls of the class methods: at most one pool
    object exists, it is the one the handle points to, and every thread
    that has not returned is one of its tracked workers. *)
Definition world_ok (w : world) : Prop :=
  (∀ a, singleton w = Some a → pool_ok a w) ∧
  (∀ t th, threads w !! t = Some th → live th = true →
     ∃ a, singleton w = Some a ∧ t_arg th = Some a) ∧
  (∀ a, is_Some (heap w !! a) → singleton w = Some a).

(** What [Destroy] and [Initialize] do to the threads that exist: none
    disappears, and all of them have returned afterwards. *)
Definition retired (w w' : world) : Prop :=
  ∀ t th, threads w !! t = Some th →
    ∃ th', threads w' !! t = Some th' ∧ t_arg th' = t_arg th ∧ live th' = false.

(** ** The queue ledger

    What entered and what left the queue of pool [a] according to a list
    of events. *)
Definition pushes (a : addr) (l : list event) : list thpoolman_param :=
  omap (λ e, match e with
             | E_push b p => if bool_decide (b = a) then Some p else None
             | _ => None
             end) l.

Definition pops (a : addr) (l : list event) : list thpoolman_param :=
  omap (λ e, match e with
             | E_pop b p => if bool_decide (b = a) then Some p else None
             | _ => None
             end) l.

(** The events of the calling thread, and the events of worker [t]. *)
Definition caller_events (evs : list (actor * event)) : list event :=
  omap (λ e, match e.1 with Caller => Some e.2 | _ => None end) evs.

Definition worker_events (t : pthread_t) (evs : list (actor * event)) : list event :=
  omap (λ e, match e.1 with
             | Thr t' => if bool_decide (t' = t) then Some e.2 else None
             | _ => None
             end) evs.

(** The [instruction_list] of pool [a]. *)
Definition queue_of (a : addr) (w : world) : list thpoolman_param :=
  default [] (instruction_list <$> heap w !! a).

(** Schedules in which no other client pushes. *)
Definition no_push (act : action) : bool :=
  match act with
  | A_push _ _ => false
  | _ => true
  end.

Definition no_racing_push (s : sched) : bool := forallb (forallb no_push) s.

(** [ledger a mine P w w']: between [w] and [w'] the queue of [a] lost at
    its front exactly what was popped and gained at its back exactly what
    was pushed, in this order; the events of the calling thread were
    [mine]; and under [P] nobody but the calling thread pushed. *)
Definition ledger (a : addr) (mine : list event) (P : Prop) (w w' : world) : Prop :=
  ∃ evs, trace w' = trace w ++ evs ∧
    queue_of a w ++ pushes a evs.*2 = pops a evs.*2 ++ queue_of a w' ∧
    caller_events evs = mine ∧
    (P → pushes a evs.*2 = pushes a mine).

(** The calls of the class interface. *)
Inductive call :=
| Call_Initialize (count : Z)
| Call_Destroy
| Call_Instruct (param : thpoolman_param).

Definition run_call (c : call) : M unit :=
  match c with
  | Call_Initialize count => Initialize count;; mret ()
  | Call_Destroy => Destroy
  | Call_Instruct param => Instruct param;; mret ()
  end.

(** ** Sequences of submissions *)

(** [N] calls of [Instruct], one after the other. *)
Fixpoint Instruct_all (ps : list thpoolman_param) : M (list bool) :=
  match ps with
  | [] => mret []
  | p :: ps' => b ← Instruct p; bs ← Instruct_all ps'; mret (b :: bs)
  end.

(** What the calling thread does in them. *)
Fixpoint submissions (a : addr) (ps : list thpoolman_param) : list event :=
  match ps with
  | [] => []
  | p :: ps' => E_push a p :: E_post a :: submissions a ps'
  end.

(** ** Runs of a worker *)

(** [n] steps of worker [t], one after the other; [None] when one of them
    is not enabled. *)
Fixpoint worker_run (t : pthread_t) (n : nat) (w : world) : option world :=
  match n with
  | O => Some w
  | S n' => w' ← worker_step t w; worker_run t n' w'
  end.

(** The descriptors that a list of events dequeues and calls, and the
    completion handles that it signals. *)
Definition taken (l : list event) : list thpoolman_param :=
  omap (λ e, match e with E_pop _ p => Some p | _ => None end) l.

Definition called (l : list event) : list thpoolman_param :=
  omap (λ e, match e with E_call p _ => Some p | _ => None end) l.

Definition signalled (l : list event) : list sem_handle :=
  omap (λ e, match e with E_signal h => Some h | _ => None end) l.

(** The descriptor a worker has dequeued and not called yet, and the
    completion handle it has still to signal for the call it made. *)
Definition in_hand (pc : wpc) : list thpoolman_param :=
  match pc with
  | W_call p => [p]
  | _ => []
  end.

Definition owed (pc : wpc) : list sem_handle :=
  match pc with
  | W_post p => option_list (psem p)
  | _ => []
  end.

(** How often [h] occurs in a list of handles. *)
Definition occurrences (h : sem_handle) (l : list sem_handle) : nat :=
  countb (λ h', bool_decide (h' = h)) l.

(** Actions in which no worker but [t] moves. *)
Definition solo (t : pthread_t) (act : action) : bool :=
  match act with
  | A_step t' => bool_decide (t' = t)
  | _ => true
  end.

(** ** Wakeups and queued tasks *)

(** Thread [th] is a worker of pool [a] that has taken a wakeup and has
    not looked at the queue yet. *)
Definition is_woken (a : addr) (th : thread) : bool :=
  match t_pc th, t_arg th with
  | (W_woken | W_fetch), Some b => bool_decide (b = a)
  | _, _ => false
  end.

(** The number of such workers. *)
Definition woken (a : addr) (w : world) : nat :=
  countb (is_woken a) (threads w).

(** The exit flag of pool [a] is clear, and every queued task but [k] has
    a wakeup of its own: one that is pending in the count, or one that a
    worker has taken and not used yet. *)
Definition covered (a : addr) (k : nat) (w : world) : Prop :=
  ∃ o, heap w !! a = Some o ∧ is_exit o = false ∧
    length (instruction_list o) ≤ thpoolman_sem o + woken a w + k.

(** Every wakeup of pool [a], pending or taken, and [k] more have a task of
    their own in the queue. *)
Definition backed (a : addr) (k : nat) (w : world) : Prop :=
  ∃ o, heap w !! a = Some o ∧
    thpoolman_sem o + woken a w + k ≤ length (instruction_list o).

(** Every thread that has not returned is a worker of pool [a]. *)
Definition manned (a : addr) (w : world) : Prop :=
  ∀ t th, threads w !! t = Some th → live th = true → t_arg th = Some a.

(** The line a worker logs when it was woken and finds no task. *)
Definition wasted : event :=
  E_log DBG "Got a semaphore, but the instruction is empty.".

(** No worker was woken for nothing between [w] and [w']. *)
Definition unwasted (w w' : world) : Prop :=
  ∃ evs, trace w' = trace w ++ evs ∧ Forall (λ e, e.2 ≠ wasted) evs.

(** Actions and schedules in which no other client posts. *)
Definition no_post (act : action) : bool :=
  match act with
  | A_post _ => false
  | _ => true
  end.

Definition no_racing_post (s : sched) : bool := forallb (forallb no_post) s.

(** ** Partial correctness *)

(** [hoare m Q s w]: when the call [m] returns from the schedule [s] and
    the state [w], [Q] holds of the result. *)
Definition hoare {A} (m : M A) (Q : A → sched → world → Prop)
    (s : sched) (w : world) : Prop :=
  match m s w with
  | Ret a s' w' => Q a s' w'
  | _ => True
  end.

(** A call takes its interference from the front of the schedule. *)
Definition consumes {A} (m : M A) : Prop :=
  ∀ s w, hoare m (λ _ s' _, s' `suffix_of` s) s w.

(** ** The queue across a call *)

(** [carried a P w w']: the ledger of the queue of [a] between [w] and
    [w'], for a call in which the calling thread neither pushes nor pops. *)
Definition carried (a : addr) (P : Prop) (w w' : world) : Prop :=
  ∃ mine, ledger a mine P w w' ∧ pushes a mine = [] ∧ pops a mine = [].

(** ** The return codes of [pthread_create] *)

(** [spent k n w w']: between [w] and [w'] exactly [k] return codes were
    taken from the tape of [pthread_create], and the thread table grew by
    [n] threads. *)
Definition spent (k n : nat) (w w' : world) : Prop :=
  create_tape w' = drop k (create_tape w) ∧
  length (threads w') = length (threads w) + n.

(** ** A pool that was just started *)

(** Schedules in which no other client is inside [Instruct]. *)
Definition is_step (act : action) : bool :=
  match act with
  | A_step _ => true
  | _ => false
  end.

Definition no_client (s : sched) : bool := forallb (forallb is_step) s.

(** The exit flag of pool [a] is clear and every worker in its list is
    alive. *)
Definition staffed (a : addr) (w : world) : Prop :=
  ∃ o, heap w !! a = Some o ∧ is_exit o = false ∧
    ∀ t, t ∈ thread_list o →
      ∃ th, threads w !! t = Some th ∧ t_arg th = Some a ∧ live th = true.

(** A worker that is not working on a task: it is before its loop, at the
    loop condition or inside the wait. *)
Definition resting (pc : wpc) : bool :=
  match pc with
  | W_start | W_loop | W_wait => true
  | _ => false
  end.

(** Pool [a] has no wakeup pending, no task queued and no worker busy. *)
Definition calm (a : addr) (w : world) : Prop :=
  ∃ o, heap w !! a = Some o ∧ thpoolman_sem o = 0 ∧ instruction_list o = [] ∧
    ∀ t th, threads w !! t = Some th → t_arg th = Some a → live th = true →
      resting (t_pc th) = true.

(** ** Why [Initialize] ends the process *)

(** The last line of the log and what was wrong when [Initialize count]
    aborted, [w] being the state at the call. *)
Definition abort_cause (count : Z) (w w' : world) : Prop :=
  (last (trace w') =
     Some (Caller, E_log CRIT "failed to destroy thread_list_lock: %d") ∧
   singleton w ≠ None ∧ mutex_destroy_rc w ≠ 0%Z) ∨
  (last (trace w') =
     Some (Caller, E_log CRIT
       "Failed to creating singleton for Thread Manager, because thread count(%d) is under 1.") ∧
   (count < 1)%Z) ∨
  (last (trace w') =
     Some (Caller, E_log CRIT "failed to init thread_list_lock: %d") ∧
   (1 ≤ count)%Z ∧ mutex_init_rc w ≠ 0%Z) ∨
  (last (trace w') =
     Some (Caller, E_log ERR "Failed starting threads at initializing.") ∧
   (1 ≤ count)%Z ∧ mutex_init_rc w = 0%Z ∧
   ¬ Forall (λ rc, rc = 0%Z) (take (Z.to_nat count) (create_tape w))).

(** ** Sequences of calls *)

(** Calls of the class interface, one after the other. *)
Fixpoint run_calls (cs : list call) : M unit :=
  match cs with
  | [] => mret ()
  | c :: cs' => run_call c;; run_calls cs'
  end.

(** ** A worker across a call *)

(** [handled t w w']: between [w] and [w'] worker [t] called what it
    dequeued and signalled what it called, but for the descriptor that it
    held or holds and the signal that it owed or owes. *)
Definition handled (t : pthread_t) (w w' : world) : Prop :=
  ∃ th th' evs,
    threads w !! t = Some th ∧ threads w' !! t = Some th' ∧ t_arg th' = t_arg th ∧
    trace w' = trace w ++ evs ∧
    in_hand (t_pc th) ++ taken (worker_events t evs) =
      called (worker_events t evs) ++ in_hand (t_pc th') ∧
    owed (t_pc th) ++ omap psem (called (worker_events t evs)) =
      signalled (worker_events t evs) ++ owed (t_pc th').

(** ** Example states *)

(** A task with argument [n], completion signal [h] and result [r]. *)
Definition ex_task (n : Z) (h : option sem_handle) (r : Z) : thpoolman_param :=
  mk_param n h (λ _, r).

(** The process before the first [Initialize]. *)
Definition ex_boot : world := mk_world ∅ 0 None [] [] 0%Z 0%Z ∅ [].

(** A pool at address 0 with two workers, both inside [wait]. *)
Definition ex_pool : ThreadPoolMan := mk_pool false 0 true [0; 1] [].

Definition ex_running : world :=
  mk_world {[0 := ex_pool]} 1 (Some 0)
    [mk_thread (Some 0) W_wait; mk_thread (Some 0) W_wait] [] 0%Z 0%Z ∅ [].

(** Two workers race with two submissions and run both tasks. *)
Definition ex_sched : sched :=
  [[A_step 0]; [A_step 1; A_step 1]; []; [A_step 0]].

(** The running pool after [Destroy]. *)
Definition ex_destroyed : world :=
  match Destroy ex_sched ex_running with
  | Ret _ _ w => w
  | _ => ex_running
  end.

(** A worker that wakes up during shutdown while a task is pending. *)
Definition ex_stopping : world :=
  mk_world {[0 := mk_pool true 0 true [0] [ex_task 1 None 0]]} 1 (Some 0)
    [mk_thread (Some 0) W_woken] [] 0%Z 0%Z ∅ [].

(** A worker about to run a task that has a completion signal and returns
    a non-null result. *)
Definition ex_busy : world :=
  mk_world {[0 := mk_pool false 0 true [0; 1] []]} 1 (Some 0)
    [mk_thread (Some 0) (W_call (ex_task 2 (Some 9) 7)); mk_thread (Some 0) W_wait]
    [] 0%Z 0%Z ∅ [].

(** The second creation of a restart fails. *)
Definition ex_scarce : world :=
  mk_world {[0 := ex_pool]} 1 (Some 0)
    [mk_thread (Some 0) W_wait; mk_thread (Some 0) W_wait] [0%Z; EAGAIN] 0%Z 0%Z ∅ [].

(** The states after a first and after a second [Initialize]; the workers
    of the first generation get to run when the second call starts. *)
Definition ex_restart_sched : sched := [[]; []; []; [A_step 0; A_step 0; A_step 1]].

Definition ex_first : world :=
  match Initialize 2 ex_restart_sched ex_boot with
  | Ret _ _ w => w
  | _ => ex_boot
  end.

Definition ex_second : world :=
  match Initialize 1 [[A_step 0; A_step 0; A_step 1]] ex_first with
  | Ret _ _ w => w
  | _ => ex_first
  end.

(** A worker that was woken and finds the queue empty. *)
Definition ex_spurious : world :=
  mk_world {[0 := ex_pool]} 1 (Some 0)
    [mk_thread (Some 0) W_fetch; mk_thread (Some 0) W_wait] [] 0%Z 0%Z ∅ [].

(** A worker list with an entry that is not a thread: joining it fails. *)
Definition ex_stale : world :=
  mk_world {[0 := mk_pool false 0 true [0; 7] []]} 1 (Some 0)
    [mk_thread (Some 0) W_wait] [] 0%Z 0%Z ∅ [].

(** A pool with one worker inside the wait, two wakeups pending and two
    tasks queued. *)
Definition ex_loaded : world :=
  mk_world {[0 := mk_pool false 2 true [0] [ex_task 1 None 0; ex_task 2 (Some 9) 7]]}
    1 (Some 0) [mk_thread (Some 0) W_wait] [] 0%Z 0%Z ∅ [].

(** A thread that was started on [Worker] with a null argument. *)
Definition ex_orphan : world :=
  mk_world ∅ 0 None [mk_thread None W_start] [] 0%Z 0%Z ∅ [].

(** The running pool in a process whose mutex cannot be destroyed. *)
Definition EBUSY : Z := 16%Z.

Definition ex_jammed : world :=
  mk_world {[0 := ex_pool]} 1 (Some 0)
    [mk_thread (Some 0) W_wait; mk_thread (Some 0) W_wait] [] 0%Z EBUSY ∅ [].

(** A life of the pool: start, submit, stop, start again. *)
Definition ex_calls : list call :=
  [Call_Initialize 2; Call_Instruct (ex_task 1 None 0); Call_Destroy; Call_Initialize 1].

(** The state in which a restart that cannot create its second worker
    ends the process. *)
Definition ex_aborted : world :=
  match Initialize 3 [] ex_scarce with
  | Aborted w => w
  | _ => ex_scarce
  end.

(** * Verification *)

(** ** Reasoning about the monad *)

Lemma wp_ret {A} (a : A) E (Q : A → sched → world → Prop) s w :
  Q a s w → wp (mret a) E Q s w.
Proof. done. Qed.

Lemma wp_bind {A B} (m : M A) (k : A → M B) E Q s w :
  wp m E (λ a s' w', wp (k a) E Q s' w') s w → wp (m ≫= k) E Q s w.
Proof.
  unfold wp, mbind, M_bind. by destruct (m s w).
Qed.

Lemma wp_mono {A} (m : M A) (E E' : world → Prop) (Q Q' : A → sched → world → Prop) s w :
  wp m E Q s w →
  (∀ w', E w' → E' w') →
  (∀ a s' w', Q a s' w' → Q' a s' w') →
  wp m E' Q' s w.
Proof.
  unfold wp. destruct (m s w); auto.
Qed.

Lemma wp_ret_inv {A} (m : M A) E Q s w :
  wp m E Q s w → (∀ w', ¬ E w') → ∃ a s' w', m s w = Ret a s' w' ∧ Q a s' w'.
Proof.
  unfold wp. intros H HE. destruct (m s w) as [a s' w'| w' | w']; [eauto | | done].
  by destruct (HE w').
Qed.

Lemma wp_modify (f : world → world) E (Q : unit → sched → world → Prop) s w :
  Q () s (f w) → wp (modify f) E Q s w.
Proof. done. Qed.

Lemma wp_log lv msg E (Q : unit → sched → world → Prop) s w :
  Q () s (emit Caller (E_log lv msg) w) → wp (log lv msg) E Q s w.
Proof. done. Qed.

Lemma wp_get_world E (Q : world → sched → world → Prop) s w :
  Q w s w → wp get_world E Q s w.
Proof. done. Qed.

Lemma wp_abort {A} (E : world → Prop) (Q : A → sched → world → Prop) s w :
  E w → wp abort E Q s w.
Proof. done. Qed.

Lemma wp_get_obj this o E (Q : ThreadPoolMan → sched → world → Prop) s w :
  heap w !! this = Some o → Q o s w → wp (get_obj this) E Q s w.
Proof. unfold wp, get_obj. by intros ->. Qed.

Lemma wp_modify_obj this f o E (Q : unit → sched → world → Prop) s w :
  heap w !! this = Some o → Q () s (put_obj this (f o) w) →
  wp (modify_obj this f) E Q s w.
Proof.
  intros Ho HQ. unfold modify_obj. apply wp_bind. by eapply wp_get_obj.
Qed.

Lemma wp_try_modify f w' E (Q : unit → sched → world → Prop) s w :
  f w = Some w' → Q () s w' → wp (try_modify f) E Q s w.
Proof. unfold wp, try_modify. by intros ->. Qed.

Lemma wp_yield E (Q : unit → sched → world → Prop) s w :
  (∀ c, c = default [] (head s) → Q () (tail s) (run_actions c w)) →
  wp yield E Q s w.
Proof.
  intros HQ. unfold wp, yield. destruct s as [|c s'];
    [apply (HQ []) | apply (HQ c)]; done.
Qed.

(** ** What a step leaves alone *)

Lemma quiet_refl w : quiet w w.
Proof. split; eauto. Qed.

Lemma quiet_trans w1 w2 w3 : quiet w1 w2 → quiet w2 w3 → quiet w1 w3.
Proof.
  intros [E1 H1 A1 D1] [E2 H2 A2 D2]. split.
  - congruence.
  - intros a. by rewrite H2.
  - intros t. by rewrite A2.
  - intros t th Ht Hl. destruct (D1 _ _ Ht Hl) as (th' & Ht' & Hl'). eauto.
Qed.

(** Case analysis on the step a worker takes. *)
Ltac worker_cases H :=
  unfold worker_body in H;
  match type of H with
  | context [t_pc ?th] => destruct th as [[?a|] []]
  end; simpl in H; try discriminate H;
  repeat match type of H with
  | context [heap ?w !! ?a] =>
      let o := fresh "o" in let Ho := fresh "Ho" in
      destruct (heap w !! a) as [o|] eqn:Ho; simpl in H; [|discriminate H]
  | context [sem_wait ?n] =>
      let Hn := fresh "Hn" in
      destruct n eqn:Hn; simpl in H; [discriminate H|]
  | context [instruction_list ?o] =>
      let Hq := fresh "Hq" in
      destruct (instruction_list o) eqn:Hq; simpl in H
  | context [if ?b then _ else _] =>
      let Hb := fresh "Hb" in destruct b eqn:Hb
  | context [psem ?p] =>
      let Hp := fresh "Hp" in destruct (psem p) eqn:Hp
  end;
  try discriminate H;
  injection H as <- <-.

Lemma worker_body_inv t th w pc' w' :
  worker_body t th w = Some (pc', w') →
  live th = true ∧ threads w' = threads w ∧ env w' = env w ∧
  (∃ evs, trace w' = trace w ++ evs ∧ Forall (λ e, e.1 = Thr t) evs) ∧
  (heap w' = heap w ∨
   ∃ a o n q, t_arg th = Some a ∧ heap w !! a = Some o ∧ n ≤ thpoolman_sem o ∧
     heap w' = <[a := mk_pool (is_exit o) n (is_lock_init o) (thread_list o) q]> (heap w)).
Proof.
  intros H. worker_cases H; simpl.
  all: split_and!; try done.
  all: try (left; done).
  all: try (exists []; by rewrite app_nil_r).
  all: try (eexists [_]; split; [done|]; by repeat constructor).
  all: try (eexists [_; _]; rewrite <- app_assoc; split; [done|]; by repeat constructor).
  all: try (right; eexists _, _, _, _; split_and!; [done| eassumption | | done]; lia).
Qed.

Lemma worker_step_unfold t w w' :
  worker_step t w = Some w' →
  ∃ th pc' w1, threads w !! t = Some th ∧ worker_body t th w = Some (pc', w1) ∧
    w' = set_pc t th pc' w1.
Proof.
  unfold worker_step. intros H.
  destruct (threads w !! t) as [th|] eqn:Hth; simpl in H; [|done].
  destruct (worker_body t th w) as [[pc' w1]|] eqn:Hb; simpl in H; [|done].
  injection H as <-. by eexists _, _, _.
Qed.

Lemma set_pc_args t th pc (l : list thread) t' :
  l !! t = Some th →
  t_arg <$> <[t := mk_thread (t_arg th) pc]> l !! t' = t_arg <$> l !! t'.
Proof.
  intros Hth. destruct (decide (t = t')) as [<-|].
  - rewrite list_lookup_insert_eq, Hth; [done|]. by eapply lookup_lt_Some.
  - by rewrite list_lookup_insert_ne.
Qed.

Lemma worker_step_quiet t w w' : worker_step t w = Some w' → quiet w w'.
Proof.
  intros (th & pc' & w1 & Hth & Hb & ->)%worker_step_unfold.
  destruct (worker_body_inv _ _ _ _ _ Hb) as (Hl & Ht & He & _ & Hh).
  split; simpl.
  - done.
  - intros a. destruct Hh as [-> | (b & o & n & q & _ & Ho & _ & ->)]; [done|].
    destruct (decide (b = a)) as [->|];
      [rewrite lookup_insert_eq, Ho | rewrite lookup_insert_ne]; done.
  - intros t'. rewrite Ht. by apply set_pc_args.
  - intros t' th' Ht' Hd. rewrite Ht. exists th'. split; [|done].
    rewrite list_lookup_insert_ne; [done|]. intros <-. congruence.
Qed.

Lemma worker_step_trace t w w' :
  worker_step t w = Some w' →
  ∃ evs, trace w' = trace w ++ evs ∧ Forall (λ e, e.1 = Thr t) evs.
Proof.
  intros (th & pc' & w1 & Hth & Hb & ->)%worker_step_unfold.
  by destruct (worker_body_inv _ _ _ _ _ Hb) as (_ & _ & _ & Hev & _).
Qed.

Lemma push_instruction_quiet who a p w w' :
  push_instruction who a p w = Some w' → quiet w w'.
Proof.
  unfold push_instruction. intros H.
  destruct (heap w !! a) as [o|] eqn:Ho; simpl in H; [|done]. injection H as <-.
  split; simpl; eauto.
  intros b. destruct (decide (a = b)) as [<-|];
    [rewrite lookup_insert_eq, Ho | rewrite lookup_insert_ne]; done.
Qed.

Lemma post_wakeup_quiet who a w w' :
  post_wakeup who a w = Some w' → quiet w w'.
Proof.
  unfold post_wakeup. intros H.
  destruct (heap w !! a) as [o|] eqn:Ho; simpl in H; [|done]. injection H as <-.
  split; simpl; eauto.
  intros b. destruct (decide (a = b)) as [<-|];
    [rewrite lookup_insert_eq, Ho | rewrite lookup_insert_ne]; done.
Qed.

Lemma apply_action_quiet act w : quiet w (apply_action act w).
Proof.
  destruct act as [t|a p|a]; simpl.
  - destruct (worker_step t w) eqn:H; simpl; [by eapply worker_step_quiet|apply quiet_refl].
  - destruct (push_instruction Racer a p w) eqn:H; simpl;
      [by eapply push_instruction_quiet|apply quiet_refl].
  - destruct (post_wakeup Racer a w) eqn:H; simpl;
      [by eapply post_wakeup_quiet|apply quiet_refl].
Qed.

Lemma run_actions_quiet acts w : quiet w (run_actions acts w).
Proof.
  revert w. induction acts as [|act acts IH]; intros w; simpl.
  - apply quiet_refl.
  - eapply quiet_trans; [apply apply_action_quiet | apply IH].
Qed.

(** The other threads leave no event of the calling thread. *)
Lemma apply_action_trace act w :
  ∃ evs, trace (apply_action act w) = trace w ++ evs ∧ Forall (λ e, e.1 ≠ Caller) evs.
Proof.
  destruct act as [t|a p|a]; simpl.
  - destruct (worker_step t w) eqn:H; simpl.
    + destruct (worker_step_trace _ _ _ H) as (evs & -> & Hev). exists evs.
      split; [done|]. eapply Forall_impl; [done|]. intros [? ?]; simpl. by intros ->.
    + exists []. by rewrite app_nil_r.
  - unfold push_instruction. destruct (heap w !! a); simpl.
    + eexists [_]. split; [done|]. by repeat constructor.
    + exists []. by rewrite app_nil_r.
  - unfold post_wakeup. destruct (heap w !! a); simpl.
    + eexists [_]. split; [done|]. by repeat constructor.
    + exists []. by rewrite app_nil_r.
Qed.

Lemma run_actions_trace acts w :
  ∃ evs, trace (run_actions acts w) = trace w ++ evs ∧ Forall (λ e, e.1 ≠ Caller) evs.
Proof.
  revert w. induction acts as [|act acts IH]; intros w; simpl.
  - exists []. by rewrite app_nil_r.
  - destruct (IH (apply_action act w)) as (e2 & -> & H2).
    destruct (apply_action_trace act w) as (e1 & -> & H1).
    exists (e1 ++ e2). rewrite app_assoc. split; [done|]. by apply Forall_app.
Qed.

(** ** Counting *)

Lemma countb_app {A} (f : A → bool) l1 l2 :
  countb f (l1 ++ l2) = countb f l1 + countb f l2.
Proof. induction l1 as [|x l1 IH]; simpl; [done|]. rewrite IH. lia. Qed.

Lemma countb_insert {A} (f : A → bool) (l : list A) i x y :
  l !! i = Some x →
  countb f (<[i:=y]> l) + Nat.b2n (f x) = countb f l + Nat.b2n (f y).
Proof.
  revert i. induction l as [|z l IH]; intros [|i] H; simplify_eq/=; [lia|].
  specialize (IH _ H). lia.
Qed.

Lemma countb_lookup_le {A} (f : A → bool) (l : list A) i x :
  l !! i = Some x → Nat.b2n (f x) ≤ countb f l.
Proof.
  revert i. induction l as [|z l IH]; intros [|i] H; simplify_eq/=; [lia|].
  specialize (IH _ H). lia.
Qed.

Lemma countb_zero {A} (f : A → bool) (l : list A) :
  (∀ i x, l !! i = Some x → f x = false) → countb f l = 0.
Proof.
  induction l as [|z l IH]; intros H; simpl; [done|].
  rewrite (H 0 z eq_refl), IH; [done|]. intros i x Hi. by apply (H (S i)).
Qed.

(** Pigeonhole: when every position that counts is listed in [tl], the
    count is at most the length of [tl]. *)
Lemma countb_le_length {A} (f : A → bool) (l : list A) (tl : list nat) :
  (∀ i x, l !! i = Some x → f x = true → i ∈ tl) → countb f l ≤ length tl.
Proof.
  revert tl. induction l as [|z l IH] using rev_ind; intros tl H; simpl; [lia|].
  rewrite countb_app. simpl.
  destruct (f z) eqn:Hz; simpl.
  - assert (length l ∈ tl) as Hin.
    { apply (H (length l) z); [|done]. by rewrite lookup_app_r, Nat.sub_diag. }
    assert (length (filter (λ i, i ≠ length l) tl) < length tl) as Hlt.
    { apply (length_filter_lt _ _ (length l)); [done|]. by intros []. }
    assert (countb f l ≤ length (filter (λ i, i ≠ length l) tl)) as Hle.
    { apply IH. intros i x Hi Hf. apply list_elem_of_filter. split.
      - apply lookup_lt_Some in Hi. lia.
      - apply (H i x); [|done]. by rewrite lookup_app_l by (by eapply lookup_lt_Some). }
    lia.
  - rewrite Nat.add_0_r. apply IH. intros i x Hi Hf.
    apply (H i x); [|done]. by rewrite lookup_app_l by (by eapply lookup_lt_Some).
Qed.

(** ** Shutdown releases every waiting worker *)

Lemma waiting_set_pc a t th pc' w w1 :
  threads w1 = threads w → threads w !! t = Some th →
  waiting a (set_pc t th pc' w1) + Nat.b2n (is_waiting a th) =
  waiting a w + Nat.b2n (is_waiting a (mk_thread (t_arg th) pc')).
Proof.
  intros Ht Hth. unfold waiting. simpl. rewrite Ht. by apply countb_insert.
Qed.

Lemma worker_step_releasing a k t w w' :
  releasing a k w → worker_step t w = Some w' → releasing a k w'.
Proof.
  intros (o & Ho & Hex & Hle) (th & pc' & w1 & Hth & Hb & ->)%worker_step_unfold.
  unfold releasing.
  worker_cases Hb;
    match goal with
    | |- context [set_pc ?t ?th ?pc ?w1] =>
        pose proof (waiting_set_pc a t th pc w w1 eq_refl Hth) as Hc
    end;
    unfold is_waiting in Hc; simpl in Hc |- *;
    try (exists o; split_and!; [done..|lia]).
  all: destruct (decide (a0 = a)) as [->|Hne];
    rewrite ?lookup_insert_eq, ?lookup_insert_ne by done; simplify_eq;
    rewrite ?bool_decide_eq_true_2, ?bool_decide_eq_false_2 in Hc by done;
    simpl in Hc; try congruence;
    try (eexists; split_and!; [done..|simpl; lia]).
Qed.

Lemma push_instruction_releasing who a k b p w w' :
  releasing a k w → push_instruction who b p w = Some w' → releasing a k w'.
Proof.
  unfold push_instruction. intros (o & Ho & Hex & Hle) H.
  destruct (heap w !! b) as [o'|] eqn:Ho'; simpl in H; [|done]. injection H as <-.
  unfold releasing; simpl. destruct (decide (b = a)) as [->|Hne].
  - rewrite lookup_insert_eq. simplify_eq. by eexists.
  - rewrite lookup_insert_ne by done. by eexists.
Qed.

Lemma post_wakeup_releasing who a k b w w' :
  releasing a k w → post_wakeup who b w = Some w' → releasing a k w'.
Proof.
  unfold post_wakeup. intros (o & Ho & Hex & Hle) H.
  destruct (heap w !! b) as [o'|] eqn:Ho'; simpl in H; [|done]. injection H as <-.
  unfold releasing; simpl. destruct (decide (b = a)) as [->|Hne].
  - rewrite lookup_insert_eq. simplify_eq. eexists. split_and!; [done..|].
    unfold waiting in *. simpl. unfold sem_post. lia.
  - rewrite lookup_insert_ne by done. by eexists.
Qed.

Lemma apply_action_releasing a k act w :
  releasing a k w → releasing a k (apply_action act w).
Proof.
  intros Hr. destruct act as [t|b p|b]; simpl.
  - destruct (worker_step t w) eqn:H; simpl; [by eapply worker_step_releasing|done].
  - destruct (push_instruction Racer b p w) eqn:H; simpl;
      [by eapply push_instruction_releasing|done].
  - destruct (post_wakeup Racer b w) eqn:H; simpl;
      [by eapply post_wakeup_releasing|done].
Qed.

Lemma run_actions_releasing a k acts w :
  releasing a k w → releasing a k (run_actions acts w).
Proof.
  revert w. induction acts as [|act acts IH]; intros w Hr; simpl; [done|].
  by apply IH, apply_action_releasing.
Qed.

(** One of the posts of [StopThreads]. *)
Lemma post_wakeup_release a k w :
  releasing a (S k) w →
  ∃ w', post_wakeup Caller a w = Some w' ∧ releasing a k w'.
Proof.
  intros (o & Ho & Hex & Hle). unfold post_wakeup. rewrite Ho. simpl.
  eexists. split; [done|]. unfold releasing. simpl. rewrite lookup_insert_eq.
  eexists. split_and!; [done..|]. unfold waiting in *. simpl. unfold sem_post. lia.
Qed.

Lemma releasing_progress a t th w :
  releasing a 0 w → threads w !! t = Some th → t_arg th = Some a → live th = true →
  ∃ w' pc', worker_step t w = Some w' ∧
    threads w' !! t = Some (mk_thread (Some a) pc') ∧
    dist pc' < dist (t_pc th) ∧ pc' ≠ W_reaped.
Proof.
  intros (o & Ho & Hex & Hle) Hth Ha Hl.
  pose proof (countb_lookup_le (is_waiting a) _ _ _ Hth) as Hw.
  pose proof (lookup_lt_Some _ _ _ Hth) as Hlt.
  unfold worker_step. rewrite Hth. simpl.
  destruct th as [arg pc]. simpl in Ha. subst arg.
  fold (waiting a w) in Hw. unfold worker_body. simpl.
  assert (∀ pc' w1, threads w1 = threads w → dist pc' < dist pc → pc' ≠ W_reaped →
    ∃ w' pc'', Some (set_pc t (mk_thread (Some a) pc) pc' w1) = Some w' ∧
      threads w' !! t = Some (mk_thread (Some a) pc'') ∧
      dist pc'' < dist pc ∧ pc'' ≠ W_reaped) as Hfin.
  { intros pc' w1 Ht Hd Hr. eexists _, pc'. split; [done|]. simpl.
    rewrite Ht, list_lookup_insert_eq by done. done. }
  destruct pc; simpl in *; try done; rewrite ?Ho; simpl; rewrite ?Hex; simpl.
  - apply Hfin; simpl; [done|lia|done].
  - apply Hfin; simpl; [done|lia|done].
  - unfold is_waiting in Hw. simpl in Hw.
    rewrite bool_decide_eq_true_2 in Hw by done. simpl in Hw.
    destruct (thpoolman_sem o) eqn:Hs; [lia|]. simpl.
    apply Hfin; simpl; [done|lia|done].
  - apply Hfin; simpl; [done|lia|done].
  - destruct (instruction_list o) as [|p q]; simpl;
      apply Hfin; simpl; [done|lia|done|done|lia|done].
  - destruct (bool_decide _); apply Hfin; simpl; [done|lia|done|done|lia|done].
  - destruct (psem p); apply Hfin; simpl; [done|lia|done|done|lia|done].
Qed.

Lemma quiet_obj w w' a o :
  quiet w w' → heap w !! a = Some o →
  ∃ o', heap w' !! a = Some o' ∧ is_exit o' = is_exit o ∧
        thread_list o' = thread_list o ∧ is_lock_init o' = is_lock_init o.
Proof.
  intros Hq Ho. pose proof (q_heap _ _ Hq a) as H. rewrite Ho in H.
  destruct (heap w' !! a) as [o'|]; simplify_eq/=. exists o'.
  unfold frame in H. by simplify_eq.
Qed.

Lemma quiet_obj_rev w w' a o' :
  quiet w w' → heap w' !! a = Some o' →
  ∃ o, heap w !! a = Some o ∧ is_exit o' = is_exit o ∧
       thread_list o' = thread_list o ∧ is_lock_init o' = is_lock_init o.
Proof.
  intros Hq Ho. pose proof (q_heap _ _ Hq a) as H. rewrite Ho in H.
  destruct (heap w !! a) as [o|]; simplify_eq/=. exists o.
  unfold frame in H. by simplify_eq.
Qed.

Lemma quiet_thread w w' t th :
  quiet w w' → threads w !! t = Some th →
  ∃ th', threads w' !! t = Some th' ∧ t_arg th' = t_arg th.
Proof.
  intros Hq Ht. pose proof (q_args _ _ Hq t) as H. rewrite Ht in H.
  destruct (threads w' !! t) as [th'|]; simplify_eq/=. by exists th'.
Qed.

Lemma quiet_thread_rev w w' t th' :
  quiet w w' → threads w' !! t = Some th' →
  ∃ th, threads w !! t = Some th ∧ t_arg th' = t_arg th ∧
        (live th' = true → live th = true).
Proof.
  intros Hq Ht. pose proof (q_args _ _ Hq t) as H. rewrite Ht in H.
  destruct (threads w !! t) as [th|] eqn:Hth; simplify_eq/=. exists th.
  split_and!; [done..|]. intros Hl. destruct (live th) eqn:Hlth; [done|].
  destruct (q_dead _ _ Hq _ _ Hth Hlth) as (th2 & Ht2 & Hl2). congruence.
Qed.

(** ** Events of the calling thread *)

Lemma countb_not_caller f evs :
  Forall (λ e : actor * event, e.1 ≠ Caller) evs → countb (by_caller f) evs = 0.
Proof.
  induction 1 as [|[who e] evs H _ IH]; simpl; [done|].
  rewrite IH. unfold by_caller. simpl in *. by destruct who.
Qed.

Lemma run_actions_by_caller f acts w :
  countb (by_caller f) (trace (run_actions acts w)) = countb (by_caller f) (trace w).
Proof.
  destruct (run_actions_trace acts w) as (evs & -> & Hev).
  rewrite countb_app, (countb_not_caller f evs Hev). lia.
Qed.

(** ** The wakeup count under interference *)

Lemma apply_action_sem a act w o :
  heap w !! a = Some o →
  ∃ o', heap (apply_action act w) !! a = Some o' ∧
        thpoolman_sem o' ≤ S (thpoolman_sem o).
Proof.
  intros Ho. destruct act as [t|b p|b]; simpl.
  - destruct (worker_step t w) as [w'|] eqn:H; simpl; [|eauto].
    apply worker_step_unfold in H as (th & pc' & w1 & Hth & Hb & ->).
    destruct (worker_body_inv _ _ _ _ _ Hb) as (_ & _ & _ & _ & Hh). simpl.
    destruct Hh as [-> | (b & o1 & n & q & _ & Ho1 & Hn & ->)]; [eauto|].
    destruct (decide (b = a)) as [->|].
    + rewrite lookup_insert_eq. simplify_eq. eexists. split; [done|]. simpl. lia.
    + rewrite lookup_insert_ne by done. eauto.
  - unfold push_instruction. destruct (heap w !! b) as [o1|] eqn:Ho1; simpl; [|eauto].
    destruct (decide (b = a)) as [->|].
    + rewrite lookup_insert_eq. simplify_eq. eexists. split; [done|]. simpl. lia.
    + rewrite lookup_insert_ne by done. eauto.
  - unfold post_wakeup. destruct (heap w !! b) as [o1|] eqn:Ho1; simpl; [|eauto].
    destruct (decide (b = a)) as [->|].
    + rewrite lookup_insert_eq. simplify_eq. eexists. split; [done|]. simpl.
      unfold sem_post. lia.
    + rewrite lookup_insert_ne by done. eauto.
Qed.

Lemma run_actions_sem a acts w o :
  heap w !! a = Some o →
  ∃ o', heap (run_actions acts w) !! a = Some o' ∧
        thpoolman_sem o' ≤ thpoolman_sem o + length acts.
Proof.
  revert w o. induction acts as [|act acts IH]; intros w o Ho; simpl.
  - exists o. split; [done|lia].
  - destruct (apply_action_sem a act w o Ho) as (o1 & Ho1 & H1).
    destruct (IH _ _ Ho1) as (o2 & Ho2 & H2). exists o2. split; [done|lia].
Qed.

(** ** Well-formed pools *)

Lemma quiet_tracked a w w' : quiet w w' → tracked a w → tracked a w'.
Proof.
  intros Hq Ht t th' Hth' Ha Hl.
  destruct (quiet_thread_rev _ _ _ _ Hq Hth') as (th & Hth & Harg & Hlive).
  destruct (Ht t th Hth) as (o & Ho & Hin); [congruence|auto|].
  destruct (quiet_obj _ _ _ _ Hq Ho) as (o' & Ho' & _ & Hl' & _).
  exists o'. by rewrite Hl'.
Qed.

Lemma quiet_owned a w w' : quiet w w' → owned a w → owned a w'.
Proof.
  intros Hq Hown o' t th' Ho' Hin Hth'.
  destruct (quiet_thread_rev _ _ _ _ Hq Hth') as (th & Hth & Harg & _).
  destruct (quiet_obj_rev _ _ _ _ Hq Ho') as (o & Ho & _ & Hl & _).
  rewrite Harg. eapply Hown; [done| |done]. by rewrite <- Hl.
Qed.

Lemma quiet_pool_ok a w w' : quiet w w' → pool_ok a w → pool_ok a w'.
Proof.
  intros Hq ([o Ho] & Ht & Hown). split_and!.
  - destruct (quiet_obj _ _ _ _ Hq Ho) as (o' & Ho' & _). eauto.
  - by eapply quiet_tracked.
  - by eapply quiet_owned.
Qed.

(** A pool with all its workers tracked has at most as many workers
    inside [wait] as its [thread_list] is long. *)
Lemma tracked_waiting a w o :
  tracked a w → heap w !! a = Some o → waiting a w ≤ length (thread_list o).
Proof.
  intros Ht Ho. apply countb_le_length. intros t th Hth Hw.
  unfold is_waiting in Hw.
  destruct th as [arg pc]; destruct pc; simpl in Hw; try done.
  destruct arg as [b|]; [|done]. apply bool_decide_eq_true in Hw as ->.
  destruct (Ht t _ Hth eq_refl eq_refl) as (o' & Ho' & Hin). by simplify_eq.
Qed.

(** ** Joining a worker of a pool that is shutting down *)

Lemma run_to_exit_spec a t n w th :
  releasing a 0 w → threads w !! t = Some th → t_arg th = Some a →
  t_pc th ≠ W_reaped → dist (t_pc th) ≤ n →
  ∃ acts r, run_to_exit t n w = Some (run_actions acts w) ∧
    threads (run_actions acts w) !! t = Some (mk_thread (Some a) (W_exit r)).
Proof.
  revert w th. induction n as [|n IH]; intros w th Hr Hth Ha Hnr Hd.
  - destruct th as [arg pc]; simpl in *; subst arg.
    destruct pc; simpl in Hd; try lia; [|done].
    exists [], retval. simpl. by rewrite Hth.
  - destruct (live th) eqn:Hl.
    + destruct (releasing_progress a t th w Hr Hth Ha Hl)
        as (w1 & pc1 & Hstep & Hth1 & Hlt & Hnr1).
      destruct (IH w1 (mk_thread (Some a) pc1)) as (acts & r & Hrun & Hfin);
        [by eapply worker_step_releasing|done|done|done|simpl; lia|].
      exists (A_step t :: acts), r. simpl. rewrite Hth, Hstep. simpl.
      split; [|done]. destruct th as [arg pc]; destruct pc; simpl in *; done.
    + destruct th as [arg pc]; simpl in *; subst arg.
      destruct pc; simpl in Hl; try done.
      exists [], retval. simpl. by rewrite Hth.
Qed.

Lemma join_fuel_enough t w th :
  threads w !! t = Some th → dist (t_pc th) ≤ join_fuel t w.
Proof.
  intros Hth. unfold join_fuel. rewrite Hth.
  assert (dist (t_pc th) ≤ 7) by (destruct (t_pc th); simpl; lia).
  destruct (t_arg th); lia.
Qed.

Lemma waiting_emit a who e w : waiting a (emit who e w) = waiting a w.
Proof. done. Qed.

Lemma releasing_emit a k who e w : releasing a k w → releasing a k (emit who e w).
Proof. done. Qed.

Lemma quiet_emit who e w : quiet w (emit who e w).
Proof. split; eauto. Qed.

(** Marking a returned thread as joined. *)
Lemma reap_quiet t th r w :
  threads w !! t = Some (mk_thread (t_arg th) (W_exit r)) →
  quiet w (set_pc t th W_reaped w).
Proof.
  intros Hth. split; simpl; try done.
  - intros t'. by rewrite (set_pc_args t (mk_thread (t_arg th) (W_exit r))).
  - intros t' th' Hth' Hl. destruct (decide (t = t')) as [<-|].
    + eexists. rewrite list_lookup_insert_eq by (by eapply lookup_lt_Some). done.
    + exists th'. by rewrite list_lookup_insert_ne.
Qed.

Lemma reap_releasing a k t th r w :
  threads w !! t = Some (mk_thread (t_arg th) (W_exit r)) →
  releasing a k w → releasing a k (set_pc t th W_reaped w).
Proof.
  intros Hth (o & Ho & Hex & Hle). exists o. split_and!; [done..|].
  pose proof (waiting_set_pc a t _ W_reaped w w eq_refl Hth) as Hc.
  unfold is_waiting in Hc. simpl in Hc.
  unfold waiting, set_pc in *. simpl in *. lia.
Qed.

Lemma wp_pthread_join a t E s w :
  releasing a 0 w →
  (∀ th, threads w !! t = Some th → t_arg th = Some a) →
  wp (pthread_join t) E
    (λ _ s' w', s' = s ∧ releasing a 0 w' ∧ quiet w w' ∧
       (∀ th, threads w' !! t = Some th → live th = false) ∧
       caller_posts a w' = caller_posts a w ∧
       caller_joins w' = S (caller_joins w)) s w.
Proof.
  intros Hr Hown. unfold wp, pthread_join.
  assert (caller_joins (emit Caller (E_join t ESRCH) w) = S (caller_joins w)) as Hj.
  { unfold caller_joins. simpl. rewrite countb_app. simpl. lia. }
  assert (caller_posts a (emit Caller (E_join t ESRCH) w) = caller_posts a w) as Hp.
  { unfold caller_posts. simpl. rewrite countb_app. simpl. lia. }
  destruct (threads w !! t) as [th|] eqn:Hth.
  - specialize (Hown th eq_refl).
    pose proof (join_fuel_enough t w th Hth) as Hfuel.
    destruct (t_pc th) eqn:Hpc.
    9: { split_and!; [done|done|apply quiet_emit| |done|done].
         simpl. intros th' ?. simplify_eq. unfold live. by rewrite Hpc. }
    all: destruct (run_to_exit_spec a t (join_fuel t w) w th Hr Hth Hown) as (acts & r & Hrun & Hfin);
      [by rewrite Hpc|by rewrite Hpc|];
      rewrite Hrun, Hfin; simpl;
      assert (threads (run_actions acts w) !! t =
              Some (mk_thread (t_arg th) (W_exit r))) as Hfin' by (by rewrite Hown);
      (split_and!; [done
        | by eapply releasing_emit, reap_releasing, run_actions_releasing
        | eapply quiet_trans; [apply run_actions_quiet|];
          eapply quiet_trans; [by eapply reap_quiet|apply quiet_emit]
        | simpl; intros th';
          rewrite list_lookup_insert_eq by (by eapply lookup_lt_Some);
          by intros [= <-]
        | unfold caller_posts; simpl; rewrite countb_app; simpl;
          rewrite run_actions_by_caller; lia
        | unfold caller_joins; simpl; rewrite countb_app; simpl;
          rewrite run_actions_by_caller; lia ]).
  - split_and!; [done|done|apply quiet_emit| |done|done].
    simpl. intros th'. by rewrite Hth.
Qed.

(** ** What [StopThreads] leaves alone *)

Lemma quiet_stable this w w' : quiet w w' → stable this w w'.
Proof.
  intros [He Hh Ha Hd]. split; auto.
  specialize (Hh this).
  destruct (heap w' !! this) as [o'|]; destruct (heap w !! this) as [o|];
    simpl in *; try done.
  unfold frame in Hh. injection Hh as _ _ ->. done.
Qed.

Lemma stable_refl this w : stable this w w.
Proof. apply quiet_stable, quiet_refl. Qed.

Lemma stable_trans this w1 w2 w3 :
  stable this w1 w2 → stable this w2 w3 → stable this w1 w3.
Proof.
  intros [E1 H1 L1 A1 D1] [E2 H2 L2 A2 D2]. split.
  - congruence.
  - intros a Hne. by rewrite H2, H1.
  - congruence.
  - intros t. by rewrite A2.
  - intros t th Ht Hl. destruct (D1 _ _ Ht Hl) as (th' & Ht' & Hl'). eauto.
Qed.

Lemma stable_thread_rev this w w' t th' :
  stable this w w' → threads w' !! t = Some th' →
  ∃ th, threads w !! t = Some th ∧ t_arg th' = t_arg th ∧
        (live th' = true → live th = true).
Proof.
  intros Hq Ht. pose proof (s_args _ _ _ Hq t) as H. rewrite Ht in H.
  destruct (threads w !! t) as [th|] eqn:Hth; simplify_eq/=. exists th.
  split_and!; [done..|]. intros Hl. destruct (live th) eqn:Hlth; [done|].
  destruct (s_dead _ _ _ Hq _ _ Hth Hlth) as (th2 & Ht2 & Hl2). congruence.
Qed.

Lemma put_obj_stable this o o' w :
  heap w !! this = Some o → is_lock_init o' = is_lock_init o →
  stable this w (put_obj this o' w).
Proof.
  intros Ho Hl. split; simpl; eauto.
  - intros a Hne. by rewrite lookup_insert_ne.
  - rewrite lookup_insert_eq, Ho. simpl. by rewrite Hl.
Qed.

Lemma put_obj_quiet a o o' w :
  heap w !! a = Some o → frame o' = frame o → quiet w (put_obj a o' w).
Proof.
  intros Ho Hf. split; simpl; eauto.
  intros b. destruct (decide (a = b)) as [<-|].
  - rewrite lookup_insert_eq, Ho. simpl. by rewrite Hf.
  - by rewrite lookup_insert_ne.
Qed.

(** ** The loops of [StopThreads] *)

Lemma post_wakeup_counts a w w' :
  post_wakeup Caller a w = Some w' →
  caller_posts a w' = S (caller_posts a w) ∧ caller_joins w' = caller_joins w.
Proof.
  unfold post_wakeup. intros H.
  destruct (heap w !! a) as [o|]; simplify_eq/=.
  unfold caller_posts, caller_joins. simpl. rewrite !countb_app.
  unfold by_caller, is_post. simpl.
  rewrite bool_decide_eq_true_2 by done. simpl. lia.
Qed.

Lemma wp_post_loop a n E s w :
  releasing a n w →
  wp (post_loop a n) E
    (λ _ _ w', releasing a 0 w' ∧ quiet w w' ∧
       caller_posts a w' = caller_posts a w + n ∧
       caller_joins w' = caller_joins w) s w.
Proof.
  revert s w. induction n as [|n IH]; intros s w Hr; simpl.
  - apply wp_ret. split_and!; [done|apply quiet_refl|lia|done].
  - apply wp_bind, wp_yield. intros c _.
    pose proof (run_actions_releasing a (S n) c w Hr) as Hr1.
    destruct (post_wakeup_release a n _ Hr1) as (w2 & Hpost & Hr2).
    apply wp_bind. eapply wp_try_modify; [done|].
    eapply wp_mono; [by apply IH|done|].
    intros _ s' w' (Hr' & Hq' & Hp' & Hj').
    destruct (post_wakeup_counts _ _ _ Hpost) as [Hp2 Hj2].
    split_and!; [done| | |].
    + eapply quiet_trans; [apply run_actions_quiet|].
      eapply quiet_trans; [by eapply post_wakeup_quiet|done].
    + rewrite Hp', Hp2. unfold caller_posts. rewrite run_actions_by_caller. lia.
    + rewrite Hj', Hj2. unfold caller_joins. by rewrite run_actions_by_caller.
Qed.

Lemma caller_posts_log a lv msg w :
  caller_posts a (emit Caller (E_log lv msg) w) = caller_posts a w.
Proof. unfold caller_posts. simpl. rewrite countb_app. simpl. lia. Qed.

Lemma caller_joins_log lv msg w :
  caller_joins (emit Caller (E_log lv msg) w) = caller_joins w.
Proof. unfold caller_joins. simpl. rewrite countb_app. simpl. lia. Qed.

Lemma wp_join_loop a l E s w :
  releasing a 0 w →
  (∀ t th, t ∈ l → threads w !! t = Some th → t_arg th = Some a) →
  wp (join_loop l) E
    (λ _ _ w', releasing a 0 w' ∧ quiet w w' ∧
       (∀ t th, t ∈ l → threads w' !! t = Some th → live th = false) ∧
       caller_posts a w' = caller_posts a w ∧
       caller_joins w' = caller_joins w + length l) s w.
Proof.
  revert s w. induction l as [|t l IH]; intros s w Hr Hown; simpl.
  - apply wp_ret. split_and!; [done|apply quiet_refl| |done|lia].
    intros t th Hin. by apply elem_of_nil in Hin.
  - apply wp_bind, wp_yield. intros c _.
    pose proof (run_actions_releasing a 0 c w Hr) as Hr1.
    pose proof (run_actions_quiet c w) as Hq1.
    assert (∀ t' th, t' ∈ t :: l → threads (run_actions c w) !! t' = Some th →
                     t_arg th = Some a) as Hown1.
    { intros t' th' Hin Hth'.
      destruct (quiet_thread_rev _ _ _ _ Hq1 Hth') as (th & Hth & -> & _). eauto. }
    apply wp_bind. eapply wp_mono;
      [apply (wp_pthread_join a t); [done|] | done |].
    { intros th. apply Hown1. by left. }
    intros r s2 w2 (-> & Hr2 & Hq2 & Hd2 & Hp2 & Hj2). simpl.
    apply wp_bind.
    set (w3 := emit Caller
                 (if bool_decide (r.1 = 0%Z) then E_log DBG "succeed pthread_join - return code(%ld)"
                  else E_log ERR "failed pthread_join - result(%d)") w2).
    assert (wp (if bool_decide (r.1 = 0%Z) then log DBG "succeed pthread_join - return code(%ld)"
                else log ERR "failed pthread_join - result(%d)") E
              (λ _ s' w', s' = tail s ∧ w' = w3) (tail s) w2) as Hlog.
    { unfold w3. by destruct (bool_decide _). }
    eapply wp_mono; [exact Hlog|done|]. intros _ s3 ? [-> ->].
    assert (quiet w2 w3) as Hq3 by (unfold w3; destruct (bool_decide _); apply quiet_emit).
    assert (releasing a 0 w3) as Hr3 by (unfold w3; by destruct (bool_decide _)).
    assert (caller_posts a w3 = caller_posts a w2) as Hp3
      by (unfold w3; destruct (bool_decide _); apply caller_posts_log).
    assert (caller_joins w3 = caller_joins w2) as Hj3
      by (unfold w3; destruct (bool_decide _); apply caller_joins_log).
    assert (quiet w w3) as Hq.
    { eapply quiet_trans; [exact Hq1|]. by eapply quiet_trans. }
    eapply wp_mono; [apply IH; [done|] | done |].
    { intros t' th' Hin Hth'.
      destruct (quiet_thread_rev _ _ _ _ Hq Hth') as (th & Hth & -> & _).
      apply (Hown t'); [by right|done]. }
    intros _ s4 w4 (Hr4 & Hq4 & Hd4 & Hp4 & Hj4).
    split_and!; [done|by eapply quiet_trans| | |].
    + intros t' th' Hin Hth'. apply elem_of_cons in Hin as [->|Hin]; [|by eauto].
      destruct (live th') eqn:Hl; [|done].
      destruct (quiet_thread_rev _ _ _ _ (quiet_trans _ _ _ Hq3 Hq4) Hth')
        as (th2 & Hth2 & _ & Hlive).
      rewrite (Hd2 _ Hth2) in Hlive. by discriminate Hlive.
    + rewrite Hp4, Hp3, Hp2. unfold caller_posts. by rewrite run_actions_by_caller.
    + rewrite Hj4, Hj3, Hj2. unfold caller_joins. rewrite run_actions_by_caller. lia.
Qed.

Lemma length_concat_tail (s : sched) :
  length (concat s) = length (default [] (head s)) + length (concat (tail s)).
Proof. destruct s as [|c s]; simpl; [done|]. by rewrite length_app. Qed.

Lemma wp_drain_loop a fuel E s w o :
  heap w !! a = Some o →
  thpoolman_sem o + length (concat s) < fuel →
  wp (drain_loop a fuel) E
    (λ _ _ w', quiet w w' ∧
       (∃ o', heap w' !! a = Some o' ∧ thpoolman_sem o' = 0) ∧
       caller_posts a w' = caller_posts a w ∧
       caller_joins w' = caller_joins w) s w.
Proof.
  revert s w o. induction fuel as [|fuel IH]; intros s w o Ho Hlt; [lia|]. simpl.
  apply wp_bind, wp_yield. intros c Hc.
  destruct (run_actions_sem a c w o Ho) as (o1 & Ho1 & Hs1).
  pose proof (length_concat_tail s) as Hlen. rewrite <- Hc in Hlen.
  apply wp_bind. eapply wp_get_obj; [done|].
  apply wp_bind, wp_modify.
  set (w2 := put_obj a (set_sem (sem_try_wait (thpoolman_sem o1)).2 o1) (run_actions c w)).
  assert (quiet w w2) as Hq.
  { eapply quiet_trans; [apply run_actions_quiet|]. by eapply put_obj_quiet. }
  assert (caller_posts a w2 = caller_posts a w) as Hp.
  { unfold caller_posts, w2. simpl. apply run_actions_by_caller. }
  assert (caller_joins w2 = caller_joins w) as Hj.
  { unfold caller_joins, w2. simpl. apply run_actions_by_caller. }
  assert (heap w2 !! a = Some (set_sem (sem_try_wait (thpoolman_sem o1)).2 o1)) as Ho2.
  { unfold w2. simpl. by rewrite lookup_insert_eq. }
  destruct (thpoolman_sem o1) as [|m] eqn:Hm; simpl.
  - apply wp_ret. split_and!; [done| |done|done]. eexists. split; [exact Ho2|done].
  - eapply wp_mono; [eapply (IH _ _ _ Ho2); simpl; lia|done|].
    intros _ s' w' (Hq' & Ho' & Hp' & Hj').
    split_and!; [by eapply quiet_trans|done|congruence|congruence].
Qed.

Lemma wp_drain a E s w o :
  heap w !! a = Some o →
  wp (drain a) E
    (λ _ _ w', quiet w w' ∧
       (∃ o', heap w' !! a = Some o' ∧ thpoolman_sem o' = 0) ∧
       caller_posts a w' = caller_posts a w ∧
       caller_joins w' = caller_joins w) s w.
Proof.
  intros Ho.
  pose proof (wp_drain_loop a (S (thpoolman_sem o + length (concat s))) E s w o Ho) as H.
  unfold wp, drain in *. rewrite Ho. apply H. lia.
Qed.

(** ** StopThreads *)

Lemma StopThreads_spec this E s w o :
  heap w !! this = Some o → tracked this w → owned this w →
  wp (StopThreads this) E
    (λ b s' w', b = true ∧ stable this w w' ∧ all_returned this w' ∧
       ∃ o', heap w' !! this = Some o' ∧ thread_list o' = [] ∧
         (thread_list o = [] →
            s' = s ∧
            w' = emit Caller (E_log INFO "Any threads are running now, then nothing to do.") w) ∧
         (thread_list o ≠ [] →
            is_exit o' = true ∧ thpoolman_sem o' = 0 ∧
            caller_posts this w' = caller_posts this w + length (thread_list o) ∧
            caller_joins w' = caller_joins w + length (thread_list o))) s w.
Proof.
  intros Ho Htr Hown. unfold StopThreads.
  apply wp_bind. eapply wp_get_obj; [done|].
  destruct (bool_decide (thread_list o = [])) eqn:Hempty.
  - apply bool_decide_eq_true in Hempty.
    apply wp_bind, wp_log, wp_ret. split_and!; [done|apply quiet_stable, quiet_emit| |].
    + intros t th Hth Ha. destruct (live th) eqn:Hl; [|done].
      destruct (Htr t th Hth Ha Hl) as (o' & Ho' & Hin). simplify_eq.
      rewrite Hempty in Hin. by apply elem_of_nil in Hin.
    + exists o. split_and!; done.
  - apply bool_decide_eq_false in Hempty.
    apply wp_bind, wp_yield. intros c _.
    set (w1 := run_actions c w).
    pose proof (run_actions_quiet c w : quiet w w1) as Hq1.
    destruct (quiet_obj _ _ _ _ Hq1 Ho) as (o1 & Ho1 & Hex1 & Hl1 & Hli1).
    set (w2 := put_obj this (set_is_exit true o1) w1).
    apply wp_bind. eapply wp_modify_obj; [done|]. fold w2.
    assert (stable this w w2) as Hs2.
    { eapply stable_trans; [by apply quiet_stable|].
      apply (put_obj_stable this o1 (set_is_exit true o1) w1 Ho1 eq_refl). }
    assert (releasing this (length (thread_list o)) w2) as Hr2.
    { exists (set_is_exit true o1). unfold w2. simpl. rewrite lookup_insert_eq.
      split_and!; [done..|].
      pose proof (tracked_waiting this w1 o1 (quiet_tracked _ _ _ Hq1 Htr) Ho1) as Hw.
      rewrite Hl1 in Hw. unfold waiting in *. simpl. lia. }
    apply wp_bind. eapply wp_mono; [by apply wp_post_loop|done|].
    intros _ s3 w3 (Hr3 & Hq3 & Hp3 & Hj3). simpl.
    assert (stable this w w3) as Hs3.
    { eapply stable_trans; [done|]. by apply quiet_stable. }
    apply wp_bind. eapply wp_mono; [apply (wp_join_loop this); [done|]|done|].
    { intros t th' Hin Hth'.
      destruct (stable_thread_rev _ _ _ _ _ Hs3 Hth') as (th & Hth & -> & _).
      by eapply Hown. }
    intros _ s4 w4 (Hr4 & Hq4 & Hd4 & Hp4 & Hj4). simpl.
    destruct Hr4 as (o4 & Ho4 & Hex4 & _).
    set (w5 := put_obj this (set_thread_list [] o4) w4).
    apply wp_bind. eapply wp_modify_obj; [done|]. fold w5.
    assert (heap w5 !! this = Some (set_thread_list [] o4)) as Ho5.
    { unfold w5. simpl. by rewrite lookup_insert_eq. }
    apply wp_bind. eapply wp_mono; [by eapply wp_drain|done|].
    intros _ s6 w6 (Hq6 & (o6 & Ho6 & Hsem6) & Hp6 & Hj6). simpl.
    apply wp_ret.
    assert (stable this w4 w6) as Hs46.
    { eapply stable_trans;
        [apply (put_obj_stable this o4 (set_thread_list [] o4) w4 Ho4 eq_refl)|].
      by apply quiet_stable. }
    destruct (quiet_obj_rev _ _ _ _ Hq6 Ho6) as (o5 & Ho5' & Hex6 & Hl6 & _).
    simplify_eq. simpl in *.
    split_and!; [done| | |].
    + eapply stable_trans; [exact Hs3|].
      eapply stable_trans; [by apply quiet_stable|done].
    + intros t th6 Hth6 Ha. destruct (live th6) eqn:Hl; [|done].
      destruct (stable_thread_rev _ _ _ _ _ Hs46 Hth6) as (th4 & Hth4 & Ha4 & Hl4).
      destruct (quiet_thread_rev _ _ _ _ Hq4 Hth4) as (th3 & Hth3 & Ha3 & Hl3).
      destruct (stable_thread_rev _ _ _ _ _ Hs3 Hth3) as (th0 & Hth0 & Ha0 & Hl0).
      destruct (Htr t th0 Hth0) as (o' & Ho' & Hin); [congruence|auto|].
      simplify_eq. rewrite (Hd4 _ _ Hin Hth4) in Hl4. by discriminate Hl4.
    + exists o6. split_and!; [done|done|done|]. intros _.
      split_and!; [congruence|done| |].
      * rewrite Hp6. unfold caller_posts at 1. simpl. fold (caller_posts this w4).
        rewrite Hp4, Hp3. unfold caller_posts. simpl. fold w1.
        unfold w1. by rewrite run_actions_by_caller.
      * rewrite Hj6. unfold caller_joins at 1. simpl. fold (caller_joins w4).
        rewrite Hj4, Hj3. unfold caller_joins. simpl.
        unfold w1. by rewrite run_actions_by_caller.
Qed.

(** ** What [StartThreads] leaves alone *)

Lemma stable_length this w w' : stable this w w' → length (threads w') = length (threads w).
Proof.
  intros Hs. pose proof (s_args _ _ _ Hs) as Ha.
  destruct (Nat.lt_trichotomy (length (threads w')) (length (threads w))) as [H|[H|H]];
    [|done|].
  - specialize (Ha (length (threads w'))).
    rewrite (lookup_ge_None_2 (threads w')) in Ha by lia.
    destruct (lookup_lt_is_Some_2 (threads w) _ H) as [th Hth]. by rewrite Hth in Ha.
  - specialize (Ha (length (threads w))).
    rewrite (lookup_ge_None_2 (threads w)) in Ha by lia.
    destruct (lookup_lt_is_Some_2 (threads w') _ H) as [th Hth]. by rewrite Hth in Ha.
Qed.

Lemma stable_grows this w w' : stable this w w' → grows this w w'.
Proof.
  intros Hs. pose proof (stable_length _ _ _ Hs) as Hlen.
  destruct Hs as [He Hh Hl Ha Hd]. split; auto.
  - unfold env, genv in *. congruence.
  - intros t th Hth. pose proof (Ha t) as Hat. rewrite Hth in Hat.
    destruct (threads w' !! t) as [th'|] eqn:Hth'; simplify_eq/=.
    exists th'. split_and!; [done..|]. intros Hlv.
    destruct (Hd _ _ Hth Hlv) as (th2 & ? & ?). by simplify_eq.
  - intros t th' Hth' Hge. apply lookup_lt_Some in Hth'. lia.
Qed.

Lemma grows_refl this w : grows this w w.
Proof. apply stable_grows, stable_refl. Qed.

Lemma grows_length this w w' : grows this w w' → length (threads w) ≤ length (threads w').
Proof.
  intros Hg. destruct (decide (length (threads w) = 0)) as [|Hne]; [lia|].
  destruct (lookup_lt_is_Some_2 (threads w) (pred (length (threads w)))) as [th Hth]; [lia|].
  destruct (g_old _ _ _ Hg _ _ Hth) as (th' & Hth' & _).
  apply lookup_lt_Some in Hth'. lia.
Qed.

Lemma grows_trans this w1 w2 w3 :
  grows this w1 w2 → grows this w2 w3 → grows this w1 w3.
Proof.
  intros G1 G2. pose proof (grows_length _ _ _ G1) as Hlen.
  destruct G1 as [E1 H1 L1 O1 N1], G2 as [E2 H2 L2 O2 N2]. split.
  - congruence.
  - intros a Hne. by rewrite H2, H1.
  - congruence.
  - intros t th Hth. destruct (O1 _ _ Hth) as (th2 & Hth2 & Ha2 & Hl2).
    destruct (O2 _ _ Hth2) as (th3 & Hth3 & Ha3 & Hl3).
    exists th3. split_and!; [done|congruence|auto].
  - intros t th3 Hth3 Hge.
    destruct (threads w2 !! t) as [th2|] eqn:Hth2.
    + destruct (O2 _ _ Hth2) as (th3' & Hth3' & Ha3 & _). simplify_eq.
      rewrite Ha3. by eapply N1.
    + apply lookup_ge_None in Hth2. by eapply N2.
Qed.

Lemma grows_thread_rev this w w' t th' :
  grows this w w' → threads w' !! t = Some th' → t < length (threads w) →
  ∃ th, threads w !! t = Some th ∧ t_arg th' = t_arg th ∧
        (live th' = true → live th = true).
Proof.
  intros Hg Hth' Hlt. destruct (lookup_lt_is_Some_2 _ _ Hlt) as [th Hth].
  destruct (g_old _ _ _ Hg _ _ Hth) as (th2 & Hth2 & Ha & Hl). simplify_eq.
  exists th. split_and!; [done..|]. intros Hlv. destruct (live th); [done|].
  rewrite Hl in Hlv; done.
Qed.

(** ** StartThreads *)

Lemma wp_create_loop this n E s w o :
  heap w !! this = Some o → tracked this w → owned this w →
  wp (create_loop this n) E
    (λ b _ w', grows this w w' ∧ tracked this w' ∧ owned this w' ∧
       ∃ o', heap w' !! this = Some o' ∧
         (Forall (λ rc, rc = 0%Z) (take n (create_tape w)) → b = true) ∧
         (b = true →
            thread_list o' = thread_list o ++ seq (length (threads w)) n ∧
            is_exit o' = is_exit o ∧
            length (threads w') = length (threads w) + n ∧
            Forall (λ rc, rc = 0%Z) (take n (create_tape w))) ∧
         (b = false → thread_list o' = [] ∧ all_returned this w')) s w.
Proof.
  revert s w o. induction n as [|n IH]; intros s w o Ho Htr Hown; simpl.
  - apply wp_ret. split_and!; [apply grows_refl|done|done|].
    exists o. split_and!; [done|done| |done]. intros _. rewrite app_nil_r.
    split_and!; [done|done|lia|constructor].
  - apply wp_bind, wp_yield. intros c _.
    set (w1 := run_actions c w).
    pose proof (run_actions_quiet c w : quiet w w1) as Hq1.
    destruct (quiet_obj _ _ _ _ Hq1 Ho) as (o1 & Ho1 & Hex1 & Hl1 & Hli1).
    pose proof (quiet_tracked _ _ _ Hq1 Htr) as Htr1.
    pose proof (quiet_owned _ _ _ Hq1 Hown) as Hown1.
    pose proof (stable_length this _ _ (quiet_stable this _ _ Hq1)) as Hlen1.
    assert (create_tape w1 = create_tape w) as Htape.
    { pose proof (q_env _ _ Hq1) as He. unfold env in He. congruence. }
    apply wp_bind. unfold wp at 1, pthread_create. rewrite Htape.
    destruct (bool_decide (default 0%Z (head (create_tape w)) = 0%Z)) eqn:Hrc; simpl.
    + (* the thread was created *)
      apply bool_decide_eq_true in Hrc.
      set (t0 := length (threads w1)).
      set (w2 := emit Caller (E_create t0)
                   (set_threads (threads w1 ++ [mk_thread (Some this) W_start])
                      (set_create_tape (tail (create_tape w)) w1))).
      apply wp_bind. eapply (wp_modify_obj _ _ o1); [done|].
      set (o3 := set_thread_list (push_back t0 (thread_list o1)) o1).
      set (w3 := put_obj this o3 w2).
      assert (heap w3 !! this = Some o3) as Ho3.
      { unfold w3. simpl. by rewrite lookup_insert_eq. }
      assert (grows this w1 w3) as Hg3.
      { split; simpl.
        - done.
        - intros a Hne. by rewrite lookup_insert_ne.
        - by rewrite lookup_insert_eq, Ho1.
        - intros t th Hth. exists th. split_and!; [|done|done].
          by rewrite lookup_app_l by (by eapply lookup_lt_Some).
        - intros t th' Hth' Hge. rewrite lookup_app_r in Hth' by done.
          destruct (t - length (threads w1)); simplify_eq/=; done. }
      assert (tracked this w3) as Htr3.
      { intros t th Hth Ha Hl. exists o3. split; [done|]. simpl in Hth |- *.
        unfold push_back. apply elem_of_app.
        destruct (decide (t < length (threads w1))) as [Hlt|Hge].
        - rewrite lookup_app_l in Hth by done.
          destruct (Htr1 t th Hth Ha Hl) as (o' & Ho' & Hin). simplify_eq. by left.
        - right. rewrite lookup_app_r in Hth by lia.
          destruct (t - length (threads w1)) eqn:Hd; simplify_eq/=.
          apply list_elem_of_singleton. unfold t0. lia. }
      assert (owned this w3) as Hown3.
      { intros o' t th Ho' Hin Hth. simplify_eq. simpl in Hin, Hth.
        unfold push_back in Hin.
        destruct (decide (t < length (threads w1))) as [Hlt|Hge].
        - rewrite lookup_app_l in Hth by done.
          apply elem_of_app in Hin as [Hin|Hin]; [by eapply Hown1|].
          apply list_elem_of_singleton in Hin. unfold t0 in Hin. lia.
        - rewrite lookup_app_r in Hth by lia.
          destruct (t - length (threads w1)); simplify_eq/=; done. }
      eapply wp_mono; [by apply (IH _ w3 o3)|done|].
      intros b s' w' (Hg & Htr' & Hown' & o' & Ho' & Hgood & Hok & Hfail).
      split_and!; [|done|done|].
      * eapply grows_trans; [apply stable_grows, quiet_stable, Hq1|].
        by eapply grows_trans.
      * exists o'. split_and!; [done| | |done].
        -- intros Hall. apply Hgood. simpl.
           destruct (create_tape w) as [|rc tape]; simpl in *.
           ++ rewrite take_nil. constructor.
           ++ by apply Forall_cons in Hall as [_ ?].
        -- intros Hb. destruct (Hok Hb) as (Hlist & Hexit & Hlen' & Htape').
           split_and!.
           ++ rewrite Hlist. simpl. unfold push_back. rewrite length_app. simpl.
              rewrite Hl1, <- app_assoc. simpl. unfold t0.
              rewrite Hlen1. do 3 f_equal. lia.
           ++ by rewrite Hexit.
           ++ rewrite Hlen'. simpl. rewrite length_app. simpl. lia.
           ++ simpl in Htape'. destruct (create_tape w) as [|rc tape]; simpl in *;
                [constructor|]. by constructor.
    + (* pthread_create failed *)
      fold (wp (A := bool)). rewrite Hrc.
      apply bool_decide_eq_false in Hrc.
      set (w2 := set_create_tape (tail (create_tape w)) w1).
      apply wp_bind, wp_log.
      set (w3 := emit Caller (E_log ERR "failed pthread_create with return code(%d)") w2).
      assert (grows this w1 w3) as Hg3.
      { split; simpl; eauto. intros t th' Hth' Hge. apply lookup_lt_Some in Hth'. lia. }
      apply wp_bind.
      eapply wp_mono; [apply (StopThreads_spec this E _ w3 o1); done|done|].
      intros b s4 w4 (-> & Hs4 & Hret & o4 & Ho4 & Hl4 & _). simpl.
      apply wp_ret. split_and!.
      * eapply grows_trans; [apply stable_grows, quiet_stable, Hq1|].
        eapply grows_trans; [done|by apply stable_grows].
      * intros t th Hth Ha Hl. by rewrite (Hret t th Hth Ha) in Hl.
      * intros o' t th Ho' Hin. simplify_eq. rewrite Hl4 in Hin.
        by apply elem_of_nil in Hin.
      * exists o4. split_and!; [done| |done|done].
        intros Hall. destruct (create_tape w) as [|rc tape]; simpl in *; [done|].
        by apply Forall_cons in Hall as [? _].
Qed.

Lemma StartThreads_spec this count E s w o :
  heap w !! this = Some o → tracked this w → owned this w → (1 ≤ count)%Z →
  wp (StartThreads this count) E
    (λ b _ w', grows this w w' ∧ tracked this w' ∧ owned this w' ∧
       (∀ t th, threads w !! t = Some th → t_arg th = Some this →
          ∃ th', threads w' !! t = Some th' ∧ live th' = false) ∧
       ∃ o', heap w' !! this = Some o' ∧
         (Forall (λ rc, rc = 0%Z) (take (Z.to_nat count) (create_tape w)) → b = true) ∧
         (b = true →
            thread_list o' = seq (length (threads w)) (Z.to_nat count) ∧
            is_exit o' = false ∧
            length (threads w') = length (threads w) + Z.to_nat count ∧
            Forall (λ rc, rc = 0%Z) (take (Z.to_nat count) (create_tape w))) ∧
         (b = false → thread_list o' = [] ∧ all_returned this w')) s w.
Proof.
  intros Ho Htr Hown Hcount. unfold StartThreads.
  rewrite bool_decide_eq_false_2 by lia.
  apply wp_bind. eapply wp_mono; [by apply (StopThreads_spec this E s w o)|done|].
  intros b s1 w1 (-> & Hs1 & Hret1 & o1 & Ho1 & Hl1 & _). simpl.
  apply wp_bind, wp_yield. intros c _.
  set (w2 := run_actions c w1).
  pose proof (run_actions_quiet c w1 : quiet w1 w2) as Hq2.
  destruct (quiet_obj _ _ _ _ Hq2 Ho1) as (o2 & Ho2 & Hex2 & Hl2 & Hli2).
  apply wp_bind. eapply wp_modify_obj; [done|].
  set (o3 := set_is_exit false o2).
  set (w3 := put_obj this o3 w2).
  assert (stable this w w3) as Hs3.
  { eapply stable_trans; [done|]. eapply stable_trans; [by apply quiet_stable|].
    apply (put_obj_stable this o2 o3 w2 Ho2 eq_refl). }
  assert (all_returned this w3) as Hret3.
  { intros t th3 Hth3 Ha. destruct (live th3) eqn:Hl; [|done].
    destruct (quiet_thread_rev _ _ _ _ Hq2 Hth3) as (th1 & Hth1 & Ha1 & Hlv1).
    rewrite (Hret1 t th1 Hth1) in Hlv1; [by discriminate Hlv1|congruence]. }
  assert (heap w3 !! this = Some o3) as Ho3.
  { unfold w3. simpl. by rewrite lookup_insert_eq. }
  assert (tracked this w3) as Htr3.
  { intros t th Hth Ha Hl. by rewrite (Hret3 t th Hth Ha) in Hl. }
  assert (owned this w3) as Hown3.
  { intros o' t th Ho' Hin. simplify_eq. simpl in Hin. rewrite Hl2, Hl1 in Hin.
    by apply elem_of_nil in Hin. }
  assert (create_tape w3 = create_tape w ∧ length (threads w3) = length (threads w))
    as [Htape Hlen].
  { split; [|by eapply stable_length].
    pose proof (s_env _ _ _ Hs3) as He. unfold env in He. congruence. }
  eapply wp_mono; [by apply (wp_create_loop this _ E _ w3 o3)|done|].
  intros b s' w' (Hg & Htr' & Hown' & o' & Ho' & Hgood & Hok & Hfail).
  split_and!; [|done|done| |].
  - eapply grows_trans; [by apply stable_grows|done].
  - intros t th Hth Ha.
    pose proof (s_args _ _ _ Hs3 t) as Hat.
    rewrite Hth in Hat. destruct (threads w3 !! t) as [th3|] eqn:Hth3; simplify_eq/=.
    destruct (g_old _ _ _ Hg _ _ Hth3) as (th' & Hth' & _ & Hdead).
    exists th'. split; [done|]. apply Hdead, (Hret3 t th3 Hth3). congruence.
  - exists o'. split_and!; [done| | |done].
    + by rewrite <- Htape.
    + intros Hb. destruct (Hok Hb) as (Hlist & Hexit & Hlen' & Htape').
      split_and!; [|done|congruence|congruence].
      rewrite Hlist, Hlen. simpl. by rewrite Hl2, Hl1.
Qed.

(** ** The singleton *)

Lemma idle_world_ok w : idle w → world_ok w.
Proof.
  intros (Hs & Hh & Ht). split_and!.
  - intros a Ha. congruence.
  - intros t th Hth Hl. rewrite (Ht t th Hth) in Hl. done.
  - intros a [o Ho]. by rewrite Hh in Ho.
Qed.

Lemma world_ok_idle w : world_ok w → singleton w = None → idle w.
Proof.
  intros (H1 & H2 & H3) Hs. split_and!; [done| |].
  - intros a. destruct (heap w !! a) as [o|] eqn:Ho; [|done].
    specialize (H3 a (ex_intro _ o Ho)). congruence.
  - intros t th Hth. destruct (live th) eqn:Hl; [|done].
    destruct (H2 t th Hth Hl) as (a & Ha & _). congruence.
Qed.

Lemma wp_delete p E s w :
  world_ok w → singleton w = Some p →
  (mutex_destroy_rc w ≠ 0%Z → ∀ w', E w') →
  wp (delete_ThreadPoolMan p) E
    (λ _ _ w', singleton w' = singleton w ∧ (∀ a, heap w' !! a = None) ∧
       (∀ t th, threads w' !! t = Some th → live th = false) ∧
       retired w w' ∧ length (threads w') = length (threads w) ∧
       env w' = env w) s w.
Proof.
  intros (H1 & H2 & H3) Hs HE. destruct (H1 p Hs) as ([o Ho] & Htr & Hown).
  unfold delete_ThreadPoolMan.
  apply wp_bind. eapply wp_mono; [by apply (StopThreads_spec p E s w o)|done|].
  intros b s1 w1 (-> & Hs1 & Hret1 & o1 & Ho1 & Hl1 & _). simpl.
  apply wp_bind. eapply wp_get_obj; [done|].
  pose proof (s_env _ _ _ Hs1) as He1.
  assert (∀ t th, threads w1 !! t = Some th → live th = false) as Hdead1.
  { intros t th1 Hth1. destruct (live th1) eqn:Hl; [|done].
    destruct (stable_thread_rev _ _ _ _ _ Hs1 Hth1) as (th & Hth & Ha & Hlv).
    destruct (H2 t th Hth (Hlv Hl)) as (a & Hsa & Hta).
    rewrite (Hret1 t th1 Hth1) in Hl; [done|congruence]. }
  assert (∀ a, a ≠ p → heap w1 !! a = None) as Hnone1.
  { intros a Hne. pose proof (s_heap _ _ _ Hs1 a Hne) as Hf.
    destruct (heap w !! a) as [oa|] eqn:Hoa.
    - specialize (H3 a (ex_intro _ oa Hoa)). congruence.
    - by destruct (heap w1 !! a). }
  assert (retired w w1) as Hret.
  { intros t th Hth. pose proof (s_args _ _ _ Hs1 t) as Hat. rewrite Hth in Hat.
    destruct (threads w1 !! t) as [th1|] eqn:Hth1; simplify_eq/=.
    exists th1. split_and!; [done..|]. by eapply Hdead1. }
  assert (∀ w2, heap w2 !! p = Some (set_is_lock_init false o1) ∨ heap w2 !! p = Some o1 →
    threads w2 = threads w1 → env w2 = env w1 →
    (∀ a, a ≠ p → heap w2 !! a = None) →
    wp (modify (λ w, set_heap (delete p (heap w)) w)) E
      (λ _ _ w', singleton w' = singleton w ∧ (∀ a, heap w' !! a = None) ∧
         (∀ t th, threads w' !! t = Some th → live th = false) ∧
         retired w w' ∧ length (threads w') = length (threads w) ∧
         env w' = env w) (s1) w2) as Hfin.
  { intros w2 _ Ht2 He2 Hn2. apply wp_modify. simpl.
    split_and!.
    - unfold env in *. congruence.
    - intros a. destruct (decide (a = p)) as [->|Hne].
      + apply lookup_delete_eq.
      + rewrite lookup_delete_ne by done. by apply Hn2.
    - intros t th. rewrite Ht2. apply Hdead1.
    - intros t th Hth. simpl. rewrite Ht2. by apply Hret.
    - rewrite Ht2. by eapply stable_length.
    - unfold env in *. simpl. congruence. }
  destruct (is_lock_init o1) eqn:Hlock.
  - apply wp_bind, wp_bind, wp_get_world.
    destruct (bool_decide (mutex_destroy_rc w1 ≠ 0%Z)) eqn:Hrc.
    + apply bool_decide_eq_true in Hrc. apply wp_bind, wp_log, wp_abort, HE.
      unfold env in He1. congruence.
    + eapply wp_modify_obj; [done|]. apply Hfin; simpl; try done.
      * left. by rewrite lookup_insert_eq.
      * intros a Hne. rewrite lookup_insert_ne by done. by apply Hnone1.
  - apply wp_bind, wp_ret. apply Hfin; auto.
Qed.

Lemma idle_retired w : idle w → retired w w.
Proof. intros (_ & _ & Hd) t th Hth. exists th. eauto. Qed.

Lemma wp_Destroy E s w :
  world_ok w →
  (singleton w ≠ None → mutex_destroy_rc w ≠ 0%Z → ∀ w', E w') →
  wp Destroy E
    (λ _ _ w', idle w' ∧ retired w w' ∧ length (threads w') = length (threads w) ∧
       next_addr w' = next_addr w ∧ create_tape w' = create_tape w ∧
       mutex_init_rc w' = mutex_init_rc w ∧
       mutex_destroy_rc w' = mutex_destroy_rc w) s w.
Proof.
  intros Hok HE. unfold Destroy. apply wp_bind, wp_get_world.
  destruct (singleton w) as [p|] eqn:Hs.
  - apply wp_bind. eapply wp_mono; [apply (wp_delete p E s w Hok Hs); auto|done|].
    intros _ s1 w1 (Hs1 & Hh1 & Hd1 & Hr1 & Hlen1 & He1). apply wp_modify. simpl.
    unfold env in He1. split_and!; [split_and!| | | | | | ]; try done; congruence.
  - apply wp_ret. pose proof (world_ok_idle w Hok Hs) as Hidle.
    split_and!; [done|by apply idle_retired|done..].
Qed.

(** The first statement of [Initialize]. *)
Lemma wp_recreate E s w :
  world_ok w →
  (singleton w ≠ None → mutex_destroy_rc w ≠ 0%Z → ∀ w', E w') →
  wp (if bool_decide (singleton w ≠ None) then
        log WARN "Already singleton for Thread Manager is existed, then re-create it.";;
        Destroy
      else mret ()) E
    (λ _ _ w', idle w' ∧ retired w w' ∧ length (threads w') = length (threads w) ∧
       next_addr w' = next_addr w ∧ create_tape w' = create_tape w ∧
       mutex_init_rc w' = mutex_init_rc w ∧
       mutex_destroy_rc w' = mutex_destroy_rc w) s w.
Proof.
  intros Hok HE. destruct (bool_decide (singleton w ≠ None)) eqn:Hs.
  - apply wp_bind, wp_log.
    eapply wp_mono; [apply wp_Destroy; [exact Hok|exact HE]|done|].
    intros u s' w' H. exact H.
  - apply bool_decide_eq_false in Hs. apply wp_ret.
    assert (singleton w = None) as Hn by (by destruct (singleton w); [destruct Hs|]).
    pose proof (world_ok_idle w Hok Hn) as Hidle.
    split_and!; [done|by apply idle_retired|done..].
Qed.

Lemma wp_new count E s w :
  idle w → (1 ≤ count)%Z →
  (mutex_init_rc w ≠ 0%Z ∨
   ¬ Forall (λ rc, rc = 0%Z) (take (Z.to_nat count) (create_tape w)) → ∀ w', E w') →
  wp (new_ThreadPoolMan count) E
    (λ this _ w', this = next_addr w ∧ singleton w' = None ∧ pool_ok this w' ∧
       (∀ a, is_Some (heap w' !! a) → a = this) ∧
       (∀ t th, threads w' !! t = Some th → live th = true → t_arg th = Some this) ∧
       retired w w' ∧
       mutex_init_rc w = 0%Z ∧
       Forall (λ rc, rc = 0%Z) (take (Z.to_nat count) (create_tape w)) ∧
       length (threads w') = length (threads w) + Z.to_nat count ∧
       ∃ o', heap w' !! this = Some o' ∧
         thread_list o' = seq (length (threads w)) (Z.to_nat count) ∧
         is_exit o' = false ∧ is_lock_init o' = true) s w.
Proof.
  intros (Hs & Hh & Hd) Hcount HE. unfold new_ThreadPoolMan.
  apply wp_bind, wp_get_world, wp_bind, wp_modify.
  set (this := next_addr w).
  set (w1 := set_next_addr (S this) (put_obj this (mk_pool false 0 false [] []) w)).
  rewrite bool_decide_eq_false_2 by lia.
  apply wp_bind, wp_get_world. simpl.
  rewrite (bool_decide_eq_false_2 (singleton w ≠ None)) by (by rewrite Hs; intros []).
  destruct (bool_decide (mutex_init_rc w ≠ 0%Z)) eqn:Hrc.
  { apply bool_decide_eq_true in Hrc. apply wp_bind, wp_log, wp_abort, HE. by left. }
  apply bool_decide_eq_false in Hrc.
  assert (heap w1 !! this = Some (mk_pool false 0 false [] [])) as Ho1.
  { unfold w1. simpl. by rewrite lookup_insert_eq. }
  apply wp_bind. eapply wp_modify_obj; [done|].
  set (o2 := set_is_lock_init true (mk_pool false 0 false [] [])).
  set (w2 := put_obj this o2 w1).
  assert (heap w2 !! this = Some o2) as Ho2.
  { unfold w2. simpl. by rewrite lookup_insert_eq. }
  assert (∀ a, a ≠ this → heap w2 !! a = None) as Hn2.
  { intros a Hne. unfold w2. simpl. by rewrite !lookup_insert_ne. }
  assert (tracked this w2) as Htr2.
  { intros t th Hth Ha Hl. by rewrite (Hd t th Hth) in Hl. }
  assert (owned this w2) as Hown2.
  { intros o' t th Ho' Hin. simplify_eq. by apply elem_of_nil in Hin. }
  apply wp_bind.
  eapply wp_mono; [by apply (StartThreads_spec this count E s w2 o2)|done|].
  intros b s3 w3 (Hg & Htr3 & Hown3 & _ & o3 & Ho3 & Hgood & Hok & _). simpl.
  destruct b; simpl.
  - apply wp_ret. destruct (Hok eq_refl) as (Hlist & Hexit & Hlen & Htape).
    pose proof (g_env _ _ _ Hg) as He. unfold genv in He. simpl in He.
    split_and!.
    + done.
    + congruence.
    + by split_and!.
    + intros a [oa Hoa]. destruct (decide (a = this)) as [|Hne]; [done|].
      pose proof (g_heap _ _ _ Hg a Hne) as Hf. rewrite Hoa, Hn2 in Hf by done. done.
    + intros t th Hth Hl.
      destruct (decide (t < length (threads w2))) as [Hlt|Hge].
      * destruct (grows_thread_rev _ _ _ _ _ Hg Hth Hlt) as (th2 & Hth2 & _ & Hlv).
        rewrite (Hd t th2 Hth2) in Hlv. by discriminate Hlv.
      * eapply (g_new _ _ _ Hg); [done|lia].
    + intros t th Hth. destruct (g_old _ _ _ Hg t th Hth) as (th' & Hth' & Ha & Hl).
      exists th'. split_and!; [done..|]. by eapply Hl, Hd.
    + by destruct (decide (mutex_init_rc w = 0%Z)).
    + done.
    + done.
    + exists o3. split_and!; [done..|].
      pose proof (g_lock _ _ _ Hg) as Hlk. rewrite Ho3, Ho2 in Hlk. by simplify_eq/=.
  - apply wp_bind, wp_log, wp_abort, HE. right. intros Hall.
    by specialize (Hgood Hall).
Qed.

Lemma wp_Initialize count E s w :
  world_ok w → (1 ≤ count)%Z →
  ((singleton w ≠ None ∧ mutex_destroy_rc w ≠ 0%Z) ∨ mutex_init_rc w ≠ 0%Z ∨
   ¬ Forall (λ rc, rc = 0%Z) (take (Z.to_nat count) (create_tape w)) → ∀ w', E w') →
  wp (Initialize count) E
    (λ b _ w', b = true ∧ world_ok w' ∧ retired w w' ∧
       mutex_init_rc w = 0%Z ∧
       Forall (λ rc, rc = 0%Z) (take (Z.to_nat count) (create_tape w)) ∧
       length (threads w') = length (threads w) + Z.to_nat count ∧
       ∃ p o', singleton w' = Some p ∧ heap w' !! p = Some o' ∧
         thread_list o' = seq (length (threads w)) (Z.to_nat count) ∧
         is_exit o' = false) s w.
Proof.
  intros Hok Hcount HE. unfold Initialize.
  apply wp_bind, wp_get_world, wp_bind.
  eapply wp_mono; [apply (wp_recreate E s w Hok); auto|done|].
  intros _ s1 w1 (Hidle & Hret1 & Hlen1 & Hna1 & Htape1 & Hrc1 & Hrd1). simpl.
  apply wp_bind. eapply wp_mono; [apply (wp_new count E s1 w1 Hidle Hcount)|done|].
  { rewrite Hrc1, Htape1. intros [?|?]; apply HE; auto. }
  intros p s2 w2 (-> & Hs2 & Hpool & Honly & Hlive & Hret2 & Hrc2 & Htape2 & Hlen2 &
                  o2 & Ho2 & Hl2 & Hex2 & _).
  simpl. apply wp_bind, wp_modify, wp_ret.
  split_and!; [done| | |congruence|congruence|simpl; congruence|].
  - split_and!; simpl.
    + intros a [= <-]. done.
    + intros t th Hth Hl. exists (next_addr w1). split; [done|]. by eapply Hlive.
    + intros a Ha. f_equal. symmetry. by apply Honly.
  - intros t th Hth. destruct (Hret1 t th Hth) as (th1 & Hth1 & Ha1 & _).
    destruct (Hret2 t th1 Hth1) as (th2 & Hth2 & Ha2 & Hl2').
    exists th2. split_and!; [done|congruence|done].
  - exists (next_addr w1), o2. simpl. split_and!; [done..| |done]. by rewrite Hl2, Hlen1.
Qed.

Lemma Initialize_aborts count s w :
  world_ok w → (count < 1)%Z →
  wp (Initialize count) (λ _, True) (λ _ _ _, False) s w.
Proof.
  intros Hok Hcount. unfold Initialize.
  apply wp_bind, wp_get_world, wp_bind.
  eapply wp_mono; [apply (wp_recreate (λ _, True) s w Hok); auto|done|].
  intros _ s1 w1 _. simpl. apply wp_bind.
  unfold new_ThreadPoolMan.
  apply wp_bind, wp_get_world, wp_bind, wp_modify.
  rewrite bool_decide_eq_true_2 by lia. by apply wp_bind, wp_log, wp_abort.
Qed.

(** ** The queue ledger *)

Lemma ledger_refl a P w : ledger a [] P w w.
Proof. exists []. by rewrite !app_nil_r. Qed.

Lemma ledger_trans a m1 m2 P w1 w2 w3 :
  ledger a m1 P w1 w2 → ledger a m2 P w2 w3 → ledger a (m1 ++ m2) P w1 w3.
Proof.
  intros (e1 & T1 & Q1 & C1 & R1) (e2 & T2 & Q2 & C2 & R2).
  exists (e1 ++ e2). unfold pushes, pops, caller_events in *.
  rewrite fmap_app, !omap_app. split_and!.
  - by rewrite T2, T1, app_assoc.
  - rewrite app_assoc, Q1, <- app_assoc, Q2, app_assoc. done.
  - by rewrite C1, C2.
  - intros HP. by rewrite R1, R2.
Qed.

Lemma ledger_weaken a m (P P' : Prop) w w' :
  (P' → P) → ledger a m P w w' → ledger a m P' w w'.
Proof. intros HP (e & ? & ? & ? & ?). exists e. split_and!; auto. Qed.

Lemma ledger_step a m P w1 w2 w3 :
  ledger a [] P w1 w2 → ledger a m P w2 w3 → ledger a m P w1 w3.
Proof. intros H1 H2. by apply (ledger_trans a [] m P w1 w2 w3). Qed.

Lemma queue_of_put a b o w :
  queue_of a (put_obj b o w) =
  if bool_decide (b = a) then instruction_list o else queue_of a w.
Proof.
  unfold queue_of. simpl. case_bool_decide as Hb.
  - subst. by rewrite lookup_insert_eq.
  - by rewrite lookup_insert_ne.
Qed.

Lemma queue_of_emit a who e w : queue_of a (emit who e w) = queue_of a w.
Proof. done. Qed.

Lemma ledger_same a P w w' :
  trace w' = trace w → queue_of a w' = queue_of a w → ledger a [] P w w'.
Proof. intros Ht Hq. exists []. rewrite Ht, Hq, !app_nil_r. done. Qed.

Lemma ledger_emit a P who e w :
  who ≠ Caller →
  match e with E_push _ _ | E_pop _ _ => False | _ => True end →
  ledger a [] P w (emit who e w).
Proof.
  intros Hw He. exists [(who, e)]. unfold pushes, pops, caller_events, queue_of. simpl.
  destruct e; try done; destruct who; simpl; by rewrite ?app_nil_r.
Qed.

Lemma ledger_log a P lv msg w :
  ledger a [E_log lv msg] P w (emit Caller (E_log lv msg) w).
Proof.
  exists [(Caller, E_log lv msg)]. unfold pushes, pops, caller_events, queue_of. simpl.
  by rewrite ?app_nil_r.
Qed.

(** A worker step pushes nothing, and pops the front of the queue when it
    pops. *)
Lemma worker_step_ledger a P t w w' :
  worker_step t w = Some w' → ledger a [] P w w'.
Proof.
  intros (th & pc' & w1 & Hth & Hb & ->)%worker_step_unfold.
  assert (∀ w1, ledger a [] P w w1 → ledger a [] P w (set_pc t th pc' w1)) as Hset
    by done.
  apply Hset. clear Hset.
  worker_cases Hb.
  all: try apply ledger_refl.
  all: try (by apply ledger_emit).
  all: try (eapply ledger_step; [|by apply ledger_emit]; by apply ledger_emit).
  all: try (eapply ledger_step; [|by apply ledger_emit]; apply ledger_same; done).
  - apply ledger_same; [done|]. rewrite queue_of_put. case_bool_decide; [|done].
    subst. unfold queue_of. by rewrite Ho.
  - match goal with
    | |- ledger _ _ _ _ (emit ?who ?e _) => exists [(who, e)]
    end.
    split_and!; [done| |done|done].
    rewrite queue_of_emit, queue_of_put. unfold pushes, pops. simpl.
    case_bool_decide as Hab; simpl.
    + subst. unfold queue_of. rewrite Ho. simpl. by rewrite Hq, app_nil_r.
    + by rewrite app_nil_r.
Qed.

Lemma push_instruction_ledger a P b p w w' :
  push_instruction Racer b p w = Some w' → (P → False) → ledger a [] P w w'.
Proof.
  unfold push_instruction. intros H HP.
  destruct (heap w !! b) as [o|] eqn:Ho; simplify_eq/=.
  exists [(Racer, E_push b p)]. split_and!; [done| |done|done].
  rewrite queue_of_emit, queue_of_put. unfold pushes, pops. simpl.
  case_bool_decide; simpl; [|by rewrite !app_nil_r].
  subst. unfold queue_of, push_back. by rewrite Ho.
Qed.

Lemma push_instruction_caller_ledger a P p w w' :
  push_instruction Caller a p w = Some w' → ledger a [E_push a p] P w w'.
Proof.
  unfold push_instruction. intros H.
  destruct (heap w !! a) as [o|] eqn:Ho; simplify_eq/=.
  exists [(Caller, E_push a p)]. rewrite queue_of_emit, queue_of_put.
  unfold pushes, pops, caller_events. simpl.
  rewrite !bool_decide_eq_true_2 by done.
  split_and!; [done| |done|done].
  unfold queue_of, push_back. by rewrite Ho.
Qed.

Lemma post_wakeup_ledger a P b w w' :
  post_wakeup Racer b w = Some w' → ledger a [] P w w'.
Proof.
  unfold post_wakeup. intros H.
  destruct (heap w !! b) as [o|] eqn:Ho; simplify_eq/=.
  eapply ledger_step; [|by apply ledger_emit].
  apply ledger_same; [done|]. rewrite queue_of_put. case_bool_decide; [|done].
  subst. unfold queue_of. by rewrite Ho.
Qed.

Lemma post_wakeup_caller_ledger a P w w' :
  post_wakeup Caller a w = Some w' → ledger a [E_post a] P w w'.
Proof.
  unfold post_wakeup. intros H.
  destruct (heap w !! a) as [o|] eqn:Ho; simplify_eq/=.
  exists [(Caller, E_post a)]. rewrite queue_of_emit, queue_of_put.
  unfold pushes, pops, caller_events. simpl.
  rewrite !bool_decide_eq_true_2 by done.
  split_and!; [done| |done|done].
  unfold queue_of. by rewrite Ho, app_nil_r.
Qed.

Lemma apply_action_ledger a P act w :
  (P → no_push act = true) → ledger a [] P w (apply_action act w).
Proof.
  intros HP. destruct act as [t|b p|b]; simpl.
  - destruct (worker_step t w) eqn:H; simpl;
      [by eapply worker_step_ledger|apply ledger_refl].
  - destruct (push_instruction Racer b p w) eqn:H; simpl; [|apply ledger_refl].
    eapply push_instruction_ledger; [done|]. intros HP'. by specialize (HP HP').
  - destruct (post_wakeup Racer b w) eqn:H; simpl;
      [by eapply post_wakeup_ledger|apply ledger_refl].
Qed.

Lemma run_actions_ledger a P acts w :
  (P → forallb no_push acts = true) → ledger a [] P w (run_actions acts w).
Proof.
  revert w. induction acts as [|act acts IH]; intros w HP; simpl.
  - apply ledger_refl.
  - eapply ledger_step.
    + apply apply_action_ledger. intros HP'. specialize (HP HP'). simpl in HP.
      by apply andb_true_iff in HP as [? _].
    + apply IH. intros HP'. specialize (HP HP'). simpl in HP.
      by apply andb_true_iff in HP as [_ ?].
Qed.

Lemma no_racing_push_head s :
  no_racing_push s = true → forallb no_push (default [] (head s)) = true.
Proof.
  destruct s as [|c s]; simpl; [done|]. by intros [? _]%andb_true_iff.
Qed.

Lemma no_racing_push_tail s :
  no_racing_push s = true → no_racing_push (tail s) = true.
Proof.
  destruct s as [|c s]; simpl; [done|]. by intros [_ ?]%andb_true_iff.
Qed.

(** ** Instruct *)

Lemma wp_SetInstruction a param E s w o :
  heap w !! a = Some o →
  wp (SetInstruction a param) E
    (λ _ s' w', s' = tail (tail s) ∧ quiet w w' ∧
       ledger a [E_push a param; E_post a] (no_racing_push s = true) w w') s w.
Proof.
  intros Ho. unfold SetInstruction.
  apply wp_bind, wp_yield. intros c1 Hc1.
  set (w1 := run_actions c1 w).
  pose proof (run_actions_quiet c1 w : quiet w w1) as Hq1.
  destruct (quiet_obj _ _ _ _ Hq1 Ho) as (o1 & Ho1 & _).
  destruct (push_instruction Caller a param w1) as [w2|] eqn:Hpush;
    [|by unfold push_instruction in Hpush; rewrite Ho1 in Hpush].
  apply wp_bind. eapply wp_try_modify; [done|].
  pose proof (push_instruction_quiet _ _ _ _ _ Hpush) as Hq2.
  apply wp_bind, wp_yield. intros c2 Hc2.
  set (w3 := run_actions c2 w2).
  pose proof (run_actions_quiet c2 w2 : quiet w2 w3) as Hq3.
  destruct (quiet_obj _ _ _ _ (quiet_trans _ _ _ Hq2 Hq3) Ho1) as (o3 & Ho3 & _).
  destruct (post_wakeup Caller a w3) as [w4|] eqn:Hpost;
    [|by unfold post_wakeup in Hpost; rewrite Ho3 in Hpost].
  eapply wp_try_modify; [done|].
  pose proof (post_wakeup_quiet _ _ _ _ Hpost) as Hq4.
  split_and!; [done| |].
  - eapply quiet_trans; [exact Hq1|]. eapply quiet_trans; [exact Hq2|].
    by eapply quiet_trans.
  - eapply ledger_step.
    { apply (run_actions_ledger a _ c1 w). intros HP. rewrite Hc1.
      by apply no_racing_push_head. }
    apply (ledger_trans a [E_push a param] [E_post a] _ w1 w2 w4).
    { by apply push_instruction_caller_ledger. }
    eapply ledger_step; [|by apply post_wakeup_caller_ledger].
    apply (run_actions_ledger a _ c2 w2). intros HP. rewrite Hc2.
    by apply no_racing_push_head, no_racing_push_tail.
Qed.

(** ** What the other threads do to one thread *)

Lemma worker_events_cons t who e evs :
  worker_events t ((who, e) :: evs) =
  match who with
  | Thr t' => if bool_decide (t' = t) then e :: worker_events t evs
              else worker_events t evs
  | _ => worker_events t evs
  end.
Proof.
  unfold worker_events. simpl. destruct who as [| |t']; try done.
  by case_bool_decide.
Qed.

Lemma worker_events_other t evs :
  Forall (λ e : actor * event, e.1 ≠ Thr t) evs → worker_events t evs = [].
Proof.
  induction 1 as [|[who e] evs H _ IH]; [done|].
  rewrite worker_events_cons, IH. simpl in H.
  destruct who as [| |t']; try done. case_bool_decide; [|done]. by subst.
Qed.

Lemma worker_events_own t evs :
  Forall (λ e : actor * event, e.1 = Thr t) evs → worker_events t evs = evs.*2.
Proof.
  induction 1 as [|[who e] evs H _ IH]; [done|].
  rewrite worker_events_cons, IH. simpl in H. subst who.
  by rewrite bool_decide_eq_true_2.
Qed.

(** An action that is not a step of thread [t] leaves the entry of [t] in
    the thread table alone and adds no event of [t]. *)
Lemma apply_action_other t act w :
  (act = A_step t → worker_step t w = None) →
  threads (apply_action act w) !! t = threads w !! t ∧
  ∃ evs, trace (apply_action act w) = trace w ++ evs ∧ worker_events t evs = [].
Proof.
  intros Hact.
  assert (threads w !! t = threads w !! t ∧
          ∃ evs, trace w = trace w ++ evs ∧ worker_events t evs = []) as Hnop.
  { split; [done|]. exists []. by rewrite app_nil_r. }
  destruct act as [t'|b p|b]; simpl.
  - destruct (worker_step t' w) as [w'|] eqn:Hstep; simpl; [|done].
    destruct (decide (t' = t)) as [->|Hne].
    { rewrite Hact in Hstep; done. }
    pose proof (worker_step_trace _ _ _ Hstep) as (evs & Htr & Hev).
    apply worker_step_unfold in Hstep as (th & pc' & w1 & Hth & Hb & ->).
    destruct (worker_body_inv _ _ _ _ _ Hb) as (_ & Ht & _). split.
    + simpl. rewrite Ht. by rewrite list_lookup_insert_ne.
    + exists evs. split; [done|]. apply worker_events_other.
      eapply Forall_impl; [done|]. intros [? ?]; simpl. intros -> [= ?]. done.
  - unfold push_instruction. destruct (heap w !! b); simpl; [|done].
    split; [done|]. by eexists [_].
  - unfold post_wakeup. destruct (heap w !! b); simpl; [|done].
    split; [done|]. by eexists [_].
Qed.

Lemma worker_step_returned t th w :
  threads w !! t = Some th → live th = false → worker_step t w = None.
Proof.
  intros Hth Hl. unfold worker_step. rewrite Hth. simpl.
  destruct th as [arg pc]. by destruct pc.
Qed.

(** A thread that has returned makes no step and leaves no event, whatever
    the other threads do. *)
Lemma returned_forever t th acts w :
  threads w !! t = Some th → live th = false →
  threads (run_actions acts w) !! t = Some th ∧
  ∃ evs, trace (run_actions acts w) = trace w ++ evs ∧ worker_events t evs = [].
Proof.
  revert w. induction acts as [|act acts IH]; intros w Hth Hl; simpl.
  - split; [done|]. exists []. by rewrite app_nil_r.
  - destruct (apply_action_other t act w) as (Ht1 & e1 & Htr1 & He1).
    { intros _. by eapply worker_step_returned. }
    destruct (IH (apply_action act w)) as (Ht2 & e2 & Htr2 & He2);
      [by rewrite Ht1|done|].
    split; [done|]. exists (e1 ++ e2). rewrite Htr2, Htr1, app_assoc.
    split; [done|]. unfold worker_events in *. by rewrite omap_app, He1, He2.
Qed.

(** Steps of the other threads only. *)
Lemma others_only t acts w :
  Forall (λ act, act ≠ A_step t) acts →
  threads (run_actions acts w) !! t = threads w !! t ∧
  ∃ evs, trace (run_actions acts w) = trace w ++ evs ∧ worker_events t evs = [].
Proof.
  revert w. induction acts as [|act acts IH]; intros w Hacts; simpl.
  - split; [done|]. exists []. by rewrite app_nil_r.
  - apply Forall_cons in Hacts as [Hact Hacts].
    destruct (apply_action_other t act w) as (Ht1 & e1 & Htr1 & He1); [done|].
    destruct (IH (apply_action act w) Hacts) as (Ht2 & e2 & Htr2 & He2).
    split; [congruence|]. exists (e1 ++ e2). rewrite Htr2, Htr1, app_assoc.
    split; [done|]. unfold worker_events in *. by rewrite omap_app, He1, He2.
Qed.

(** ** The states between the calls are well-formed *)

Lemma quiet_world_ok w w' : quiet w w' → world_ok w → world_ok w'.
Proof.
  intros Hq (H1 & H2 & H3).
  assert (singleton w' = singleton w) as Hs.
  { pose proof (q_env _ _ Hq) as He. unfold env in He. congruence. }
  split_and!.
  - intros a Ha. eapply quiet_pool_ok; [done|]. apply H1. congruence.
  - intros t th' Hth' Hl.
    destruct (quiet_thread_rev _ _ _ _ Hq Hth') as (th & Hth & Ha & Hlv).
    destruct (H2 t th Hth (Hlv Hl)) as (a & Hsa & Hta). exists a. split; congruence.
  - intros a [o' Ho']. destruct (quiet_obj_rev _ _ _ _ Hq Ho') as (o & Ho & _).
    rewrite Hs. apply H3. by exists o.
Qed.

Lemma world_ok_actions acts w : world_ok w → world_ok (run_actions acts w).
Proof. apply quiet_world_ok, run_actions_quiet. Qed.

(** Every call of the class interface on a well-formed state returns or
    aborts, under every schedule, and leaves a well-formed state. *)
Lemma world_ok_call c s w :
  world_ok w → wp (run_call c) (λ _, True) (λ _ _ w', world_ok w') s w.
Proof.
  intros Hok. destruct c as [count| |param]; simpl.
  - apply wp_bind. destruct (decide (count < 1)%Z) as [Hc|Hc].
    + eapply wp_mono; [by apply Initialize_aborts|done|done].
    + eapply wp_mono; [apply (wp_Initialize count (λ _, True) s w Hok); [lia|done]|done|].
      intros b s' w' (_ & Hok' & _). by apply wp_ret.
  - eapply wp_mono; [by apply (wp_Destroy (λ _, True))|done|].
    intros _ s' w' (Hidle & _). by apply idle_world_ok.
  - apply wp_bind. unfold Instruct. apply wp_bind, wp_get_world.
    destruct (singleton w) as [a|] eqn:Hs.
    + destruct Hok as (H1 & H2 & H3). destruct (H1 a Hs) as ([o Ho] & Htr & Hown).
      apply wp_bind.
      eapply wp_mono; [by apply (wp_SetInstruction a param (λ _, True) s w o)|done|].
      intros _ s' w' (_ & Hq & _). apply wp_ret, wp_ret.
      by eapply quiet_world_ok.
    + apply wp_bind, wp_log, wp_ret, wp_ret. exact Hok.
Qed.

(** * The claims *)

(** C2.  A worker that comes back from the wait on the wakeup signal (or
    reaches the loop condition) and reads the exit flag as set returns in
    that very step: the queue, whatever is pending in it, and the rest of
    the shared state stay as they are, and from then on the thread makes
    no step and leaves no event, so it never dequeues a task again. *)
Theorem worker_exit_priority (t : pthread_t) (a : addr) (o : ThreadPoolMan)
    (pc : wpc) (w : world) :
  pc = W_woken ∨ pc = W_loop →
  threads w !! t = Some (mk_thread (Some a) pc) →
  heap w !! a = Some o → is_exit o = true →
  ∃ w1, worker_step t w = Some w1 ∧
    heap w1 = heap w ∧ trace w1 = trace w ∧ csem w1 = csem w ∧
    threads w1 !! t = Some (mk_thread (Some a) (W_exit 0)) ∧
    ∀ acts,
      worker_step t (run_actions acts w1) = None ∧
      threads (run_actions acts w1) !! t = Some (mk_thread (Some a) (W_exit 0)) ∧
      ∃ evs, trace (run_actions acts w1) = trace w1 ++ evs ∧
             worker_events t evs = [].
Proof.
  intros Hpc Hth Ho Hex.
  pose proof (lookup_lt_Some _ _ _ Hth) as Hlt.
  exists (set_pc t (mk_thread (Some a) pc) (W_exit 0) w).
  assert (threads (set_pc t (mk_thread (Some a) pc) (W_exit 0) w) !! t =
          Some (mk_thread (Some a) (W_exit 0))) as Hth1.
  { simpl. by rewrite list_lookup_insert_eq. }
  split_and!; try done.
  - unfold worker_step. rewrite Hth. simpl. unfold worker_body. simpl.
    destruct Hpc as [-> | ->]; simpl; rewrite Ho; simpl; by rewrite Hex.
  - intros acts.
    destruct (returned_forever t _ acts _ Hth1 eq_refl) as (Hth2 & evs & Htr & Hev).
    split_and!; [|done|].
    + by eapply worker_step_returned.
    + by exists evs.
Qed.

(** C5.  A worker that has dequeued the descriptor [p] calls the work
    function once and then posts the completion signal of [p] once, when
    there is one, whatever the result is and whatever the other threads do
    in between.  A non-null result adds one warning to the log and nothing
    else: the pool object is not touched by these two steps, and the
    worker goes back to the head of its loop. *)
Theorem worker_completes_task (t : pthread_t) (arg : option addr)
    (p : thpoolman_param) (acts : list action) (w : world) :
  threads w !! t = Some (mk_thread arg (W_call p)) →
  Forall (λ act, act ≠ A_step t) acts →
  ∃ w1 w3,
    worker_step t w = Some w1 ∧ heap w1 = heap w ∧ csem w1 = csem w ∧
    worker_step t (run_actions acts w1) = Some w3 ∧
    heap w3 = heap (run_actions acts w1) ∧
    csem w3 = match psem p with
              | Some h => <[h := S (default 0 (csem (run_actions acts w1) !! h))]>
                            (csem (run_actions acts w1))
              | None => csem (run_actions acts w1)
              end ∧
    threads w3 !! t = Some (mk_thread arg W_loop) ∧
    ∃ evs, trace w3 = trace w ++ evs ∧
      worker_events t evs =
        E_call p (pfunc p (args p)) ::
        (if bool_decide (pfunc p (args p) = 0%Z) then []
         else [E_log WARN "The instruction function returned with somthign error code(%ld)."]) ++
        match psem p with
        | Some h => [E_signal h]
        | None => []
        end.
Proof.
  intros Hth Hacts.
  pose proof (lookup_lt_Some _ _ _ Hth) as Hlt.
  set (r := pfunc p (args p)).
  set (e1 := (Thr t, E_call p r) ::
             (if bool_decide (r = 0%Z) then []
              else [(Thr t, E_log WARN
                      "The instruction function returned with somthign error code(%ld).")])).
  set (w1 := set_pc t (mk_thread arg (W_call p)) (W_post p)
               (set_trace (trace w ++ e1) w)).
  assert (worker_step t w = Some w1) as Hstep1.
  { unfold worker_step. rewrite Hth. simpl. unfold worker_body. simpl. fold r.
    unfold w1, e1. destruct (bool_decide (r = 0%Z)); simpl; [done|].
    unfold emit. simpl. by rewrite <- app_assoc. }
  assert (threads w1 !! t = Some (mk_thread arg (W_post p))) as Hth1.
  { unfold w1. simpl. by rewrite list_lookup_insert_eq. }
  destruct (others_only t acts w1 Hacts) as (Hth2 & e2 & Htr2 & He2).
  set (w2 := run_actions acts w1) in *.
  rewrite Hth1 in Hth2.
  pose proof (lookup_lt_Some _ _ _ Hth2) as Hlt2.
  set (e3 := match psem p with Some h => [(Thr t, E_signal h)] | None => [] end).
  set (w3 := set_pc t (mk_thread arg (W_post p)) W_loop
               (set_trace (trace w2 ++ e3)
                  (match psem p with Some h => signal h w2 | None => w2 end))).
  assert (worker_step t w2 = Some w3) as Hstep3.
  { unfold worker_step. rewrite Hth2. simpl. unfold worker_body. simpl.
    unfold w3, e3. destruct (psem p); simpl; [done|].
    unfold set_pc, set_trace. simpl. rewrite app_nil_r. by destruct w2. }
  exists w1, w3. split_and!; try done.
  - unfold w3. by destruct (psem p).
  - unfold w3. by destruct (psem p).
  - unfold w3. destruct (psem p); simpl; by rewrite list_lookup_insert_eq.
  - exists (e1 ++ e2 ++ e3). split.
    + assert (trace w1 = trace w ++ e1) as Htr1 by done.
      assert (trace w3 = trace w2 ++ e3) as -> by (unfold w3; by destruct (psem p)).
      by rewrite Htr2, Htr1, <- !app_assoc.
    + unfold worker_events in *. rewrite !omap_app, He2.
      unfold e1, e3. simpl. rewrite bool_decide_eq_true_2 by done.
      destruct (bool_decide (r = 0%Z)), (psem p); simpl;
        rewrite ?bool_decide_eq_true_2 by done; done.
Qed.

(** C9.  A worker that has passed the check of the exit flag and finds the
    queue empty under the lock logs a debug line, changes nothing else and
    is back at the head of its loop, from where it goes to the wait again
    while the exit flag is clear.  The locked step is defined in every
    state: [front] and [pop_front], which are undefined on an empty list,
    are only reached on a queue with a first element, which is the
    element taken. *)
Theorem worker_spurious_wake (t : pthread_t) (a : addr) (o : ThreadPoolMan)
    (w : world) :
  threads w !! t = Some (mk_thread (Some a) W_fetch) →
  heap w !! a = Some o →
  ∃ w1, worker_step t w = Some w1 ∧
    (instruction_list o = [] →
       heap w1 = heap w ∧ csem w1 = csem w ∧
       trace w1 = trace w ++
         [(Thr t, E_log DBG "Got a semaphore, but the instruction is empty.")] ∧
       threads w1 !! t = Some (mk_thread (Some a) W_loop) ∧
       (is_exit o = false →
          ∃ w2, worker_step t w1 = Some w2 ∧ heap w2 = heap w ∧
                threads w2 !! t = Some (mk_thread (Some a) W_wait))) ∧
    (∀ p, threads w1 !! t = Some (mk_thread (Some a) (W_call p)) →
       ∃ rest, instruction_list o = p :: rest ∧
         front (instruction_list o) = Some p ∧
         pop_front (instruction_list o) = Some rest ∧
         heap w1 = <[a := set_instruction_list rest o]> (heap w) ∧
         trace w1 = trace w ++ [(Thr t, E_pop a p)]).
Proof.
  intros Hth Ho.
  pose proof (lookup_lt_Some _ _ _ Hth) as Hlt.
  set (th := mk_thread (Some a) W_fetch) in *.
  destruct (instruction_list o) as [|p rest] eqn:Hq.
  - set (w1 := set_pc t th W_loop
        (emit (Thr t) (E_log DBG "Got a semaphore, but the instruction is empty.") w)).
    assert (threads w1 !! t = Some (mk_thread (Some a) W_loop)) as Hth1.
    { unfold w1, set_pc, th. simpl. by rewrite list_lookup_insert_eq. }
    exists w1. split_and!.
    + unfold worker_step. rewrite Hth. simpl. unfold worker_body. simpl.
      rewrite Ho. simpl. by rewrite Hq.
    + intros _. split_and!; try done. intros Hex.
      exists (set_pc t (mk_thread (Some a) W_loop) W_wait w1). split_and!.
      * unfold worker_step. rewrite Hth1. simpl. unfold worker_body. simpl.
        rewrite Ho. simpl. by rewrite Hex.
      * done.
      * unfold set_pc. simpl. rewrite list_lookup_insert_eq; [done|].
        by rewrite length_insert.
    + intros p. rewrite Hth1. by intros [= ?].
  - set (w1 := set_pc t th (W_call p)
        (emit (Thr t) (E_pop a p) (put_obj a (set_instruction_list rest o) w))).
    assert (threads w1 !! t = Some (mk_thread (Some a) (W_call p))) as Hth1.
    { unfold w1, set_pc, th. simpl. by rewrite list_lookup_insert_eq. }
    exists w1. split_and!.
    + unfold worker_step. rewrite Hth. simpl. unfold worker_body. simpl.
      rewrite Ho. simpl. by rewrite Hq.
    + done.
    + intros p'. rewrite Hth1. intros [= <-]. by exists rest.
Qed.

(** [StopThreads] returns on every well-formed pool. *)
Lemma StopThreads_run this o s w :
  heap w !! this = Some o → tracked this w → owned this w →
  ∃ s' w' o',
    StopThreads this s w = Ret true s' w' ∧
    heap w' !! this = Some o' ∧ thread_list o' = [] ∧ all_returned this w' ∧
    (thread_list o = [] →
       s' = s ∧
       w' = emit Caller (E_log INFO "Any threads are running now, then nothing to do.") w) ∧
    (thread_list o ≠ [] →
       is_exit o' = true ∧ thpoolman_sem o' = 0 ∧
       caller_posts this w' = caller_posts this w + length (thread_list o) ∧
       caller_joins w' = caller_joins w + length (thread_list o)).
Proof.
  intros Ho Htr Hown.
  destruct (wp_ret_inv _ _ _ s w (StopThreads_spec this (λ _, False) s w o Ho Htr Hown))
    as (b & s' & w' & Hrun & -> & _ & Hret & o' & Ho' & Hl' & Hnop & Hstop); [by auto|].
  exists s', w', o'. by split_and!.
Qed.

(** C3.  On a pool with an empty worker list [StopThreads] changes nothing
    (it writes one line to the log).  On a pool with workers it sets the
    exit flag, posts the wakeup signal once per entry of the worker list,
    joins every entry, clears the list and drains the wakeup signal: when
    it returns, every worker of the pool has returned, the list is empty
    and the wakeup count is zero.  This holds for every schedule of the
    workers and of racing [Instruct] calls. *)
Theorem StopThreads_full_stop (this : addr) (o : ThreadPoolMan) (s : sched)
    (w : world) :
  heap w !! this = Some o → tracked this w → owned this w →
  ∃ s' w' o',
    StopThreads this s w = Ret true s' w' ∧
    heap w' !! this = Some o' ∧ thread_list o' = [] ∧ all_returned this w' ∧
    (thread_list o = [] →
       s' = s ∧
       w' = emit Caller (E_log INFO "Any threads are running now, then nothing to do.") w) ∧
    (thread_list o ≠ [] →
       is_exit o' = true ∧ thpoolman_sem o' = 0 ∧
       caller_posts this w' = caller_posts this w + length (thread_list o) ∧
       caller_joins w' = caller_joins w + length (thread_list o)).
Proof.
  intros Ho Htr Hown.
  pose proof (StopThreads_spec this (λ _, False) s w o Ho Htr Hown) as Hwp.
  unfold wp in Hwp.
  destruct (StopThreads this s w) as [b s' w'|w'|w']; [|done..].
  destruct Hwp as (-> & _ & Hret & o' & Ho' & Hl' & Hnop & Hstop).
  exists s', w', o'. split_and!; [done|done|done|done|exact Hnop|exact Hstop].
Qed.

Lemma bind_unfold {A B} (m : M A) (k : A → M B) s w :
  (m ≫= k) s w =
  match m s w with
  | Ret a s' w' => k a s' w'
  | Aborted w' => Aborted w'
  | Stuck w' => Stuck w'
  end.
Proof. done. Qed.

Lemma bind_ret_true {A} (m : M A) b s w s' w' :
  (m ≫= λ _, mret true) s w = Ret b s' w' → b = true.
Proof.
  unfold mbind, M_bind, mret, M_ret. destruct (m s w); [|done..]. by intros [= <- _ _].
Qed.

(** C10.  [StopThreads] never returns anything but true; on a well-formed
    pool it does return, for every schedule; and a [pthread_join] that
    fails does not stop it: the failure is logged and the loop goes on
    with the next worker. *)
Theorem StopThreads_returns_true (this : addr) (s : sched) (w : world) :
  (∀ b s' w', StopThreads this s w = Ret b s' w' → b = true) ∧
  (pool_ok this w → ∃ s' w', StopThreads this s w = Ret true s' w') ∧
  (∀ t l, threads w !! t = None →
     join_loop (t :: l) s w =
     join_loop l (tail s)
       (emit Caller (E_log ERR "failed pthread_join - result(%d)")
          (emit Caller (E_join t ESRCH) (run_actions (default [] (head s)) w)))).
Proof.
  split_and!.
  - intros b s' w'. unfold StopThreads.
    unfold mbind at 1, M_bind at 1, get_obj.
    destruct (heap w !! this) as [o|]; [|done].
    destruct (bool_decide (thread_list o = [])).
    + apply bind_ret_true.
    + intros H. repeat (unfold mbind at 1, M_bind at 1 in H;
        match type of H with
        | match ?m ?s ?w with _ => _ end = _ =>
            destruct (m s w) as [? ? ?| |]; [|done..]
        end).
      by injection H as <- _ _.
  - intros ([o Ho] & Htr & Hown).
    destruct (StopThreads_run this o s w Ho Htr Hown) as (s' & w' & _ & H & _).
    eauto.
  - intros t l Hth. simpl.
    assert (threads (run_actions (default [] (head s)) w) !! t = None) as Hth'.
    { pose proof (q_args _ _ (run_actions_quiet (default [] (head s)) w) t) as Ha.
      rewrite Hth in Ha. by destruct (threads (run_actions _ w) !! t). }
    unfold mbind at 1, M_bind at 1, yield.
    destruct s as [|c s]; simpl in *;
      unfold mbind at 1, M_bind at 1, pthread_join; rewrite Hth'; done.
Qed.

Lemma Destroy_clears_handle u s w s' w' :
  Destroy s w = Ret u s' w' → singleton w' = None.
Proof.
  unfold Destroy. unfold mbind at 1, M_bind at 1, get_world.
  destruct (singleton w) as [p|] eqn:Hs.
  - unfold mbind, M_bind. destruct (delete_ThreadPoolMan p s w); [|done..].
    unfold modify. by intros [= _ _ <-].
  - unfold mret, M_ret. by intros [= _ _ <-].
Qed.

(** C4.  Without a singleton (as after [Destroy]) [Instruct] returns false
    and changes nothing but the log.  With a singleton it returns true,
    for every schedule, and the calling thread has done exactly two
    things: one [push_back] of the descriptor at the back of the queue and
    one post of the wakeup signal.  Without interference the new state is
    the old one with the descriptor appended and the count incremented. *)
Theorem Instruct_enqueues (param : thpoolman_param) (s : sched) (w : world) :
  (singleton w = None →
     Instruct param s w =
     Ret false s (emit Caller (E_log WARN "The singleton object is not initialized yet.") w)) ∧
  (∀ u s0 w0, Destroy s0 w0 = Ret u s w →
     Instruct param s w =
     Ret false s (emit Caller (E_log WARN "The singleton object is not initialized yet.") w)) ∧
  (∀ a o, singleton w = Some a → heap w !! a = Some o →
     ∃ w' evs,
       Instruct param s w = Ret true (tail (tail s)) w' ∧
       trace w' = trace w ++ evs ∧
       caller_events evs = [E_push a param; E_post a] ∧
       pops a evs.*2 ++ queue_of a w' = instruction_list o ++ pushes a evs.*2 ∧
       (s = [] →
          evs = [(Caller, E_push a param); (Caller, E_post a)] ∧
          heap w' = <[a := mk_pool (is_exit o) (S (thpoolman_sem o)) (is_lock_init o)
                             (thread_list o) (instruction_list o ++ [param])]> (heap w) ∧
          threads w' = threads w ∧ csem w' = csem w)).
Proof.
  assert (singleton w = None →
          Instruct param s w =
          Ret false s
            (emit Caller (E_log WARN "The singleton object is not initialized yet.") w))
    as Hnone.
  { intros Hs. unfold Instruct. unfold mbind at 1, M_bind at 1, get_world.
    by rewrite Hs. }
  split_and!.
  - done.
  - intros u s0 w0 HD. by eapply Hnone, Destroy_clears_handle.
  - intros a o Hs Ho.
    pose proof (wp_SetInstruction a param (λ _, False) s w o Ho) as Hwp.
    apply wp_ret_inv in Hwp as ([] & s' & w' & Hrun & -> & Hq & evs & Htr & Hled & Hmine & _);
      [|by auto].
    exists w', evs.
    assert (Instruct param s w = Ret true (tail (tail s)) w') as HI.
    { unfold Instruct. unfold mbind at 1, M_bind at 1, get_world. rewrite Hs.
      unfold mbind, M_bind. by rewrite Hrun. }
    split_and!; [done|done|done| |].
    + unfold queue_of in Hled at 1. rewrite Ho in Hled. done.
    + intros ->. revert Hrun Htr.
      unfold SetInstruction, mbind, M_bind, yield, try_modify, push_instruction,
        post_wakeup.
      rewrite Ho. simpl. rewrite lookup_insert_eq. simpl.
      intros [= <-]. simpl. rewrite <- (app_assoc (trace w)).
      intros <-%app_inv_head. by rewrite insert_insert_eq.
Qed.

Lemma pushes_submissions a ps : pushes a (submissions a ps) = ps.
Proof.
  induction ps as [|p ps IH]; [done|].
  unfold pushes. simpl.
  rewrite bool_decide_eq_true_2 by done. f_equal. exact IH.
Qed.

Lemma wp_Instruct_all a ps E s w o :
  singleton w = Some a → heap w !! a = Some o →
  wp (Instruct_all ps) E
    (λ bs s' w', bs = replicate (length ps) true ∧ quiet w w' ∧
       (no_racing_push s = true → no_racing_push s' = true) ∧
       ledger a (submissions a ps) (no_racing_push s = true) w w') s w.
Proof.
  revert s w o. induction ps as [|p ps IH]; intros s w o Hs Ho; simpl.
  - apply wp_ret. split_and!; [done|apply quiet_refl|done|apply ledger_refl].
  - apply wp_bind. unfold Instruct. apply wp_bind, wp_get_world. rewrite Hs.
    apply wp_bind.
    eapply wp_mono; [by apply (wp_SetInstruction a p E s w o)|done|].
    intros _ s1 w1 (-> & Hq1 & Hl1). apply wp_ret, wp_bind.
    destruct (quiet_obj _ _ _ _ Hq1 Ho) as (o1 & Ho1 & _).
    assert (singleton w1 = Some a) as Hs1.
    { pose proof (q_env _ _ Hq1) as He. unfold env in He. congruence. }
    eapply wp_mono; [by apply (IH _ w1 o1)|done|].
    intros bs s2 w2 (-> & Hq2 & Hn2 & Hl2). apply wp_ret.
    split_and!; [done|by eapply quiet_trans| |].
    + intros Hn. by apply Hn2, no_racing_push_tail, no_racing_push_tail.
    + apply (ledger_trans a [E_push a p; E_post a] (submissions a ps) _ w w1 w2);
        [done|].
      eapply ledger_weaken; [|done].
      intros Hn. by apply no_racing_push_tail, no_racing_push_tail.
Qed.

(** C1.  After any number of [Instruct] calls, under every schedule of the
    workers and of racing clients and whatever the workers do afterwards,
    what has been popped from the queue followed by what is still in it
    is what was in it before followed by what has been pushed since, in
    the order of the pushes: a pop takes the oldest descriptor.  The
    pushes of the calling thread are its descriptors in the order of the
    calls, and they are all the pushes when no other client pushes. *)
Theorem fifo_dispatch (a : addr) (o : ThreadPoolMan) (ps : list thpoolman_param)
    (s : sched) (acts : list action) (w : world) :
  singleton w = Some a → heap w !! a = Some o →
  ∃ s1 w1 evs,
    Instruct_all ps s w = Ret (replicate (length ps) true) s1 w1 ∧
    trace (run_actions acts w1) = trace w ++ evs ∧
    pops a evs.*2 ++ queue_of a (run_actions acts w1) =
      instruction_list o ++ pushes a evs.*2 ∧
    pushes a (caller_events evs) = ps ∧
    (no_racing_push s = true → forallb no_push acts = true → pushes a evs.*2 = ps).
Proof.
  intros Hs Ho.
  destruct (wp_ret_inv _ _ _ s w (wp_Instruct_all a ps (λ _, False) s w o Hs Ho))
    as (bs & s1 & w1 & Hrun & -> & Hq & _ & Hled); [by auto|].
  pose proof (run_actions_ledger a
    (no_racing_push s = true ∧ forallb no_push acts = true) acts w1) as Hacts.
  pose proof (ledger_trans a _ [] _ w w1 _
    (ledger_weaken _ _ _ (no_racing_push s = true ∧ forallb no_push acts = true)
       _ _ (λ H, proj1 H) Hled) (Hacts (λ H, proj2 H)))
    as (evs & Htr & Hqueue & Hmine & Hall).
  exists s1, w1, evs. rewrite app_nil_r in Hmine, Hall.
  split_and!; [done|done| | |].
  - unfold queue_of in Hqueue at 1. rewrite Ho in Hqueue. done.
  - rewrite Hmine. apply pushes_submissions.
  - intros H1 H2. rewrite Hall by done. apply pushes_submissions.
Qed.

(** The one call of [StartThreads] is in the constructor, behind the test
    of the count and on the object that was just allocated: the count is
    at least one, the worker list is empty and the wakeup count is zero. *)
Lemma new_ThreadPoolMan_call_site (count : Z) (s : sched) (w : world) :
  (1 ≤ count)%Z → singleton w = None → mutex_init_rc w = 0%Z →
  ∃ w1,
    heap w1 !! next_addr w = Some (mk_pool false 0 true [] []) ∧
    new_ThreadPoolMan count s w =
      (started ← StartThreads (next_addr w) count;
       if negb started then
         log ERR "Failed starting threads at initializing.";;
         abort
       else mret (next_addr w)) s w1.
Proof.
  intros Hcount Hs Hrc.
  exists (put_obj (next_addr w) (mk_pool false 0 true [] [])
            (set_next_addr (S (next_addr w))
               (put_obj (next_addr w) (mk_pool false 0 false [] []) w))).
  split.
  - unfold put_obj. simpl. by rewrite lookup_insert_eq.
  - unfold new_ThreadPoolMan.
    unfold mbind at 1, M_bind at 1, get_world at 1.
    unfold mbind at 1, M_bind at 1, modify at 1.
    rewrite bool_decide_eq_false_2 by lia.
    unfold mbind at 1, M_bind at 1, get_world at 1. simpl singleton. simpl mutex_init_rc.
    rewrite (bool_decide_eq_false_2 (singleton w ≠ None)) by (by rewrite Hs; intros []).
    rewrite (bool_decide_eq_false_2 (mutex_init_rc w ≠ 0%Z)) by (by rewrite Hrc; intros []).
    unfold mbind at 1, M_bind at 1, modify_obj at 1.
    unfold mbind at 1, M_bind at 1, get_obj at 1.
    unfold put_obj at 1. simpl heap. rewrite lookup_insert_eq. reflexivity.
Qed.

(** C6.  [StartThreads] is called with a count of at least one on a pool
    whose wakeup count is zero unless it has workers (in the constructor:
    no workers and a count of zero).  It first runs [StopThreads], after
    which the worker list is empty, every earlier worker has returned and
    the wakeup count is zero; then it clears the exit flag and creates the
    workers.  When all creations succeed the worker list holds exactly
    [count] new threads started on this pool; when one fails, the workers
    created so far are stopped, the list is empty, no worker of the pool
    is left running, and the result is false. *)
Theorem StartThreads_restarts (this : addr) (o : ThreadPoolMan) (count : Z)
    (s : sched) (w : world) :
  heap w !! this = Some o → tracked this w → owned this w →
  (1 ≤ count)%Z → thread_list o ≠ [] ∨ thpoolman_sem o = 0 →
  ∃ s1 w1 o1 b s' w' o',
    StopThreads this s w = Ret true s1 w1 ∧
    heap w1 !! this = Some o1 ∧ thread_list o1 = [] ∧ all_returned this w1 ∧
    thpoolman_sem o1 = 0 ∧
    StartThreads this count s w =
      (yield;; SetExitFlag this false;; create_loop this (Z.to_nat count)) s1 w1 ∧
    StartThreads this count s w = Ret b s' w' ∧
    heap w' !! this = Some o' ∧
    (∀ t th, threads w !! t = Some th → t_arg th = Some this →
       ∃ th', threads w' !! t = Some th' ∧ live th' = false) ∧
    (b = true ↔ Forall (λ rc, rc = 0%Z) (take (Z.to_nat count) (create_tape w))) ∧
    (b = true →
       thread_list o' = seq (length (threads w)) (Z.to_nat count) ∧
       length (thread_list o') = Z.to_nat count ∧
       is_exit o' = false ∧
       ∀ t, t ∈ thread_list o' →
         ∃ th, threads w' !! t = Some th ∧ t_arg th = Some this) ∧
    (b = false → thread_list o' = [] ∧ all_returned this w').
Proof.
  intros Ho Htr Hown Hcount Hcase.
  destruct (StopThreads_run this o s w Ho Htr Hown)
    as (s1 & w1 & o1 & Hstop & Ho1 & Hl1 & Hret1 & Hnop & Hfull).
  destruct (wp_ret_inv _ _ _ s w
              (StartThreads_spec this count (λ _, False) s w o Ho Htr Hown Hcount))
    as (b & s' & w' & Hrun & Hg & Htr' & Hown' & Hold & o' & Ho' & Hgood & Hok & Hfail);
    [by auto|].
  exists s1, w1, o1, b, s', w', o'. split_and!; try done.
  - destruct (decide (thread_list o = [])) as [Hnil|Hne].
    + destruct Hcase as [?|Hzero]; [done|].
      destruct (Hnop Hnil) as [_ ->]. simpl in Ho1. congruence.
    + by destruct (Hfull Hne) as (_ & ? & _).
  - unfold StartThreads. rewrite bool_decide_eq_false_2 by lia.
    unfold mbind at 1, M_bind at 1. by rewrite Hstop.
  - split; [|done]. intros Hb. by destruct (Hok Hb) as (_ & _ & _ & ?).
  - intros Hb. destruct (Hok Hb) as (Hlist & Hexit & Hlen & _).
    split_and!; [done|by rewrite Hlist, length_seq|done|].
    intros t Hin. rewrite Hlist in Hin. apply elem_of_seq in Hin.
    destruct (lookup_lt_is_Some_2 (threads w') t) as [th Hth]; [lia|].
    exists th. split; [done|]. eapply Hown'; [done| |done]. rewrite Hlist.
    by apply elem_of_seq.
Qed.

(** C8.  [Initialize] never returns false.  For a count below one it
    aborts the process.  For a count of at least one it either aborts or
    returns true; it aborts when the mutex cannot be initialised and when
    a worker cannot be created, and it returns true when the environment
    lets the construction through. *)
Theorem Initialize_true_or_abort (count : Z) (s : sched) (w : world) :
  world_ok w →
  (∀ s' w', Initialize count s w ≠ Ret false s' w') ∧
  ((count < 1)%Z → ∃ w', Initialize count s w = Aborted w') ∧
  ((1 ≤ count)%Z →
     (∃ w', Initialize count s w = Aborted w') ∨
     (∃ s' w', Initialize count s w = Ret true s' w')) ∧
  ((1 ≤ count)%Z →
     mutex_init_rc w ≠ 0%Z ∨
     ¬ Forall (λ rc, rc = 0%Z) (take (Z.to_nat count) (create_tape w)) →
     ∃ w', Initialize count s w = Aborted w') ∧
  ((1 ≤ count)%Z →
     singleton w = None ∨ mutex_destroy_rc w = 0%Z →
     mutex_init_rc w = 0%Z →
     Forall (λ rc, rc = 0%Z) (take (Z.to_nat count) (create_tape w)) →
     ∃ s' w' p o',
       Initialize count s w = Ret true s' w' ∧
       singleton w' = Some p ∧ heap w' !! p = Some o' ∧
       length (thread_list o') = Z.to_nat count ∧ is_exit o' = false).
Proof.
  intros Hok.
  assert ((count < 1)%Z → ∃ w', Initialize count s w = Aborted w') as Hlow.
  { intros Hcount. pose proof (Initialize_aborts count s w Hok Hcount) as Hwp.
    unfold wp in Hwp. destruct (Initialize count s w) as [? ? ?|w'|]; [done| |done].
    by exists w'. }
  assert ((1 ≤ count)%Z →
          match Initialize count s w with
          | Ret b _ w' => b = true ∧ mutex_init_rc w = 0%Z ∧
              Forall (λ rc, rc = 0%Z) (take (Z.to_nat count) (create_tape w))
          | Aborted _ => True
          | Stuck _ => False
          end) as Hhigh.
  { intros Hcount.
    pose proof (wp_Initialize count (λ _, True) s w Hok Hcount (λ _ _, I)) as Hwp.
    unfold wp in Hwp. destruct (Initialize count s w) as [b s' w'|w'|]; [|done..].
    by destruct Hwp as (-> & _ & _ & ? & ? & _). }
  split_and!.
  - intros s' w' Hfalse.
    destruct (decide (count < 1)%Z) as [Hc|Hc].
    + destruct (Hlow Hc) as [w2 Hw2]. congruence.
    + specialize (Hhigh ltac:(lia)). rewrite Hfalse in Hhigh. by destruct Hhigh.
  - done.
  - intros Hcount. specialize (Hhigh Hcount).
    destruct (Initialize count s w) as [b s' w'|w'|]; [|by eauto|done].
    destruct Hhigh as [-> _]. eauto.
  - intros Hcount Hbad. specialize (Hhigh Hcount).
    destruct (Initialize count s w) as [b s' w'|w'|]; [|by eauto|done].
    destruct Hhigh as (_ & Hrc & Htape). by destruct Hbad.
  - intros Hcount Hd Hi Htape.
    assert (singleton w ≠ None ∧ mutex_destroy_rc w ≠ 0%Z ∨ mutex_init_rc w ≠ 0%Z ∨
            ¬ Forall (λ rc, rc = 0%Z) (take (Z.to_nat count) (create_tape w)) →
            world → False) as Hgood.
    { intros [[Hs Hrc]|[Hrc|Hbad]] _; [by destruct Hd|done..]. }
    destruct (wp_ret_inv _ _ _ s w
                (wp_Initialize count (λ _, False) s w Hok Hcount Hgood))
      as (b & s' & w' & Hrun & -> & _ & _ & _ & _ & _ & p & o' & Hs' & Ho' & Hl' & Hex');
      [by auto|].
    exists s', w', p, o'. split_and!; [done..| |done].
    by rewrite Hl', length_seq.
Qed.

(** [Initialize] is [Destroy] followed by [Initialize], up to the warning
    that it logs first when a singleton exists. *)
Lemma Initialize_unfold_Destroy count s w :
  Initialize count s w =
  ((if bool_decide (singleton w ≠ None) then
      log WARN "Already singleton for Thread Manager is existed, then re-create it."
    else mret ());;
   Destroy;;
   Initialize count) s w.
Proof.
  assert (∀ u s1 w1 s2 w2, Destroy s1 w1 = Ret u s2 w2 →
            Initialize count s2 w2 =
            (new_ThreadPoolMan count ≫= λ p,
               modify (set_singleton (Some p)) ≫= λ _, mret true) s2 w2) as Hafter.
  { intros u s1 w1 s2 w2 HD. pose proof (Destroy_clears_handle _ _ _ _ _ HD) as Hs2.
    unfold Initialize. rewrite bind_unfold. unfold get_world.
    rewrite Hs2, (bool_decide_eq_false_2 (None ≠ None)) by (by intros []).
    by rewrite bind_unfold. }
  unfold Initialize at 1. rewrite bind_unfold. unfold get_world.
  destruct (bool_decide (singleton w ≠ None)) eqn:Hs.
  - set (rest := new_ThreadPoolMan count ≫= _).
    set (w1 := emit Caller
      (E_log WARN "Already singleton for Thread Manager is existed, then re-create it.") w).
    change (match Destroy s w1 with
            | Ret _ s' w' => rest s' w'
            | Aborted w' => Aborted w'
            | Stuck w' => Stuck w'
            end =
            match Destroy s w1 with
            | Ret _ s' w' => Initialize count s' w'
            | Aborted w' => Aborted w'
            | Stuck w' => Stuck w'
            end).
    destruct (Destroy s w1) as [u s2 w2|w2|w2] eqn:HD; [|done..].
    symmetry. by eapply Hafter.
  - apply bool_decide_eq_false in Hs.
    assert (singleton w = None) as Hn by (by destruct (singleton w); [destruct Hs|]).
    assert (Destroy s w = Ret () s w) as HD.
    { unfold Destroy. rewrite bind_unfold. unfold get_world. by rewrite Hn. }
    set (rest := new_ThreadPoolMan count ≫= _).
    change (rest s w =
            match Destroy s w with
            | Ret _ s' w' => Initialize count s' w'
            | Aborted w' => Aborted w'
            | Stuck w' => Stuck w'
            end).
    rewrite HD. symmetry. by eapply Hafter.
Qed.

(** C7.  Two calls of [Initialize] in a row.  The second call is the
    warning about the existing singleton, then [Destroy], then
    [Initialize] with the new count.  After each call exactly one pool
    object exists, the one the handle points to.  Every thread that
    existed after the first call, so every worker of the first
    generation, has returned when the second call returns; it makes no
    step and leaves no event afterwards, whatever is submitted and
    whatever the other threads do: the workers of the new pool are
    threads that did not exist before the second call. *)
Theorem Initialize_replaces (c1 c2 : Z) (s : sched) (w : world)
    (b1 b2 : bool) (s1 s2 : sched) (w1 w2 : world) :
  world_ok w →
  Initialize c1 s w = Ret b1 s1 w1 →
  Initialize c2 s1 w1 = Ret b2 s2 w2 →
  Initialize c2 s1 w1 =
    (log WARN "Already singleton for Thread Manager is existed, then re-create it.";;
     Destroy;;
     Initialize c2) s1 w1 ∧
  (∃ p1, singleton w1 = Some p1 ∧ ∀ a, is_Some (heap w1 !! a) → a = p1) ∧
  (∃ p2 o2, singleton w2 = Some p2 ∧ (∀ a, is_Some (heap w2 !! a) → a = p2) ∧
     heap w2 !! p2 = Some o2 ∧
     thread_list o2 = seq (length (threads w1)) (Z.to_nat c2)) ∧
  ∀ t th, threads w1 !! t = Some th →
    ∃ th', threads w2 !! t = Some th' ∧ live th' = false ∧
      ∀ acts,
        worker_step t (run_actions acts w2) = None ∧
        ∃ evs, trace (run_actions acts w2) = trace w2 ++ evs ∧
               worker_events t evs = [].
Proof.
  intros Hok H1 H2.
  assert (∀ c s w b s' w', world_ok w → Initialize c s w = Ret b s' w' →
            world_ok w' ∧ retired w w' ∧
            ∃ p o', singleton w' = Some p ∧ (∀ a, is_Some (heap w' !! a) → a = p) ∧
              heap w' !! p = Some o' ∧
              thread_list o' = seq (length (threads w)) (Z.to_nat c)) as Hinit.
  { clear. intros c s w b s' w' Hok Hrun.
    destruct (decide (c < 1)%Z) as [Hc|Hc].
    { pose proof (Initialize_aborts c s w Hok Hc) as Hwp. unfold wp in Hwp.
      by rewrite Hrun in Hwp. }
    pose proof (wp_Initialize c (λ _, True) s w Hok ltac:(lia) (λ _ _, I)) as Hwp.
    unfold wp in Hwp. rewrite Hrun in Hwp.
    destruct Hwp as (_ & Hok' & Hret & _ & _ & _ & p & o' & Hs' & Ho' & Hl' & _).
    split_and!; [done..|]. exists p, o'. split_and!; [done| |done|done].
    intros a Ha. destruct Hok' as (_ & _ & H3). specialize (H3 a Ha). congruence. }
  destruct (Hinit _ _ _ _ _ _ Hok H1) as (Hok1 & _ & p1 & o1 & Hs1 & Honly1 & _).
  destruct (Hinit _ _ _ _ _ _ Hok1 H2)
    as (Hok2 & Hret2 & p2 & o2 & Hs2 & Honly2 & Ho2 & Hl2).
  split_and!.
  - rewrite Initialize_unfold_Destroy at 1.
    by rewrite (bool_decide_eq_true_2 (singleton w1 ≠ None)) by (by rewrite Hs1).
  - by exists p1.
  - by exists p2, o2.
  - intros t th Hth. destruct (Hret2 t th Hth) as (th' & Hth' & _ & Hl').
    exists th'. split_and!; [done..|]. intros acts.
    destruct (returned_forever t th' acts w2 Hth' Hl') as (Hth2 & evs & Htr & Hev).
    split; [by eapply worker_step_returned|]. by exists evs.
Qed.

(** * The claims on the example states *)

Lemma ex_running_lookup : heap ex_running !! 0 = Some ex_pool.
Proof. reflexivity. Qed.

Lemma ex_running_tracked : tracked 0 ex_running.
Proof.
  intros t th Hth Ha Hl. exists ex_pool. split; [reflexivity|].
  destruct t as [|[|t]]; simpl in Hth; [| |discriminate Hth].
  - apply list_elem_of_here.
  - apply list_elem_of_further, list_elem_of_here.
Qed.

Lemma ex_running_owned : owned 0 ex_running.
Proof.
  intros o t th Ho Hin Hth.
  destruct t as [|[|t]]; simpl in Hth; [| |discriminate Hth]; by simplify_eq.
Qed.

Lemma ex_running_ok : world_ok ex_running.
Proof.
  split_and!.
  - intros a [= <-]. split_and!; [by exists ex_pool|exact ex_running_tracked|
                                   exact ex_running_owned].
  - intros t th Hth Hl. exists 0. split; [reflexivity|].
    destruct t as [|[|t]]; simpl in Hth; [| |discriminate Hth]; by simplify_eq.
  - intros a [o Ho]. destruct (decide (a = 0)) as [->|Hne]; [reflexivity|].
    unfold ex_running in Ho. simpl in Ho. by rewrite lookup_singleton_ne in Ho.
Qed.

Lemma ex_boot_ok : world_ok ex_boot.
Proof. apply idle_world_ok. split_and!; [reflexivity|done|done]. Qed.

Lemma fifo_dispatch_witness :
  ∃ s1 w1 evs,
    Instruct_all [ex_task 1 None 0; ex_task 2 (Some 9) 7] ex_sched ex_running =
      Ret (replicate 2 true) s1 w1 ∧
    trace (run_actions [A_step 1; A_step 0; A_step 0] w1) = trace ex_running ++ evs ∧
    pops 0 evs.*2 ++ queue_of 0 (run_actions [A_step 1; A_step 0; A_step 0] w1) =
      instruction_list ex_pool ++ pushes 0 evs.*2 ∧
    pushes 0 (caller_events evs) = [ex_task 1 None 0; ex_task 2 (Some 9) 7] ∧
    (no_racing_push ex_sched = true →
     forallb no_push [A_step 1; A_step 0; A_step 0] = true →
     pushes 0 evs.*2 = [ex_task 1 None 0; ex_task 2 (Some 9) 7]).
Proof.
  apply (fifo_dispatch 0 ex_pool [ex_task 1 None 0; ex_task 2 (Some 9) 7]
           ex_sched [A_step 1; A_step 0; A_step 0] ex_running);
    reflexivity.
Defined.

Lemma worker_exit_priority_witness :
  ∃ w1, worker_step 0 ex_stopping = Some w1 ∧
    heap w1 = heap ex_stopping ∧ trace w1 = trace ex_stopping ∧
    csem w1 = csem ex_stopping ∧
    threads w1 !! 0 = Some (mk_thread (Some 0) (W_exit 0)) ∧
    ∀ acts,
      worker_step 0 (run_actions acts w1) = None ∧
      threads (run_actions acts w1) !! 0 = Some (mk_thread (Some 0) (W_exit 0)) ∧
      ∃ evs, trace (run_actions acts w1) = trace w1 ++ evs ∧
             worker_events 0 evs = [].
Proof.
  apply (worker_exit_priority 0 0 (mk_pool true 0 true [0] [ex_task 1 None 0])
           W_woken ex_stopping); [by left|reflexivity..].
Defined.

Lemma StopThreads_full_stop_witness :
  ∃ s' w' o',
    StopThreads 0 ex_sched ex_running = Ret true s' w' ∧
    heap w' !! 0 = Some o' ∧ thread_list o' = [] ∧ all_returned 0 w' ∧
    (thread_list ex_pool = [] →
       s' = ex_sched ∧
       w' = emit Caller (E_log INFO "Any threads are running now, then nothing to do.")
              ex_running) ∧
    (thread_list ex_pool ≠ [] →
       is_exit o' = true ∧ thpoolman_sem o' = 0 ∧
       caller_posts 0 w' = caller_posts 0 ex_running + length (thread_list ex_pool) ∧
       caller_joins w' = caller_joins ex_running + length (thread_list ex_pool)).
Proof.
  apply (StopThreads_full_stop 0 ex_pool ex_sched ex_running);
    [reflexivity|exact ex_running_tracked|exact ex_running_owned].
Defined.

Lemma Instruct_enqueues_witness :
  Instruct (ex_task 1 None 0) [] ex_boot =
    Ret false []
      (emit Caller (E_log WARN "The singleton object is not initialized yet.") ex_boot) ∧
  Instruct (ex_task 1 None 0) [] ex_destroyed =
    Ret false []
      (emit Caller (E_log WARN "The singleton object is not initialized yet.")
         ex_destroyed) ∧
  ∃ w' evs,
    Instruct (ex_task 1 None 0) [] ex_running = Ret true [] w' ∧
    trace w' = trace ex_running ++ evs ∧
    caller_events evs = [E_push 0 (ex_task 1 None 0); E_post 0] ∧
    heap w' = {[0 := mk_pool false 1 true [0; 1] [ex_task 1 None 0]]}.
Proof.
  split_and!.
  - apply (proj1 (Instruct_enqueues (ex_task 1 None 0) [] ex_boot)). reflexivity.
  - apply (proj1 (proj2 (Instruct_enqueues (ex_task 1 None 0) [] ex_destroyed))
             () ex_sched ex_running).
    vm_compute. reflexivity.
  - destruct (proj2 (proj2 (Instruct_enqueues (ex_task 1 None 0) [] ex_running))
                0 ex_pool eq_refl eq_refl)
      as (w' & evs & Hrun & Htr & Hmine & _ & Hquiet).
    exists w', evs. split_and!; [exact Hrun|exact Htr|exact Hmine|].
    destruct (Hquiet eq_refl) as (_ & -> & _). apply insert_singleton_eq.
Defined.

Lemma worker_completes_task_witness :
  ∃ w1 w3,
    worker_step 0 ex_busy = Some w1 ∧ heap w1 = heap ex_busy ∧ csem w1 = csem ex_busy ∧
    worker_step 0 (run_actions [A_post 0; A_step 1] w1) = Some w3 ∧
    heap w3 = heap (run_actions [A_post 0; A_step 1] w1) ∧
    csem w3 = <[9 := S (default 0 (csem (run_actions [A_post 0; A_step 1] w1) !! 9))]>
                (csem (run_actions [A_post 0; A_step 1] w1)) ∧
    threads w3 !! 0 = Some (mk_thread (Some 0) W_loop) ∧
    ∃ evs, trace w3 = trace ex_busy ++ evs ∧
      worker_events 0 evs =
        [E_call (ex_task 2 (Some 9) 7) 7;
         E_log WARN "The instruction function returned with somthign error code(%ld).";
         E_signal 9].
Proof.
  apply (worker_completes_task 0 (Some 0) (ex_task 2 (Some 9) 7)
           [A_post 0; A_step 1] ex_busy); [reflexivity|].
  repeat constructor; discriminate.
Defined.

Lemma StartThreads_restarts_witness :
  ∃ s1 w1 o1 b s' w' o',
    StopThreads 0 ex_sched ex_scarce = Ret true s1 w1 ∧
    heap w1 !! 0 = Some o1 ∧ thread_list o1 = [] ∧ all_returned 0 w1 ∧
    thpoolman_sem o1 = 0 ∧
    StartThreads 0 3 ex_sched ex_scarce =
      (yield;; SetExitFlag 0 false;; create_loop 0 (Z.to_nat 3)) s1 w1 ∧
    StartThreads 0 3 ex_sched ex_scarce = Ret b s' w' ∧
    heap w' !! 0 = Some o' ∧
    (∀ t th, threads ex_scarce !! t = Some th → t_arg th = Some 0 →
       ∃ th', threads w' !! t = Some th' ∧ live th' = false) ∧
    (b = true ↔ Forall (λ rc, rc = 0%Z) (take (Z.to_nat 3) (create_tape ex_scarce))) ∧
    (b = true →
       thread_list o' = seq (length (threads ex_scarce)) (Z.to_nat 3) ∧
       length (thread_list o') = Z.to_nat 3 ∧
       is_exit o' = false ∧
       ∀ t, t ∈ thread_list o' → ∃ th, threads w' !! t = Some th ∧ t_arg th = Some 0) ∧
    (b = false → thread_list o' = [] ∧ all_returned 0 w').
Proof.
  apply (StartThreads_restarts 0 ex_pool 3 ex_sched ex_scarce
           eq_refl ex_running_tracked ex_running_owned); [lia|].
  right. reflexivity.
Defined.

Lemma Initialize_replaces_witness :
  Initialize 1 [[A_step 0; A_step 0; A_step 1]] ex_first =
    (log WARN "Already singleton for Thread Manager is existed, then re-create it.";;
     Destroy;;
     Initialize 1) [[A_step 0; A_step 0; A_step 1]] ex_first ∧
  (∃ p1, singleton ex_first = Some p1 ∧ ∀ a, is_Some (heap ex_first !! a) → a = p1) ∧
  (∃ p2 o2, singleton ex_second = Some p2 ∧
     (∀ a, is_Some (heap ex_second !! a) → a = p2) ∧
     heap ex_second !! p2 = Some o2 ∧
     thread_list o2 = seq (length (threads ex_first)) (Z.to_nat 1)) ∧
  ∀ t th, threads ex_first !! t = Some th →
    ∃ th', threads ex_second !! t = Some th' ∧ live th' = false ∧
      ∀ acts,
        worker_step t (run_actions acts ex_second) = None ∧
        ∃ evs, trace (run_actions acts ex_second) = trace ex_second ++ evs ∧
               worker_events t evs = [].
Proof.
  apply (Initialize_replaces 2 1 ex_restart_sched ex_boot true true
           [[A_step 0; A_step 0; A_step 1]] [] ex_first ex_second).
  - exact ex_boot_ok.
  - vm_compute. reflexivity.
  - vm_compute. reflexivity.
Defined.

Lemma Initialize_true_or_abort_witness :
  (∃ w', Initialize 0 [] ex_running = Aborted w') ∧
  (∃ w', Initialize 3 [] ex_scarce = Aborted w') ∧
  (∃ s' w' p o',
     Initialize 2 ex_sched ex_running = Ret true s' w' ∧
     singleton w' = Some p ∧ heap w' !! p = Some o' ∧
     length (thread_list o') = Z.to_nat 2 ∧ is_exit o' = false).
Proof.
  split_and!.
  - apply (proj1 (proj2 (Initialize_true_or_abort 0 [] ex_running ex_running_ok))).
    lia.
  - apply (proj1 (proj2 (proj2 (proj2
             (Initialize_true_or_abort 3 [] ex_scarce ex_running_ok))))); [lia|].
    right. intros H. vm_compute in H. inversion H as [|? ? _ H2]. subst.
    inversion H2 as [|? ? H3 _]. discriminate H3.
  - apply (proj2 (proj2 (proj2 (proj2
             (Initialize_true_or_abort 2 ex_sched ex_running ex_running_ok)))));
      [lia|by right|reflexivity|].
    vm_compute. constructor.
Defined.

Lemma worker_spurious_wake_witness :
  ∃ w1, worker_step 0 ex_spurious = Some w1 ∧
    heap w1 = heap ex_spurious ∧
    threads w1 !! 0 = Some (mk_thread (Some 0) W_loop) ∧
    ∃ w2, worker_step 0 w1 = Some w2 ∧ heap w2 = heap ex_spurious ∧
          threads w2 !! 0 = Some (mk_thread (Some 0) W_wait).
Proof.
  destruct (worker_spurious_wake 0 0 ex_pool ex_spurious eq_refl eq_refl)
    as (w1 & Hstep & Hempty & _).
  destruct (Hempty eq_refl) as (Hh & _ & _ & Hth & Hnext).
  exists w1. split_and!; [exact Hstep|exact Hh|exact Hth|].
  exact (Hnext eq_refl).
Defined.

Lemma ex_stale_ok : pool_ok 0 ex_stale.
Proof.
  split_and!.
  - by eexists.
  - intros t th Hth Ha Hl. eexists. split; [reflexivity|].
    destruct t as [|t]; simpl in Hth; [|discriminate Hth]. apply list_elem_of_here.
  - intros o t th Ho Hin Hth.
    destruct t as [|t]; simpl in Hth; [|discriminate Hth]. by simplify_eq.
Qed.

Lemma StopThreads_returns_true_witness :
  (∃ s' w', StopThreads 0 [] ex_stale = Ret true s' w') ∧
  join_loop [7] [] ex_stale =
    join_loop [] []
      (emit Caller (E_log ERR "failed pthread_join - result(%d)")
         (emit Caller (E_join 7 ESRCH) ex_stale)).
Proof.
  split.
  - apply (proj1 (proj2 (StopThreads_returns_true 0 [] ex_stale))). exact ex_stale_ok.
  - apply (proj2 (proj2 (StopThreads_returns_true 0 [] ex_stale)) 7 []). reflexivity.
Defined.

(** * Further properties

    What the code shows beyond the claims: invariants of the worker loop
    and of the wakeup protocol, the error paths of the life cycle, and
    how the calls of the class interface compose. *)

(** ** Partial correctness *)

Lemma wp_inv {A} (m : M A) E Q s w a s' w' :
  wp m E Q s w → m s w = Ret a s' w' → Q a s' w'.
Proof. unfold wp. intros H Hrun. by rewrite Hrun in H. Qed.

Lemma wp_and {A} (m : M A) (E E' : world → Prop) (Q Q' : A → sched → world → Prop) s w :
  wp m E Q s w → wp m E' Q' s w →
  wp m (λ w', E w' ∧ E' w') (λ a s' w', Q a s' w' ∧ Q' a s' w') s w.
Proof. unfold wp. destruct (m s w); auto. Qed.

Lemma bind_ret_inv {A B} (m : M A) (k : A → M B) s w b s' w' :
  (m ≫= k) s w = Ret b s' w' →
  ∃ a s1 w1, m s w = Ret a s1 w1 ∧ k a s1 w1 = Ret b s' w'.
Proof. rewrite bind_unfold. destruct (m s w) as [a s1 w1| |]; [|done..]. by eauto. Qed.

Lemma wp_hoare {A} (m : M A) E Q s w : wp m E Q s w → hoare m Q s w.
Proof. unfold wp, hoare. by destruct (m s w). Qed.

Lemma hoare_ret {A} (a : A) (Q : A → sched → world → Prop) s w :
  Q a s w → hoare (mret a) Q s w.
Proof. done. Qed.

Lemma hoare_bind {A B} (m : M A) (k : A → M B) Q s w :
  hoare m (λ a s' w', hoare (k a) Q s' w') s w → hoare (m ≫= k) Q s w.
Proof. unfold hoare, mbind, M_bind. by destruct (m s w). Qed.

Lemma hoare_mono {A} (m : M A) (Q Q' : A → sched → world → Prop) s w :
  hoare m Q s w → (∀ a s' w', Q a s' w' → Q' a s' w') → hoare m Q' s w.
Proof. unfold hoare. destruct (m s w); auto. Qed.

Lemma hoare_and {A} (m : M A) (Q Q' : A → sched → world → Prop) s w :
  hoare m Q s w → hoare m Q' s w → hoare m (λ a s' w', Q a s' w' ∧ Q' a s' w') s w.
Proof. unfold hoare. destruct (m s w); auto. Qed.

Lemma hoare_true {A} (m : M A) s w : hoare m (λ _ _ _, True) s w.
Proof. unfold hoare. by destruct (m s w). Qed.

Lemma hoare_inv {A} (m : M A) Q s w a s' w' :
  hoare m Q s w → m s w = Ret a s' w' → Q a s' w'.
Proof. unfold hoare. intros H Hrun. by rewrite Hrun in H. Qed.

Lemma hoare_modify (f : world → world) (Q : unit → sched → world → Prop) s w :
  Q () s (f w) → hoare (modify f) Q s w.
Proof. done. Qed.

Lemma hoare_log lv msg (Q : unit → sched → world → Prop) s w :
  Q () s (emit Caller (E_log lv msg) w) → hoare (log lv msg) Q s w.
Proof. done. Qed.

Lemma hoare_get_world (Q : world → sched → world → Prop) s w :
  Q w s w → hoare get_world Q s w.
Proof. done. Qed.

Lemma hoare_abort {A} (Q : A → sched → world → Prop) s w : hoare abort Q s w.
Proof. done. Qed.

Lemma hoare_get_obj this (Q : ThreadPoolMan → sched → world → Prop) s w :
  (∀ o, heap w !! this = Some o → Q o s w) → hoare (get_obj this) Q s w.
Proof. unfold hoare, get_obj. intros HQ. destruct (heap w !! this); auto. Qed.

Lemma hoare_modify_obj this f (Q : unit → sched → world → Prop) s w :
  (∀ o, heap w !! this = Some o → Q () s (put_obj this (f o) w)) →
  hoare (modify_obj this f) Q s w.
Proof.
  intros HQ. unfold modify_obj. apply hoare_bind, hoare_get_obj. intros o Ho.
  by apply hoare_modify, HQ.
Qed.

Lemma hoare_try_modify f (Q : unit → sched → world → Prop) s w :
  (∀ w', f w = Some w' → Q () s w') → hoare (try_modify f) Q s w.
Proof. unfold hoare, try_modify. intros HQ. destruct (f w); auto. Qed.

Lemma hoare_yield (Q : unit → sched → world → Prop) s w :
  (∀ c, c = default [] (head s) → Q () (tail s) (run_actions c w)) →
  hoare yield Q s w.
Proof.
  intros HQ. unfold hoare, yield. destruct s as [|c s'];
    [apply (HQ []) | apply (HQ c)]; done.
Qed.

(** Every [return] of [StopThreads] is [return true]. *)
Lemma hoare_StopThreads_true this s w :
  hoare (StopThreads this) (λ b _ _, b = true) s w.
Proof.
  unfold StopThreads. apply hoare_bind, hoare_get_obj. intros o Ho.
  destruct (bool_decide (thread_list o = [])).
  { by apply hoare_bind, hoare_log, hoare_ret. }
  repeat (apply hoare_bind; eapply hoare_mono; [apply hoare_true|]; intros ? ? ? _).
  by apply hoare_ret.
Qed.

(** On an empty worker list [StopThreads] only writes to the log. *)
Lemma hoare_StopThreads_empty this o s w :
  heap w !! this = Some o → thread_list o = [] →
  hoare (StopThreads this)
    (λ b s' w', b = true ∧ s' = s ∧
       w' = emit Caller (E_log INFO "Any threads are running now, then nothing to do.") w)
    s w.
Proof.
  intros Ho Hl. unfold StopThreads. apply hoare_bind, hoare_get_obj.
  intros o' Ho'. simplify_eq. rewrite bool_decide_eq_true_2 by done.
  by apply hoare_bind, hoare_log, hoare_ret.
Qed.

(** ** Calls take their interference from the front of the schedule *)

Lemma consumes_ret {A} (a : A) : consumes (mret a).
Proof. intros s w. by apply hoare_ret. Qed.

Lemma consumes_bind {A B} (m : M A) (k : A → M B) :
  consumes m → (∀ a, consumes (k a)) → consumes (m ≫= k).
Proof.
  intros Hm Hk s w. apply hoare_bind. eapply hoare_mono; [apply Hm|].
  intros a s' w' Hs'. eapply hoare_mono; [apply Hk|].
  intros b s'' w'' Hs''. simpl in *. by etrans.
Qed.

Lemma consumes_yield : consumes yield.
Proof.
  intros s w. apply hoare_yield. intros c _. destruct s as [|c' s']; simpl; [done|].
  by apply suffix_cons_r.
Qed.

Lemma consumes_modify f : consumes (modify f).
Proof. intros s w. by apply hoare_modify. Qed.

Lemma consumes_log lv msg : consumes (log lv msg).
Proof. intros s w. by apply hoare_log. Qed.

Lemma consumes_get_world : consumes get_world.
Proof. intros s w. by apply hoare_get_world. Qed.

Lemma consumes_abort {A} : consumes (abort (A := A)).
Proof. intros s w. apply hoare_abort. Qed.

Lemma consumes_get_obj this : consumes (get_obj this).
Proof. intros s w. by apply hoare_get_obj. Qed.

Lemma consumes_modify_obj this f : consumes (modify_obj this f).
Proof. intros s w. by apply hoare_modify_obj. Qed.

Lemma consumes_try_modify f : consumes (try_modify f).
Proof. intros s w. by apply hoare_try_modify. Qed.

Lemma consumes_pthread_create arg : consumes (pthread_create arg).
Proof. intros s w. unfold hoare, pthread_create. by case_bool_decide. Qed.

Lemma consumes_pthread_join t : consumes (pthread_join t).
Proof.
  intros s w. unfold hoare, pthread_join.
  destruct (threads w !! t) as [th|]; [|done].
  destruct (t_pc th); try done.
  all: destruct (run_to_exit t (join_fuel t w) w) as [w'|]; [|done].
  all: by destruct (t_pc <$> threads w' !! t) as [[]|].
Qed.

Ltac consumes_with tac :=
  repeat first
    [ tac
    | apply consumes_ret | apply consumes_yield | apply consumes_modify
    | apply consumes_log | apply consumes_get_world | apply consumes_abort
    | apply consumes_get_obj | apply consumes_modify_obj | apply consumes_try_modify
    | apply consumes_pthread_create | apply consumes_pthread_join
    | match goal with
      | |- consumes (if ?b then _ else _) => destruct b
      | |- consumes (match ?x with _ => _ end) => destruct x
      | |- consumes (_ ≫= _) => apply consumes_bind; [|intros ?]
      end ].

Lemma consumes_post_loop this n : consumes (post_loop this n).
Proof. induction n as [|n IH]; simpl; consumes_with ltac:(apply IH). Qed.

Lemma consumes_join_loop l : consumes (join_loop l).
Proof. induction l as [|t l IH]; simpl; consumes_with ltac:(apply IH). Qed.

Lemma consumes_drain_loop this fuel : consumes (drain_loop this fuel).
Proof.
  induction fuel as [|fuel IH]; simpl; [by intros s w|].
  consumes_with ltac:(apply IH).
Qed.

Lemma consumes_drain this : consumes (drain this).
Proof. intros s w. unfold drain. apply consumes_drain_loop. Qed.

Lemma consumes_StopThreads this : consumes (StopThreads this).
Proof.
  unfold StopThreads, SetExitFlag.
  consumes_with ltac:(first [apply consumes_post_loop | apply consumes_join_loop
                            | apply consumes_drain]).
Qed.

Lemma consumes_Destroy : consumes Destroy.
Proof.
  unfold Destroy, delete_ThreadPoolMan.
  consumes_with ltac:(apply consumes_StopThreads).
Qed.

Lemma no_client_suffix s s' : s' `suffix_of` s → no_client s = true → no_client s' = true.
Proof.
  intros [k ->]. unfold no_client. rewrite forallb_app. by intros [_ ?]%andb_true_iff.
Qed.

Lemma no_client_head s : no_client s = true → forallb is_step (default [] (head s)) = true.
Proof. destruct s as [|c s]; simpl; [done|]. by intros [? _]%andb_true_iff. Qed.

Lemma no_client_tail s : no_client s = true → no_client (tail s) = true.
Proof. destruct s as [|c s]; simpl; [done|]. by intros [_ ?]%andb_true_iff. Qed.

(** ** What a worker does with a task *)

(** The events of one step of a worker: what it takes from the queue it
    holds until it calls it, and what it owes to a completion signal it
    pays with its next step. *)
Lemma worker_body_events t th w pc' w1 :
  worker_body t th w = Some (pc', w1) →
  ∃ l, trace w1 = trace w ++ ((λ e, (Thr t, e)) <$> l) ∧
    in_hand (t_pc th) ++ taken l = called l ++ in_hand pc' ∧
    owed (t_pc th) ++ omap psem (called l) = signalled l ++ owed pc' ∧
    (∀ a, t_arg th = Some a → pops a l = taken l) ∧
    (∀ h, default 0 (csem w1 !! h) = default 0 (csem w !! h) + occurrences h (signalled l)).
Proof.
  intros H.
  assert (∀ h : sem_handle, occurrences h [] = 0) as Hnil by done.
  worker_cases H; simpl.
  all: first [ exists []; simpl; rewrite ?app_nil_r; split; [reflexivity|]
             | eexists [_]; simpl; split; [reflexivity|]
             | eexists [_; _]; simpl; rewrite <- app_assoc; split; [reflexivity|] ].
  all: simpl; rewrite ?Hp; simpl; split_and!; try done.
  all: try (intros ? [= <-]; unfold pops; simpl; by rewrite ?bool_decide_eq_true_2).
  all: try (intros; lia).
  all: intros h'; unfold occurrences; simpl.
  all: case_bool_decide as Hh; simpl;
    [subst; rewrite lookup_insert_eq; simpl; unfold sem_post; lia
    |rewrite lookup_insert_ne by done; lia].
Qed.

Lemma worker_step_events t th w w' :
  worker_step t w = Some w' → threads w !! t = Some th →
  ∃ pc' l, threads w' !! t = Some (mk_thread (t_arg th) pc') ∧
    trace w' = trace w ++ ((λ e, (Thr t, e)) <$> l) ∧
    in_hand (t_pc th) ++ taken l = called l ++ in_hand pc' ∧
    owed (t_pc th) ++ omap psem (called l) = signalled l ++ owed pc' ∧
    (∀ a, t_arg th = Some a → pops a l = taken l) ∧
    (∀ h, default 0 (csem w' !! h) = default 0 (csem w !! h) + occurrences h (signalled l)).
Proof.
  intros (th0 & pc' & w1 & Hth0 & Hb & ->)%worker_step_unfold Hth. simplify_eq.
  destruct (worker_body_events _ _ _ _ _ Hb) as (l & Htr & H1 & H2 & H3 & H4).
  destruct (worker_body_inv _ _ _ _ _ Hb) as (_ & Ht & _).
  exists pc', l. split_and!; [|done..].
  simpl. rewrite Ht. apply list_lookup_insert_eq. by eapply lookup_lt_Some.
Qed.

Lemma worker_events_pair t (l : list event) :
  worker_events t ((λ e, (Thr t, e)) <$> l) = l.
Proof.
  induction l as [|e l IH]; [done|].
  rewrite fmap_cons, worker_events_cons, bool_decide_eq_true_2 by done. by rewrite IH.
Qed.

Lemma worker_events_app t e1 e2 :
  worker_events t (e1 ++ e2) = worker_events t e1 ++ worker_events t e2.
Proof. unfold worker_events. by rewrite omap_app. Qed.

(** X1.  Whatever the threads of the process do, a worker calls exactly
    the descriptors it has dequeued, each once and in the order in which
    it dequeued them: its calls are its dequeues, but for the descriptor
    it holds between the dequeue and the call.  After every call of a
    descriptor with a completion signal it posts that signal once, and it
    posts no other: its posts are the signals of its calls, but for the
    one it owes between the call and the post. *)
Theorem worker_runs_each_task_once (t : pthread_t) (th : thread)
    (acts : list action) (w : world) :
  threads w !! t = Some th →
  ∃ th' evs,
    threads (run_actions acts w) !! t = Some th' ∧ t_arg th' = t_arg th ∧
    trace (run_actions acts w) = trace w ++ evs ∧
    in_hand (t_pc th) ++ taken (worker_events t evs) =
      called (worker_events t evs) ++ in_hand (t_pc th') ∧
    owed (t_pc th) ++ omap psem (called (worker_events t evs)) =
      signalled (worker_events t evs) ++ owed (t_pc th').
Proof.
  revert w th. induction acts as [|act acts IH]; intros w th Hth; simpl.
  - exists th, []. rewrite !app_nil_r. by split_and!.
  - assert (∃ th1 e1, threads (apply_action act w) !! t = Some th1 ∧
              t_arg th1 = t_arg th ∧
              trace (apply_action act w) = trace w ++ e1 ∧
              in_hand (t_pc th) ++ taken (worker_events t e1) =
                called (worker_events t e1) ++ in_hand (t_pc th1) ∧
              owed (t_pc th) ++ omap psem (called (worker_events t e1)) =
                signalled (worker_events t e1) ++ owed (t_pc th1))
      as (th1 & e1 & Hth1 & Ha1 & Htr1 & Hh1 & Ho1).
    { assert ((act = A_step t → worker_step t w = None) →
              ∃ th1 e1, threads (apply_action act w) !! t = Some th1 ∧
                t_arg th1 = t_arg th ∧
                trace (apply_action act w) = trace w ++ e1 ∧
                in_hand (t_pc th) ++ taken (worker_events t e1) =
                  called (worker_events t e1) ++ in_hand (t_pc th1) ∧
                owed (t_pc th) ++ omap psem (called (worker_events t e1)) =
                  signalled (worker_events t e1) ++ owed (t_pc th1)) as Hother.
      { intros Hact. destruct (apply_action_other t act w Hact) as (Ht1 & e1 & Htr1 & He1).
        exists th, e1. rewrite He1. simpl. rewrite !app_nil_r.
        split_and!; [congruence|done..]. }
      destruct act as [t'|b p|b]; [|by apply Hother..].
      destruct (decide (t' = t)) as [->|Hne]; [|apply Hother; congruence].
      destruct (worker_step t w) as [w'|] eqn:Hw'; [|by apply Hother].
      simpl. rewrite Hw'. simpl.
      destruct (worker_step_events _ _ _ _ Hw' Hth) as (pc' & l & Ht' & Htr & H1 & H2 & _).
      eexists _, _. split_and!; [done|done|done|..]; by rewrite worker_events_pair. }
    destruct (IH (apply_action act w) th1 Hth1) as (th2 & e2 & Hth2 & Ha2 & Htr2 & Hh2 & Ho2).
    exists th2, (e1 ++ e2). rewrite worker_events_app.
    unfold taken, called, signalled in *. rewrite !omap_app.
    split_and!; [done|congruence|by rewrite Htr2, Htr1, app_assoc|..].
    + rewrite app_assoc, Hh1, <- app_assoc, Hh2, app_assoc. done.
    + rewrite app_assoc, Ho1, <- app_assoc, Ho2, app_assoc. done.
Qed.

Lemma called_app l1 l2 : called (l1 ++ l2) = called l1 ++ called l2.
Proof. apply omap_app. Qed.

Lemma pops_app a l1 l2 : pops a (l1 ++ l2) = pops a l1 ++ pops a l2.
Proof. apply omap_app. Qed.

Lemma fmap_snd_pair (who : actor) (l : list event) : ((λ e, (who, e)) <$> l).*2 = l.
Proof. rewrite <- list_fmap_compose. apply list_fmap_id. Qed.

Lemma solo_hand a t th acts w :
  threads w !! t = Some th → t_arg th = Some a →
  forallb (solo t) acts = true →
  ∃ th' evs,
    threads (run_actions acts w) !! t = Some th' ∧ t_arg th' = Some a ∧
    trace (run_actions acts w) = trace w ++ evs ∧
    in_hand (t_pc th) ++ pops a evs.*2 = called evs.*2 ++ in_hand (t_pc th').
Proof.
  revert w th. induction acts as [|act acts IH]; intros w th Hth Ha Hsolo; simpl.
  - exists th, []. rewrite !app_nil_r. by split_and!.
  - simpl in Hsolo. apply andb_true_iff in Hsolo as [Hact Hsolo].
    assert (∃ th1 e1, threads (apply_action act w) !! t = Some th1 ∧
              t_arg th1 = Some a ∧
              trace (apply_action act w) = trace w ++ e1 ∧
              in_hand (t_pc th) ++ pops a e1.*2 = called e1.*2 ++ in_hand (t_pc th1))
      as (th1 & e1 & Hth1 & Ha1 & Htr1 & Hh1).
    { assert (∃ th1 e1, threads w !! t = Some th1 ∧ t_arg th1 = Some a ∧
                trace w = trace w ++ e1 ∧
                in_hand (t_pc th) ++ pops a e1.*2 = called e1.*2 ++ in_hand (t_pc th1))
        as Hnop.
      { exists th, []. rewrite !app_nil_r. by split_and!. }
      destruct act as [t'|b p|b]; simpl in *.
      - apply bool_decide_eq_true in Hact as ->.
        destruct (worker_step t w) as [w'|] eqn:Hw'; simpl; [|done].
        destruct (worker_step_events _ _ _ _ Hw' Hth)
          as (pc' & l & Ht' & Htr & H1 & _ & Hp & _).
        eexists _, _. split_and!; [done|done|done|].
        rewrite fmap_snd_pair. simpl. by rewrite (Hp a Ha).
      - unfold push_instruction. destruct (heap w !! b); simpl; [|done].
        exists th, [(Racer, E_push b p)]. simpl. rewrite app_nil_r. by split_and!.
      - unfold post_wakeup. destruct (heap w !! b); simpl; [|done].
        exists th, [(Racer, E_post b)]. simpl. rewrite app_nil_r. by split_and!. }
    destruct (IH (apply_action act w) th1 Hth1 Ha1 Hsolo) as (th2 & e2 & Hth2 & Ha2 & Htr2 & Hh2).
    exists th2, (e1 ++ e2). rewrite fmap_app, pops_app, called_app.
    split_and!; [done|done|by rewrite Htr2, Htr1, app_assoc|].
    rewrite app_assoc, Hh1, <- app_assoc, Hh2, app_assoc. done.
Qed.

(** X2.  With one worker, tasks run in the order of their submission.
    When no worker but [t] moves, whatever the clients push and post in
    between, the descriptors called so far, the one the worker holds and
    the ones still queued are, in this order, what was queued at the start
    followed by what was pushed since: no task is skipped, run twice or
    run out of turn. *)
Theorem single_worker_in_order (a : addr) (t : pthread_t) (th : thread)
    (acts : list action) (w : world) :
  threads w !! t = Some th → t_arg th = Some a → in_hand (t_pc th) = [] →
  forallb (solo t) acts = true →
  ∃ th' evs,
    threads (run_actions acts w) !! t = Some th' ∧
    trace (run_actions acts w) = trace w ++ evs ∧
    called evs.*2 ++ in_hand (t_pc th') ++ queue_of a (run_actions acts w) =
      queue_of a w ++ pushes a evs.*2 ∧
    called evs.*2 `prefix_of` queue_of a w ++ pushes a evs.*2.
Proof.
  intros Hth Ha Hhand Hsolo.
  destruct (solo_hand a t th acts w Hth Ha Hsolo) as (th' & evs & Hth' & _ & Htr & Hh).
  destruct (run_actions_ledger a False acts w) as (evs' & Htr' & Hq & _); [done|].
  assert (evs' = evs) as -> by (apply (app_inv_head (trace w)); congruence).
  rewrite Hhand in Hh. simpl in Hh.
  assert (called evs.*2 ++ in_hand (t_pc th') ++ queue_of a (run_actions acts w) =
          queue_of a w ++ pushes a evs.*2) as Heq.
  { by rewrite Hq, Hh, app_assoc. }
  exists th', evs. split_and!; [done..|]. rewrite <- Heq. by eexists.
Qed.

Lemma occurrences_app h l1 l2 :
  occurrences h (l1 ++ l2) = occurrences h l1 + occurrences h l2.
Proof. apply countb_app. Qed.

Lemma signalled_app l1 l2 : signalled (l1 ++ l2) = signalled l1 ++ signalled l2.
Proof. apply omap_app. Qed.

Lemma apply_action_csem act w :
  ∃ evs, trace (apply_action act w) = trace w ++ evs ∧
    ∀ h, default 0 (csem (apply_action act w) !! h) =
         default 0 (csem w !! h) + occurrences h (signalled evs.*2).
Proof.
  assert (∃ evs, trace w = trace w ++ evs ∧
            ∀ h, default 0 (csem w !! h) =
                 default 0 (csem w !! h) + occurrences h (signalled evs.*2)) as Hnop.
  { exists []. rewrite app_nil_r. split; [done|]. intros h. unfold occurrences. simpl. lia. }
  destruct act as [t|b p|b]; simpl.
  - destruct (worker_step t w) as [w'|] eqn:Hw'; simpl; [|done].
    destruct (threads w !! t) as [th|] eqn:Hth;
      [|by unfold worker_step in Hw'; rewrite Hth in Hw'].
    destruct (worker_step_events _ _ _ _ Hw' Hth) as (pc' & l & _ & Htr & _ & _ & _ & Hc).
    eexists. split; [done|]. intros h. rewrite Hc. do 3 f_equal.
    rewrite <- list_fmap_compose. symmetry. apply list_fmap_id.
  - unfold push_instruction. destruct (heap w !! b); simpl; [|done].
    eexists [_]. split; [done|]. intros h. unfold occurrences. simpl. lia.
  - unfold post_wakeup. destruct (heap w !! b); simpl; [|done].
    eexists [_]. split; [done|]. intros h. unfold occurrences. simpl. lia.
Qed.

(** X3.  The workers and the racing clients change a completion semaphore
    only by posting it: after any sequence of their steps the count of
    every handle is its old count plus the number of times it was
    signalled.  The pool never resets, drains or waits on a caller's
    semaphore. *)
Theorem completion_signals_counted (acts : list action) (w : world) :
  ∃ evs, trace (run_actions acts w) = trace w ++ evs ∧
    ∀ h, default 0 (csem (run_actions acts w) !! h) =
         default 0 (csem w !! h) + occurrences h (signalled evs.*2).
Proof.
  revert w. induction acts as [|act acts IH]; intros w; simpl.
  - exists []. rewrite app_nil_r. split; [done|]. intros h. unfold occurrences. simpl. lia.
  - destruct (apply_action_csem act w) as (e1 & Htr1 & Hc1).
    destruct (IH (apply_action act w)) as (e2 & Htr2 & Hc2).
    exists (e1 ++ e2). split; [by rewrite Htr2, Htr1, app_assoc|].
    intros h. rewrite Hc2, Hc1, fmap_app, signalled_app, occurrences_app. lia.
Qed.

(** ** When a worker returns *)

(** A worker of a pool whose exit flag is clear does not return. *)
Lemma worker_step_alive a o t t' th w w' :
  worker_step t' w = Some w' →
  threads w !! t = Some th → t_arg th = Some a → live th = true →
  heap w !! a = Some o → is_exit o = false →
  ∃ th', threads w' !! t = Some th' ∧ t_arg th' = Some a ∧ live th' = true.
Proof.
  intros (th0 & pc' & w1 & Hth0 & Hb & ->)%worker_step_unfold Hth Ha Hl Ho Hex.
  pose proof (worker_body_inv _ _ _ _ _ Hb) as (_ & Ht & _).
  destruct (decide (t' = t)) as [->|Hne].
  - assert (th0 = th) as -> by congruence.
    exists (mk_thread (t_arg th) pc'). simpl. rewrite Ht.
    rewrite list_lookup_insert_eq by (by eapply lookup_lt_Some).
    split_and!; [done..|].
    worker_cases Hb; simpl in *; simplify_eq; try done; congruence.
  - exists th. simpl. rewrite Ht, list_lookup_insert_ne by done. done.
Qed.

Lemma apply_action_alive a o t th act w :
  threads w !! t = Some th → t_arg th = Some a → live th = true →
  heap w !! a = Some o → is_exit o = false →
  ∃ th', threads (apply_action act w) !! t = Some th' ∧ t_arg th' = Some a ∧
         live th' = true.
Proof.
  intros Hth Ha Hl Ho Hex. destruct act as [t'|b p|b]; simpl.
  - destruct (worker_step t' w) as [w'|] eqn:Hw'; simpl; [|by exists th].
    by eapply worker_step_alive.
  - unfold push_instruction. destruct (heap w !! b); simpl; by exists th.
  - unfold post_wakeup. destruct (heap w !! b); simpl; by exists th.
Qed.

Lemma run_actions_alive a o t th acts w :
  threads w !! t = Some th → t_arg th = Some a → live th = true →
  heap w !! a = Some o → is_exit o = false →
  ∃ th', threads (run_actions acts w) !! t = Some th' ∧ t_arg th' = Some a ∧
         live th' = true.
Proof.
  revert w th o. induction acts as [|act acts IH]; intros w th o Hth Ha Hl Ho Hex; simpl.
  - by exists th.
  - destruct (apply_action_alive a o t th act w) as (th1 & Hth1 & Ha1 & Hl1); [done..|].
    destruct (quiet_obj _ _ _ _ (apply_action_quiet act w) Ho) as (o1 & Ho1 & Hex1 & _).
    eapply IH; [done..|congruence].
Qed.

(** X4.  A worker returns only when it reads the exit flag as set.  While
    the exit flag of its pool is clear, a worker that has not returned
    does not return, whatever the tasks return, however often it is woken
    for nothing and whatever the other threads and the racing clients
    do; and none of them sets the exit flag. *)
Theorem worker_returns_only_on_exit (a : addr) (o : ThreadPoolMan) (t : pthread_t)
    (th : thread) (acts : list action) (w : world) :
  threads w !! t = Some th → t_arg th = Some a → live th = true →
  heap w !! a = Some o → is_exit o = false →
  ∃ th' o', threads (run_actions acts w) !! t = Some th' ∧ t_arg th' = Some a ∧
    live th' = true ∧
    heap (run_actions acts w) !! a = Some o' ∧ is_exit o' = false.
Proof.
  intros Hth Ha Hl Ho Hex.
  destruct (run_actions_alive a o t th acts w) as (th' & Hth' & Ha' & Hl'); [done..|].
  destruct (quiet_obj _ _ _ _ (run_actions_quiet acts w) Ho) as (o' & Ho' & Hex' & _).
  exists th', o'. split_and!; [done..|congruence].
Qed.

(** A worker that is not inside the wait on a zero count can move. *)
Lemma worker_enabled a o t th w :
  threads w !! t = Some th → t_arg th = Some a → live th = true →
  heap w !! a = Some o → t_pc th ≠ W_wait ∨ thpoolman_sem o ≠ 0 →
  is_Some (worker_step t w).
Proof.
  intros Hth Ha Hl Ho Hcan. destruct th as [arg pc]. simpl in *. subst arg.
  unfold worker_step. rewrite Hth. simpl. unfold worker_body. simpl.
  destruct pc; simpl in *; try done; rewrite ?Ho; simpl.
  all: repeat match goal with
       | |- context [if ?b then _ else _] => destruct b eqn:?
       | |- context [psem ?p] => destruct (psem p)
       | |- context [thpoolman_sem ?o] => destruct (thpoolman_sem o) eqn:?
       | |- context [instruction_list ?o] => destruct (instruction_list o) eqn:?
       end; simpl; try done.
  by destruct Hcan.
Qed.

(** ** A worker that was started without a pool *)

Lemma worker_step_at t th w pc' w1 :
  threads w !! t = Some th → worker_body t th w = Some (pc', w1) →
  worker_step t w = Some (set_pc t th pc' w1).
Proof. intros Hth Hb. unfold worker_step. rewrite Hth. simpl. by rewrite Hb. Qed.

Lemma set_pc_lookup t th pc w :
  t < length (threads w) → threads (set_pc t th pc w) !! t = Some (mk_thread (t_arg th) pc).
Proof. intros Hlt. simpl. by apply list_lookup_insert_eq. Qed.

Lemma run_to_exit_done t th r fuel w :
  threads w !! t = Some th → t_pc th = W_exit r → run_to_exit t fuel w = Some w.
Proof. intros Hth Hpc. destruct fuel; simpl; by rewrite Hth, Hpc. Qed.

Lemma run_to_exit_step t th fuel w w1 :
  threads w !! t = Some th → live th = true → worker_step t w = Some w1 →
  run_to_exit t (S fuel) w = run_to_exit t fuel w1.
Proof.
  intros Hth Hl Hw. cbn [run_to_exit]. rewrite Hth, Hw.
  destruct th as [arg pc]. by destruct pc.
Qed.

Lemma pthread_join_unfold t th s w :
  threads w !! t = Some th → live th = true →
  pthread_join t s w =
  match run_to_exit t (join_fuel t w) w with
  | None => Stuck w
  | Some w' =>
      match t_pc <$> threads w' !! t with
      | Some (W_exit retval) =>
          Ret (0%Z, retval) s (emit Caller (E_join t 0%Z) (set_pc t th W_reaped w'))
      | _ => Stuck w'
      end
  end.
Proof.
  intros Hth Hl. unfold pthread_join. rewrite Hth.
  destruct th as [arg pc]. by destruct pc.
Qed.

(** X6.  A worker whose argument is null logs one error and returns -EIO
    in its first step: it touches no pool object and no completion
    signal, it never moves again, and [pthread_join] on it succeeds and
    yields -5. *)
Theorem worker_without_pool (t : pthread_t) (w : world) :
  threads w !! t = Some (mk_thread None W_start) →
  ∃ w1, worker_step t w = Some w1 ∧
    heap w1 = heap w ∧ csem w1 = csem w ∧
    trace w1 = trace w ++
      [(Thr t, E_log ERR "The parameter for worker thread is invalid.")] ∧
    threads w1 !! t = Some (mk_thread None (W_exit (-5))) ∧
    (∀ acts, worker_step t (run_actions acts w1) = None) ∧
    ∀ s, ∃ w2, pthread_join t s w = Ret (0%Z, (-5)%Z) s w2 ∧ heap w2 = heap w ∧
      threads w2 !! t = Some (mk_thread None W_reaped).
Proof.
  intros Hth. pose proof (lookup_lt_Some _ _ _ Hth) as Hlt.
  pose proof (worker_step_at t _ w (W_exit (-5))
                (emit (Thr t) (E_log ERR "The parameter for worker thread is invalid.") w)
                Hth eq_refl) as H1.
  remember (set_pc t (mk_thread None W_start) (W_exit (-5))
              (emit (Thr t) (E_log ERR "The parameter for worker thread is invalid.") w))
    as w1 eqn:E1.
  assert (threads w1 !! t = Some (mk_thread None (W_exit (-5)))) as Hth1.
  { subst w1. by apply set_pc_lookup. }
  exists w1. split_and!; [done|by subst w1..|done| |].
  - intros acts. destruct (returned_forever t _ acts w1 Hth1 eq_refl) as (Hth2 & _).
    by eapply worker_step_returned.
  - intros s. rewrite (pthread_join_unfold t _ s w Hth eq_refl).
    assert (join_fuel t w = 7) as -> by (unfold join_fuel; by rewrite Hth).
    rewrite (run_to_exit_step t _ 6 w w1 Hth eq_refl H1).
    rewrite (run_to_exit_done t _ _ 6 w1 Hth1 eq_refl), Hth1.
    eexists. split_and!; [reflexivity|by subst w1|].
    apply set_pc_lookup. by eapply lookup_lt_Some.
Qed.

(** ** From the submission to the completion signal *)

Lemma step_wait t a o n w :
  threads w !! t = Some (mk_thread (Some a) W_wait) →
  heap w !! a = Some o → thpoolman_sem o = S n →
  worker_step t w =
  Some (set_pc t (mk_thread (Some a) W_wait) W_woken (put_obj a (set_sem n o) w)).
Proof.
  intros Hth Ho Hs. apply worker_step_at; [done|]. unfold worker_body. simpl.
  rewrite Ho. simpl. by rewrite Hs.
Qed.

Lemma step_woken t a o w :
  threads w !! t = Some (mk_thread (Some a) W_woken) →
  heap w !! a = Some o → is_exit o = false →
  worker_step t w = Some (set_pc t (mk_thread (Some a) W_woken) W_fetch w).
Proof.
  intros Hth Ho Hex. apply worker_step_at; [done|]. unfold worker_body. simpl.
  rewrite Ho. simpl. by rewrite Hex.
Qed.

Lemma step_fetch t a o p rest w :
  threads w !! t = Some (mk_thread (Some a) W_fetch) →
  heap w !! a = Some o → instruction_list o = p :: rest →
  worker_step t w =
  Some (set_pc t (mk_thread (Some a) W_fetch) (W_call p)
          (emit (Thr t) (E_pop a p) (put_obj a (set_instruction_list rest o) w))).
Proof.
  intros Hth Ho Hq. apply worker_step_at; [done|]. unfold worker_body. simpl.
  rewrite Ho. simpl. by rewrite Hq.
Qed.

Lemma step_call t arg p w :
  threads w !! t = Some (mk_thread arg (W_call p)) →
  worker_step t w =
  Some (set_pc t (mk_thread arg (W_call p)) (W_post p)
          (if bool_decide (pfunc p (args p) = 0%Z)
           then emit (Thr t) (E_call p (pfunc p (args p))) w
           else emit (Thr t)
                  (E_log WARN "The instruction function returned with somthign error code(%ld).")
                  (emit (Thr t) (E_call p (pfunc p (args p))) w))).
Proof.
  intros Hth. apply worker_step_at; [done|]. unfold worker_body. simpl.
  by destruct (bool_decide _).
Qed.

Lemma step_post t arg p w :
  threads w !! t = Some (mk_thread arg (W_post p)) →
  worker_step t w =
  Some (set_pc t (mk_thread arg (W_post p)) W_loop
          (match psem p with
           | Some h => emit (Thr t) (E_signal h) (signal h w)
           | None => w
           end)).
Proof.
  intros Hth. apply worker_step_at; [done|]. unfold worker_body. simpl.
  by destruct (psem p).
Qed.

(** One round of a worker that is inside the wait while a wakeup is
    pending and a task is queued. *)
Lemma worker_round a o t n p rest w :
  threads w !! t = Some (mk_thread (Some a) W_wait) →
  heap w !! a = Some o → is_exit o = false →
  thpoolman_sem o = S n → instruction_list o = p :: rest →
  ∃ w', worker_run t 5 w = Some w' ∧
    heap w' = <[a := mk_pool false n (is_lock_init o) (thread_list o) rest]> (heap w) ∧
    threads w' = <[t := mk_thread (Some a) W_loop]> (threads w) ∧
    csem w' = match psem p with
              | Some h => <[h := S (default 0 (csem w !! h))]> (csem w)
              | None => csem w
              end ∧
    trace w' = trace w ++
      ((λ e, (Thr t, e)) <$>
         [E_pop a p; E_call p (pfunc p (args p))] ++
         (if bool_decide (pfunc p (args p) = 0%Z) then []
          else [E_log WARN "The instruction function returned with somthign error code(%ld)."]) ++
         option_list (E_signal <$> psem p)) ∧
    singleton w' = singleton w ∧ next_addr w' = next_addr w.
Proof.
  intros Hth Ho Hex Hsem Hq.
  pose proof (lookup_lt_Some _ _ _ Hth) as Hlt.
  pose proof (step_wait t a o n w Hth Ho Hsem) as H1.
  remember (set_pc t (mk_thread (Some a) W_wait) W_woken (put_obj a (set_sem n o) w))
    as w1 eqn:E1.
  assert (threads w1 !! t = Some (mk_thread (Some a) W_woken)) as Hth1.
  { subst w1. by apply set_pc_lookup. }
  assert (heap w1 !! a = Some (set_sem n o)) as Ho1.
  { subst w1. simpl. by rewrite lookup_insert_eq. }
  pose proof (step_woken t a _ w1 Hth1 Ho1 Hex) as H2.
  remember (set_pc t (mk_thread (Some a) W_woken) W_fetch w1) as w2 eqn:E2.
  assert (threads w2 !! t = Some (mk_thread (Some a) W_fetch)) as Hth2.
  { subst w2. apply set_pc_lookup. by eapply lookup_lt_Some. }
  assert (heap w2 !! a = Some (set_sem n o)) as Ho2 by (by subst w2).
  pose proof (step_fetch t a _ p rest w2 Hth2 Ho2 Hq) as H3.
  remember (set_pc t (mk_thread (Some a) W_fetch) (W_call p)
              (emit (Thr t) (E_pop a p)
                 (put_obj a (set_instruction_list rest (set_sem n o)) w2))) as w3 eqn:E3.
  assert (threads w3 !! t = Some (mk_thread (Some a) (W_call p))) as Hth3.
  { subst w3. apply set_pc_lookup. simpl. by eapply lookup_lt_Some. }
  pose proof (step_call t _ p w3 Hth3) as H4.
  set (r := pfunc p (args p)) in *.
  remember (set_pc t (mk_thread (Some a) (W_call p)) (W_post p)
              (if bool_decide (r = 0%Z) then emit (Thr t) (E_call p r) w3
               else emit (Thr t)
                      (E_log WARN
                         "The instruction function returned with somthign error code(%ld).")
                      (emit (Thr t) (E_call p r) w3))) as w4 eqn:E4.
  assert (threads w4 !! t = Some (mk_thread (Some a) (W_post p))) as Hth4.
  { subst w4. apply set_pc_lookup.
    assert (t < length (threads w3)) by (by eapply lookup_lt_Some).
    by destruct (bool_decide (r = 0%Z)). }
  pose proof (step_post t _ p w4 Hth4) as H5.
  eexists. split.
  { simpl. rewrite H1. simpl. rewrite H2. simpl. rewrite H3. simpl. rewrite H4. simpl.
    rewrite H5. simpl. reflexivity. }
  subst w4 w3 w2 w1.
  destruct (psem p), (bool_decide (r = 0%Z)); simpl;
    rewrite ?insert_insert_eq, ?list_insert_insert_eq, <- ?app_assoc, ?Hex; simpl;
    split_and!; try done;
    f_equal; unfold set_instruction_list, set_sem; simpl; by rewrite Hex.
Qed.

(** [Instruct] without interference. *)
Lemma Instruct_alone a o p w :
  singleton w = Some a → heap w !! a = Some o →
  Instruct p [] w =
  Ret true []
    (emit Caller (E_post a)
       (put_obj a (mk_pool (is_exit o) (S (thpoolman_sem o)) (is_lock_init o)
                     (thread_list o) (instruction_list o ++ [p]))
          (emit Caller (E_push a p)
             (put_obj a (set_instruction_list (push_back p (instruction_list o)) o) w)))).
Proof.
  intros Hs Ho.
  unfold Instruct, SetInstruction, mbind, M_bind, get_world, yield, try_modify,
    push_instruction, post_wakeup.
  rewrite Hs. simpl. rewrite Ho. simpl. rewrite lookup_insert_eq. simpl. done.
Qed.

(** X7.  A submission and the round of a worker that follows it, without
    interference.  [Instruct] appends the descriptor and posts the wakeup
    signal; a worker inside the wait then needs five steps to take the
    wakeup, pass the check of the exit flag, dequeue the oldest descriptor
    (the new one when the queue was empty), call it, log a warning when
    the result is not null, and post its completion signal.  The wakeup
    count is what it was before the submission, the queue has lost its
    front, and the worker goes back to the wait, where it blocks when no
    other wakeup is pending. *)
Theorem submitted_task_runs (a : addr) (o : ThreadPoolMan) (t : pthread_t)
    (p : thpoolman_param) (w : world) :
  singleton w = Some a → heap w !! a = Some o → is_exit o = false →
  threads w !! t = Some (mk_thread (Some a) W_wait) →
  let p0 := default p (head (instruction_list o)) in
  ∃ w1 w2 w3,
    Instruct p [] w = Ret true [] w1 ∧ worker_run t 5 w1 = Some w2 ∧
    heap w2 = <[a := mk_pool false (thpoolman_sem o) (is_lock_init o) (thread_list o)
                       (tail (instruction_list o ++ [p]))]> (heap w) ∧
    threads w2 = <[t := mk_thread (Some a) W_loop]> (threads w) ∧
    csem w2 = match psem p0 with
              | Some h => <[h := S (default 0 (csem w !! h))]> (csem w)
              | None => csem w
              end ∧
    trace w2 = trace w ++ [(Caller, E_push a p); (Caller, E_post a)] ++
      ((λ e, (Thr t, e)) <$>
         [E_pop a p0; E_call p0 (pfunc p0 (args p0))] ++
         (if bool_decide (pfunc p0 (args p0) = 0%Z) then []
          else [E_log WARN "The instruction function returned with somthign error code(%ld)."]) ++
         option_list (E_signal <$> psem p0)) ∧
    worker_step t w2 = Some w3 ∧ heap w3 = heap w2 ∧
    threads w3 !! t = Some (mk_thread (Some a) W_wait) ∧
    (thpoolman_sem o = 0 → worker_step t w3 = None).
Proof.
  intros Hs Ho Hex Hth p0.
  pose proof (lookup_lt_Some _ _ _ Hth) as Hlt.
  pose proof (Instruct_alone a o p w Hs Ho) as HI.
  remember (emit Caller (E_post a)
       (put_obj a (mk_pool (is_exit o) (S (thpoolman_sem o)) (is_lock_init o)
                     (thread_list o) (instruction_list o ++ [p]))
          (emit Caller (E_push a p)
             (put_obj a (set_instruction_list (push_back p (instruction_list o)) o) w))))
    as w1 eqn:E1.
  assert (threads w1 !! t = Some (mk_thread (Some a) W_wait)) as Hth1 by (by subst w1).
  assert (heap w1 !! a =
          Some (mk_pool (is_exit o) (S (thpoolman_sem o)) (is_lock_init o)
                  (thread_list o) (instruction_list o ++ [p]))) as Ho1.
  { subst w1. simpl. by rewrite lookup_insert_eq. }
  assert (instruction_list o ++ [p] = p0 :: tail (instruction_list o ++ [p])) as Hq.
  { unfold p0. by destruct (instruction_list o). }
  destruct (worker_round a _ t (thpoolman_sem o) p0 _ w1 Hth1 Ho1 Hex eq_refl Hq)
    as (w2 & Hrun & Hh & Ht & Hc & Htr & _).
  assert (threads w2 !! t = Some (mk_thread (Some a) W_loop)) as Hth2.
  { rewrite Ht. apply list_lookup_insert_eq. by eapply lookup_lt_Some. }
  assert (heap w2 !! a =
          Some (mk_pool false (thpoolman_sem o) (is_lock_init o) (thread_list o)
                  (tail (instruction_list o ++ [p])))) as Ho2.
  { rewrite Hh. by apply lookup_insert_eq. }
  exists w1, w2, (set_pc t (mk_thread (Some a) W_loop) W_wait w2).
  split_and!; [done|done|..].
  - rewrite Hh. subst w1. simpl. by rewrite !insert_insert_eq.
  - rewrite Ht. by subst w1.
  - rewrite Hc. by subst w1.
  - rewrite Htr. subst w1. simpl. by rewrite <- !app_assoc.
  - apply worker_step_at; [done|]. unfold worker_body. simpl. by rewrite Ho2.
  - done.
  - apply set_pc_lookup. by eapply lookup_lt_Some.
  - intros Hz. unfold worker_step.
    rewrite set_pc_lookup by (by eapply lookup_lt_Some). simpl.
    unfold worker_body. simpl. rewrite Ho2. simpl. by rewrite Hz.
Qed.

(** ** Wakeups and queued tasks *)

Lemma woken_set_pc a t th pc' w w1 :
  threads w1 = threads w → threads w !! t = Some th →
  woken a (set_pc t th pc' w1) + Nat.b2n (is_woken a th) =
  woken a w + Nat.b2n (is_woken a (mk_thread (t_arg th) pc')).
Proof.
  intros Ht Hth. unfold woken. simpl. rewrite Ht. by apply countb_insert.
Qed.

Lemma worker_step_covered a k t w w' :
  covered a k w → worker_step t w = Some w' → covered a k w'.
Proof.
  intros (o & Ho & Hex & Hle) (th & pc' & w1 & Hth & Hb & ->)%worker_step_unfold.
  unfold covered.
  worker_cases Hb;
    match goal with
    | |- context [set_pc ?t ?th ?pc ?w1] =>
        pose proof (woken_set_pc a t th pc w w1 eq_refl Hth) as Hc
    end;
    unfold is_woken in Hc; simpl in Hc |- *;
    try (exists o; split_and!; [done..|lia]).
  all: destruct (decide (a0 = a)) as [->|Hne];
    rewrite ?lookup_insert_eq, ?lookup_insert_ne by done; simplify_eq;
    rewrite ?bool_decide_eq_true_2, ?bool_decide_eq_false_2 in Hc by done;
    simpl in Hc; try congruence;
    try (eexists; split_and!; [done..|simpl in *; lia]).
  - exists o. split_and!; [done..|]. rewrite Hq. simpl. lia.
  - eexists. split_and!; [done..|]. rewrite Hq in Hle. simpl in *. lia.
Qed.

Lemma push_instruction_covered who a k b p w w' :
  covered a k w → push_instruction who b p w = Some w' → covered a (S k) w'.
Proof.
  unfold push_instruction. intros (o & Ho & Hex & Hle) H.
  destruct (heap w !! b) as [o'|] eqn:Ho'; simpl in H; [|done]. injection H as <-.
  unfold covered, woken in *; simpl. destruct (decide (b = a)) as [->|Hne].
  - rewrite lookup_insert_eq. simplify_eq. eexists. split_and!; [done..|].
    simpl. unfold push_back. rewrite length_app. simpl. lia.
  - rewrite lookup_insert_ne by done. eexists. split_and!; [done..|]. lia.
Qed.

Lemma post_wakeup_covered who a k b w w' :
  covered a k w → post_wakeup who b w = Some w' → covered a k w'.
Proof.
  unfold post_wakeup. intros (o & Ho & Hex & Hle) H.
  destruct (heap w !! b) as [o'|] eqn:Ho'; simpl in H; [|done]. injection H as <-.
  unfold covered, woken in *; simpl. destruct (decide (b = a)) as [->|Hne].
  - rewrite lookup_insert_eq. simplify_eq. eexists. split_and!; [done..|].
    simpl. unfold sem_post. lia.
  - rewrite lookup_insert_ne by done. by eexists.
Qed.

(** The post that belongs to a push. *)
Lemma post_wakeup_covers a k w w' :
  covered a (S k) w → post_wakeup Caller a w = Some w' → covered a k w'.
Proof.
  unfold post_wakeup. intros (o & Ho & Hex & Hle) H.
  rewrite Ho in H. simpl in H. injection H as <-.
  unfold covered, woken in *; simpl. rewrite lookup_insert_eq.
  eexists. split_and!; [done..|]. simpl. unfold sem_post. lia.
Qed.

Lemma run_actions_covered a k acts w :
  forallb no_push acts = true → covered a k w → covered a k (run_actions acts w).
Proof.
  revert w. induction acts as [|act acts IH]; intros w Hacts Hc; simpl; [done|].
  simpl in Hacts. apply andb_true_iff in Hacts as [Hact Hacts].
  apply IH; [done|]. destruct act as [t| |b]; try done; simpl.
  - destruct (worker_step t w) eqn:Hw; simpl; [by eapply worker_step_covered|done].
  - destruct (post_wakeup Racer b w) eqn:Hw; simpl; [by eapply post_wakeup_covered|done].
Qed.

Lemma covered_SetInstruction a param s w :
  no_racing_push s = true → covered a 0 w →
  hoare (SetInstruction a param)
    (λ _ s' w', covered a 0 w' ∧ no_racing_push s' = true) s w.
Proof.
  intros Hno Hc. unfold SetInstruction.
  apply hoare_bind, hoare_yield. intros c1 Hc1.
  assert (covered a 0 (run_actions c1 w)) as H1.
  { apply run_actions_covered; [|done]. rewrite Hc1. by apply no_racing_push_head. }
  apply hoare_bind, hoare_try_modify. intros w2 Hpush.
  pose proof (push_instruction_covered _ _ _ _ _ _ _ H1 Hpush) as H2.
  apply hoare_bind, hoare_yield. intros c2 Hc2.
  assert (covered a 1 (run_actions c2 w2)) as H3.
  { apply run_actions_covered; [|done]. rewrite Hc2.
    by apply no_racing_push_head, no_racing_push_tail. }
  apply hoare_try_modify. intros w4 Hpost. split.
  - by eapply post_wakeup_covers.
  - by apply no_racing_push_tail, no_racing_push_tail.
Qed.

Lemma covered_Instruct_all a ps s w :
  singleton w = Some a → no_racing_push s = true → covered a 0 w →
  hoare (Instruct_all ps)
    (λ _ s' w', covered a 0 w' ∧ no_racing_push s' = true) s w.
Proof.
  revert s w. induction ps as [|p ps IH]; intros s w Hs Hno Hc; simpl.
  - by apply hoare_ret.
  - apply hoare_bind. unfold Instruct. apply hoare_bind, hoare_get_world. rewrite Hs.
    apply hoare_bind.
    assert (hoare (SetInstruction a p)
              (λ _ s' w', (covered a 0 w' ∧ no_racing_push s' = true) ∧
                          singleton w' = Some a) s w) as HS.
    { destruct (Hc) as (o & Ho & _).
      apply hoare_and; [by apply covered_SetInstruction|].
      eapply wp_hoare, wp_mono; [by apply (wp_SetInstruction a p (λ _, True) s w o)|done|].
      intros _ s' w' (_ & Hq & _). pose proof (q_env _ _ Hq) as He. unfold env in He.
      congruence. }
    eapply hoare_mono; [exact HS|].
    intros _ s1 w1 [[Hc1 Hno1] Hs1]. apply hoare_ret, hoare_bind.
    eapply hoare_mono; [by apply IH|].
    intros bs s2 w2 H2. by apply hoare_ret.
Qed.

Lemma countb_pos {A} (f : A → bool) (l : list A) :
  0 < countb f l → ∃ i x, l !! i = Some x ∧ f x = true.
Proof.
  induction l as [|z l IH]; simpl; [lia|]. intros H.
  destruct (f z) eqn:Hz.
  - by exists 0, z.
  - destruct IH as (i & x & Hi & Hx); [simpl in H; lia|]. by exists (S i), x.
Qed.

(** X8.  No wakeup is lost.  On a pool whose exit flag is clear and whose
    queued tasks are covered by wakeups (as on a pool that was just
    started), after any number of [Instruct] calls and whatever the
    workers do and the other clients post, every queued task still has a
    wakeup of its own: the length of the queue is at most the wakeup count
    plus the number of workers that have taken a wakeup and not looked at
    the queue yet.  So while a task is queued and the pool has a worker
    that has not returned, some worker of the pool can move. *)
Theorem no_stranded_task (a : addr) (ps : list thpoolman_param) (s : sched)
    (acts : list action) (w : world) :
  singleton w = Some a → covered a 0 w →
  no_racing_push s = true → forallb no_push acts = true →
  ∃ s1 w1 o',
    Instruct_all ps s w = Ret (replicate (length ps) true) s1 w1 ∧
    heap (run_actions acts w1) !! a = Some o' ∧ is_exit o' = false ∧
    length (instruction_list o') ≤ thpoolman_sem o' + woken a (run_actions acts w1) ∧
    (instruction_list o' ≠ [] →
     (∃ t th, threads (run_actions acts w1) !! t = Some th ∧ t_arg th = Some a ∧
              live th = true) →
     ∃ t th, threads (run_actions acts w1) !! t = Some th ∧ t_arg th = Some a ∧
             is_Some (worker_step t (run_actions acts w1))).
Proof.
  intros Hs Hc Hno Hacts. pose proof Hc as (o & Ho & _).
  destruct (wp_ret_inv _ _ _ s w (wp_Instruct_all a ps (λ _, False) s w o Hs Ho))
    as (bs & s1 & w1 & Hrun & -> & _); [by auto|].
  pose proof (hoare_inv _ _ _ _ _ _ _ (covered_Instruct_all a ps s w Hs Hno Hc) Hrun)
    as [Hc1 _].
  pose proof (run_actions_covered a 0 acts w1 Hacts Hc1) as (o' & Ho' & Hex' & Hle').
  set (w' := run_actions acts w1) in *.
  exists s1, w1, o'. fold w'. split_and!; [done..|lia|].
  intros Hq (t & th & Hth & Ha & Hl).
  assert (0 < length (instruction_list o')) as Hpos.
  { destruct (instruction_list o'); [done|simpl; lia]. }
  destruct (decide (thpoolman_sem o' = 0)) as [Hz|Hnz].
  - destruct (countb_pos (is_woken a) (threads w')) as (t' & th' & Hth' & Hw').
    { unfold woken in Hle'. lia. }
    exists t', th'. unfold is_woken in Hw'. destruct th' as [arg pc]. simpl in Hw'.
    assert (arg = Some a ∧ (pc = W_woken ∨ pc = W_fetch)) as [-> Hpc].
    { destruct pc, arg; try done; by apply bool_decide_eq_true in Hw' as ->; auto. }
    split_and!; [done..|]. eapply (worker_enabled a o'); [done|done| |done|].
    + by destruct Hpc as [-> | ->].
    + left. simpl. by destruct Hpc as [-> | ->].
  - exists t, th. split_and!; [done..|]. eapply (worker_enabled a o'); [done..|by right].
Qed.

Lemma unwasted_refl w : unwasted w w.
Proof. exists []. by rewrite app_nil_r. Qed.

Lemma unwasted_trans w1 w2 w3 : unwasted w1 w2 → unwasted w2 w3 → unwasted w1 w3.
Proof.
  intros (e1 & T1 & F1) (e2 & T2 & F2). exists (e1 ++ e2).
  split; [by rewrite T2, T1, app_assoc|by apply Forall_app].
Qed.

Lemma unwasted_event who e w w' :
  trace w' = trace w ++ [(who, e)] → e ≠ wasted → unwasted w w'.
Proof. intros Ht He. exists [(who, e)]. split; [done|]. by apply Forall_singleton. Qed.

Lemma quiet_manned a w w' : quiet w w' → manned a w → manned a w'.
Proof.
  intros Hq Hm t th' Hth' Hl.
  destruct (quiet_thread_rev _ _ _ _ Hq Hth') as (th & Hth & Ha & Hlv).
  rewrite Ha. by eapply Hm, Hlv.
Qed.

Lemma worker_step_backed a k t w w' :
  backed a k w → manned a w → worker_step t w = Some w' →
  backed a k w' ∧ unwasted w w'.
Proof.
  intros (o & Ho & Hle) Hm (th & pc' & w1 & Hth & Hb & ->)%worker_step_unfold.
  pose proof (countb_lookup_le (is_woken a) _ _ _ Hth) as Hw.
  fold (woken a w) in Hw.
  pose proof (worker_body_inv _ _ _ _ _ Hb) as (Hl & _).
  specialize (Hm t th Hth Hl).
  unfold backed.
  worker_cases Hb; simpl in Hm; simplify_eq;
    match goal with
    | |- context [set_pc ?t ?th ?pc ?w1] =>
        pose proof (woken_set_pc a t th pc w w1 eq_refl Hth) as Hc
    end;
    unfold is_woken in Hc, Hw; simpl in Hc, Hw |- *;
    rewrite ?bool_decide_eq_true_2 in Hc by done;
    rewrite ?bool_decide_eq_true_2 in Hw by done; simpl in Hc, Hw.
  all: rewrite ?lookup_insert_eq.
  all: try (rewrite Hq in Hle; simpl in Hle).
  all: try lia.
  all: split;
    [first [exists o; split; [done|lia] | eexists; split; [done|simpl in *; lia]]
    |first [ exists []; split; [simpl; by rewrite app_nil_r|constructor]
           | eexists [_]; split; [simpl; reflexivity|]
           | eexists [_; _]; split; [simpl; by rewrite <- app_assoc|]]].
  all: repeat (constructor; [by unfold wasted|]); constructor.
Qed.

Lemma push_instruction_backed who a k p w w' :
  backed a k w → push_instruction who a p w = Some w' →
  backed a (S k) w' ∧ unwasted w w'.
Proof.
  unfold push_instruction. intros (o & Ho & Hle) H.
  rewrite Ho in H. simpl in H. injection H as <-. split.
  - unfold backed, woken in *; simpl. rewrite lookup_insert_eq.
    eexists. split; [done|]. simpl. unfold push_back. rewrite length_app. simpl. lia.
  - by eapply unwasted_event.
Qed.

Lemma racing_push_backed a k b p w w' :
  backed a k w → push_instruction Racer b p w = Some w' →
  backed a k w' ∧ unwasted w w'.
Proof.
  unfold push_instruction. intros (o & Ho & Hle) H.
  destruct (heap w !! b) as [o'|] eqn:Ho'; simpl in H; [|done]. injection H as <-.
  split; [|by eapply unwasted_event].
  unfold backed, woken in *; simpl. destruct (decide (b = a)) as [->|Hne].
  - rewrite lookup_insert_eq. simplify_eq. eexists. split; [done|].
    simpl. unfold push_back. rewrite length_app. simpl. lia.
  - rewrite lookup_insert_ne by done. by eexists.
Qed.

Lemma post_wakeup_backed a k w w' :
  backed a (S k) w → post_wakeup Caller a w = Some w' →
  backed a k w' ∧ unwasted w w'.
Proof.
  unfold post_wakeup. intros (o & Ho & Hle) H.
  rewrite Ho in H. simpl in H. injection H as <-. split.
  - unfold backed, woken in *; simpl. rewrite lookup_insert_eq.
    eexists. split; [done|]. simpl. unfold sem_post. lia.
  - by eapply unwasted_event.
Qed.

Lemma run_actions_backed a k acts w :
  forallb no_post acts = true → backed a k w → manned a w →
  backed a k (run_actions acts w) ∧ unwasted w (run_actions acts w).
Proof.
  revert w. induction acts as [|act acts IH]; intros w Hacts Hb Hm; simpl.
  - split; [done|apply unwasted_refl].
  - simpl in Hacts. apply andb_true_iff in Hacts as [Hact Hacts].
    assert (backed a k (apply_action act w) ∧ unwasted w (apply_action act w)) as [H1 U1].
    { destruct act as [t|b p|b]; try done; simpl.
      - destruct (worker_step t w) eqn:Hw; simpl;
          [by eapply worker_step_backed|split; [done|apply unwasted_refl]].
      - destruct (push_instruction Racer b p w) eqn:Hw; simpl;
          [by eapply racing_push_backed|split; [done|apply unwasted_refl]]. }
    destruct (IH (apply_action act w) Hacts H1) as [H2 U2].
    { eapply quiet_manned; [apply apply_action_quiet|done]. }
    split; [done|by eapply unwasted_trans].
Qed.

Lemma no_racing_post_head s :
  no_racing_post s = true → forallb no_post (default [] (head s)) = true.
Proof. destruct s as [|c s]; simpl; [done|]. by intros [? _]%andb_true_iff. Qed.

Lemma no_racing_post_tail s :
  no_racing_post s = true → no_racing_post (tail s) = true.
Proof. destruct s as [|c s]; simpl; [done|]. by intros [_ ?]%andb_true_iff. Qed.

Lemma backed_SetInstruction a param s w :
  no_racing_post s = true → backed a 0 w → manned a w →
  hoare (SetInstruction a param)
    (λ _ s' w', backed a 0 w' ∧ manned a w' ∧ unwasted w w' ∧
                no_racing_post s' = true) s w.
Proof.
  intros Hno Hb Hm. unfold SetInstruction.
  apply hoare_bind, hoare_yield. intros c1 Hc1.
  destruct (run_actions_backed a 0 c1 w) as [H1 U1]; [|done|done|].
  { rewrite Hc1. by apply no_racing_post_head. }
  pose proof (quiet_manned a _ _ (run_actions_quiet c1 w) Hm) as M1.
  apply hoare_bind, hoare_try_modify. intros w2 Hpush.
  destruct (push_instruction_backed _ _ _ _ _ _ H1 Hpush) as [H2 U2].
  pose proof (quiet_manned a _ _ (push_instruction_quiet _ _ _ _ _ Hpush) M1) as M2.
  apply hoare_bind, hoare_yield. intros c2 Hc2.
  destruct (run_actions_backed a 1 c2 w2) as [H3 U3]; [|done|done|].
  { rewrite Hc2. by apply no_racing_post_head, no_racing_post_tail. }
  pose proof (quiet_manned a _ _ (run_actions_quiet c2 w2) M2) as M3.
  apply hoare_try_modify. intros w4 Hpost.
  destruct (post_wakeup_backed _ _ _ _ H3 Hpost) as [H4 U4].
  split_and!; [done| | |].
  - eapply quiet_manned; [by eapply post_wakeup_quiet|done].
  - eapply unwasted_trans; [exact U1|]. eapply unwasted_trans; [exact U2|].
    by eapply unwasted_trans.
  - by apply no_racing_post_tail, no_racing_post_tail.
Qed.

Lemma backed_Instruct_all a ps s w :
  singleton w = Some a → no_racing_post s = true → backed a 0 w → manned a w →
  hoare (Instruct_all ps)
    (λ _ _ w', backed a 0 w' ∧ manned a w' ∧ unwasted w w') s w.
Proof.
  revert s w. induction ps as [|p ps IH]; intros s w Hs Hno Hb Hm; simpl.
  - apply hoare_ret. split_and!; [done..|apply unwasted_refl].
  - apply hoare_bind. unfold Instruct. apply hoare_bind, hoare_get_world. rewrite Hs.
    apply hoare_bind.
    assert (hoare (SetInstruction a p)
              (λ _ s' w', (backed a 0 w' ∧ manned a w' ∧ unwasted w w' ∧
                           no_racing_post s' = true) ∧
                          singleton w' = Some a) s w) as HS.
    { destruct (Hb) as (o & Ho & _).
      apply hoare_and; [by apply backed_SetInstruction|].
      eapply wp_hoare, wp_mono; [by apply (wp_SetInstruction a p (λ _, True) s w o)|done|].
      intros ? s' w' (_ & Hq & _). pose proof (q_env _ _ Hq) as He. unfold env in He.
      congruence. }
    eapply hoare_mono; [exact HS|].
    intros ? s1 w1 [(Hb1 & Hm1 & U1 & Hno1) Hs1]. apply hoare_ret, hoare_bind.
    eapply hoare_mono; [by apply IH|].
    intros bs s2 w2 (Hb2 & Hm2 & U2). apply hoare_ret.
    split_and!; [done..|by eapply unwasted_trans].
Qed.

(** X9.  No worker is woken for nothing while no other thread posts.
    On a pool whose wakeups all have a task in the queue (as on a pool
    that was just started) and whose running threads are its workers,
    after any number of [Instruct] calls of one client, whatever the
    workers do and other clients push, the debug line of the empty queue
    is never logged, and every wakeup, pending or taken, still has a task
    of its own: [SetInstruction] pushes before it posts.  A worker finds
    the queue empty only after a post that brought no task, as the posts
    of [StopThreads] are. *)
Theorem no_wakeup_without_task (a : addr) (ps : list thpoolman_param) (s : sched)
    (acts : list action) (w : world) :
  singleton w = Some a → backed a 0 w → manned a w →
  no_racing_post s = true → forallb no_post acts = true →
  ∃ s1 w1 evs o',
    Instruct_all ps s w = Ret (replicate (length ps) true) s1 w1 ∧
    trace (run_actions acts w1) = trace w ++ evs ∧
    Forall (λ e, e.2 ≠ wasted) evs ∧
    heap (run_actions acts w1) !! a = Some o' ∧
    thpoolman_sem o' + woken a (run_actions acts w1) ≤ length (instruction_list o').
Proof.
  intros Hs Hb Hm Hno Hacts. pose proof Hb as (o & Ho & _).
  destruct (wp_ret_inv _ _ _ s w (wp_Instruct_all a ps (λ _, False) s w o Hs Ho))
    as (bs & s1 & w1 & Hrun & -> & _); [by auto|].
  pose proof (hoare_inv _ _ _ _ _ _ _ (backed_Instruct_all a ps s w Hs Hno Hb Hm) Hrun)
    as (Hb1 & Hm1 & U1).
  destruct (run_actions_backed a 0 acts w1 Hacts Hb1 Hm1) as [(o' & Ho' & Hle') U2].
  destruct (unwasted_trans _ _ _ U1 U2) as (evs & Htr & Hev).
  exists s1, w1, evs, o'. split_and!; [done..|lia].
Qed.

(** ** What Instruct leaves alone *)

Lemma quiet_length w w' : quiet w w' → length (threads w') = length (threads w).
Proof. intros Hq. eapply stable_length, (quiet_stable 0), Hq. Qed.

(** X10.  [Instruct] on an existing pool returns true under every schedule
    and leaves the life cycle of the pool alone: the singleton handle, the
    exit flag, the worker list and the lock flag are what they were, no
    object and no thread was created or released, and no thread that had
    returned runs again.  It does so whether or not the pool has workers
    and whether or not its exit flag is set. *)
Theorem Instruct_leaves_pool_alone (param : thpoolman_param) (a : addr)
    (o : ThreadPoolMan) (s : sched) (w : world) :
  singleton w = Some a → heap w !! a = Some o →
  ∃ s' w' o', Instruct param s w = Ret true s' w' ∧
    singleton w' = Some a ∧ heap w' !! a = Some o' ∧
    is_exit o' = is_exit o ∧ thread_list o' = thread_list o ∧
    is_lock_init o' = is_lock_init o ∧
    length (threads w') = length (threads w) ∧
    create_tape w' = create_tape w ∧ next_addr w' = next_addr w ∧
    (∀ b, is_Some (heap w' !! b) ↔ is_Some (heap w !! b)) ∧
    (∀ t th, threads w !! t = Some th → live th = false →
       ∃ th', threads w' !! t = Some th' ∧ live th' = false).
Proof.
  intros Hs Ho.
  destruct (wp_ret_inv _ _ _ s w (wp_SetInstruction a param (λ _, False) s w o Ho))
    as ([] & s' & w' & Hrun & _ & Hq & _); [by auto|].
  destruct (quiet_obj _ _ _ _ Hq Ho) as (o' & Ho' & Hex & Hl & Hlk).
  pose proof (q_env _ _ Hq) as He. unfold env in He.
  exists s', w', o'. split_and!; try done; try congruence.
  - unfold Instruct. rewrite bind_unfold. unfold get_world. rewrite Hs.
    rewrite bind_unfold. by rewrite Hrun.
  - by apply quiet_length.
  - intros b. pose proof (q_heap _ _ Hq b) as Hb.
    destruct (heap w' !! b), (heap w !! b); simpl in Hb; try done;
      split; intros [? ?]; by eauto.
  - apply (q_dead _ _ Hq).
Qed.

(** ** The queue across StopThreads *)

Lemma pushes_app a l1 l2 : pushes a (l1 ++ l2) = pushes a l1 ++ pushes a l2.
Proof. apply omap_app. Qed.

Lemma carried_refl a P w : carried a P w w.
Proof. exists []. split_and!; [apply ledger_refl|done..]. Qed.

Lemma carried_trans a P w1 w2 w3 :
  carried a P w1 w2 → carried a P w2 w3 → carried a P w1 w3.
Proof.
  intros (m1 & L1 & A1 & B1) (m2 & L2 & A2 & B2). exists (m1 ++ m2).
  split_and!; [by eapply ledger_trans|by rewrite pushes_app, A1, A2
              |by rewrite pops_app, B1, B2].
Qed.

Lemma carried_actions a P acts w :
  (P → forallb no_push acts = true) → carried a P w (run_actions acts w).
Proof. intros HP. exists []. split_and!; [by apply run_actions_ledger|done..]. Qed.

Lemma carried_same a P w w' :
  trace w' = trace w → queue_of a w' = queue_of a w → carried a P w w'.
Proof. intros Ht Hq. exists []. split_and!; [by apply ledger_same|done..]. Qed.

Lemma carried_emit a P e w :
  match e with E_push _ _ | E_pop _ _ => False | _ => True end →
  carried a P w (emit Caller e w).
Proof.
  intros He. exists [e]. split_and!; [|by destruct e..].
  exists [(Caller, e)]. unfold pushes, pops, caller_events, queue_of. simpl.
  destruct e; try done; simpl; by rewrite ?app_nil_r.
Qed.

Lemma carried_put a P o o' w :
  heap w !! a = Some o → instruction_list o' = instruction_list o →
  carried a P w (put_obj a o' w).
Proof.
  intros Ho Hq. apply carried_same; [done|]. rewrite queue_of_put.
  rewrite bool_decide_eq_true_2 by done. unfold queue_of. by rewrite Ho.
Qed.

Lemma run_to_exit_ledger a P t fuel w w' :
  run_to_exit t fuel w = Some w' → ledger a [] P w w'.
Proof.
  revert w. induction fuel as [|fuel IH]; intros w; simpl.
  - destruct (threads w !! t) as [th|]; [|done].
    destruct (t_pc th); try done. intros [= <-]. apply ledger_refl.
  - destruct (threads w !! t) as [th|]; [|done].
    assert ((worker_step t w ≫= run_to_exit t fuel) = Some w' → ledger a [] P w w')
      as Hstep.
    { destruct (worker_step t w) as [w1|] eqn:Hw; simpl; [|done]. intros Hrun.
      eapply ledger_step; [by eapply worker_step_ledger|by apply IH]. }
    destruct (t_pc th); try done. intros [= <-]. apply ledger_refl.
Qed.

Lemma carried_post_loop this n (P : Prop) s w :
  (P → no_racing_push s = true) →
  hoare (post_loop this n)
    (λ _ s' w', carried this P w w' ∧ (P → no_racing_push s' = true)) s w.
Proof.
  revert s w. induction n as [|n IH]; intros s w HP; simpl.
  - apply hoare_ret. split; [apply carried_refl|done].
  - apply hoare_bind, hoare_yield. intros c Hc.
    apply hoare_bind, hoare_try_modify. intros w2 Hpost.
    eapply hoare_mono; [apply (IH (tail s) w2)|].
    { intros HP'. by apply no_racing_push_tail, HP. }
    intros _ s3 w3 [Hc3 HP3]. split; [|done].
    eapply carried_trans; [|done]. eapply carried_trans.
    { apply (carried_actions this P c w). intros HP'. rewrite Hc.
      by apply no_racing_push_head, HP. }
    exists [E_post this]. split_and!; [by apply post_wakeup_caller_ledger|done..].
Qed.

Lemma carried_pthread_join a P t s w :
  hoare (pthread_join t) (λ _ s' w', s' = s ∧ carried a P w w') s w.
Proof.
  unfold hoare, pthread_join.
  assert (carried a P w (emit Caller (E_join t ESRCH) w)) as Hfail.
  { by apply carried_emit. }
  destruct (threads w !! t) as [th|]; [|done].
  assert (match
            match run_to_exit t (join_fuel t w) w with
            | Some w' =>
                match t_pc <$> threads w' !! t with
                | Some (W_exit retval) =>
                    Ret (0%Z, retval) s
                      (emit Caller (E_join t 0%Z) (set_pc t th W_reaped w'))
                | _ => Stuck w'
                end
            | None => Stuck w
            end
          with
          | Ret _ s' w' => s' = s ∧ carried a P w w'
          | _ => True
          end) as Hjoin.
  { destruct (run_to_exit t (join_fuel t w) w) as [w'|] eqn:Hrun; [|done].
    destruct (t_pc <$> threads w' !! t) as [[]|]; try done.
    split; [done|]. eapply carried_trans; [|by apply carried_emit].
    assert (ledger a [] P w w') as HL by (by eapply run_to_exit_ledger).
    exists []. split_and!; [exact HL|done..]. }
  destruct (t_pc th); done.
Qed.

Lemma carried_join_loop a l (P : Prop) s w :
  (P → no_racing_push s = true) →
  hoare (join_loop l)
    (λ _ s' w', carried a P w w' ∧ (P → no_racing_push s' = true)) s w.
Proof.
  revert s w. induction l as [|t l IH]; intros s w HP; simpl.
  - apply hoare_ret. split; [apply carried_refl|done].
  - apply hoare_bind, hoare_yield. intros c Hc.
    assert (carried a P w (run_actions c w)) as H1.
    { apply carried_actions. intros HP'. rewrite Hc. by apply no_racing_push_head, HP. }
    apply hoare_bind. eapply hoare_mono; [apply (carried_pthread_join a P)|].
    intros r s2 w2 [-> H2]. simpl.
    apply hoare_bind.
    assert (∀ lv msg,
              hoare (log lv msg)
                (λ _ s3 w3, hoare (join_loop l)
                   (λ _ s' w', carried a P w w' ∧ (P → no_racing_push s' = true)) s3 w3)
                (tail s) w2) as Hlog.
    { intros lv msg. apply hoare_log.
      eapply hoare_mono; [apply (IH (tail s))|].
      { intros HP'. by apply no_racing_push_tail, HP. }
      intros _ s4 w4 [H4 HP4]. split; [|done].
      eapply carried_trans; [exact H1|]. eapply carried_trans; [exact H2|].
      eapply carried_trans; [|exact H4]. by apply carried_emit. }
    destruct (bool_decide (r.1 = 0%Z)); apply Hlog.
Qed.

Lemma carried_drain_loop this fuel (P : Prop) s w :
  (P → no_racing_push s = true) →
  hoare (drain_loop this fuel)
    (λ _ s' w', carried this P w w' ∧ (P → no_racing_push s' = true)) s w.
Proof.
  revert s w. induction fuel as [|fuel IH]; intros s w HP; simpl; [done|].
  apply hoare_bind, hoare_yield. intros c Hc.
  assert (carried this P w (run_actions c w)) as H1.
  { apply carried_actions. intros HP'. rewrite Hc. by apply no_racing_push_head, HP. }
  apply hoare_bind, hoare_get_obj. intros o Ho.
  apply hoare_bind, hoare_modify.
  assert (carried this P w
            (put_obj this (set_sem (sem_try_wait (thpoolman_sem o)).2 o)
               (run_actions c w))) as H2.
  { eapply carried_trans; [exact H1|]. by eapply carried_put. }
  assert (P → no_racing_push (tail s) = true) as HP2.
  { intros HP'. by apply no_racing_push_tail, HP. }
  destruct (sem_try_wait (thpoolman_sem o)).1.
  - eapply hoare_mono; [by apply (IH (tail s))|].
    intros _ s4 w4 [H4 HP4]. split; [|done]. by eapply carried_trans.
  - by apply hoare_ret.
Qed.

Lemma carried_StopThreads this (P : Prop) s w :
  (P → no_racing_push s = true) →
  hoare (StopThreads this) (λ _ _ w', carried this P w w') s w.
Proof.
  intros HP. unfold StopThreads. apply hoare_bind, hoare_get_obj. intros o Ho.
  destruct (bool_decide (thread_list o = [])).
  { apply hoare_bind, hoare_log, hoare_ret. by apply carried_emit. }
  apply hoare_bind, hoare_yield. intros c Hc.
  assert (carried this P w (run_actions c w)) as H1.
  { apply carried_actions. intros HP'. rewrite Hc. by apply no_racing_push_head, HP. }
  apply hoare_bind. unfold SetExitFlag. apply hoare_modify_obj. intros o1 Ho1.
  assert (carried this P w (put_obj this (set_is_exit true o1) (run_actions c w))) as H2.
  { eapply carried_trans; [exact H1|]. by eapply carried_put. }
  apply hoare_bind. eapply hoare_mono; [apply (carried_post_loop this _ P)|].
  { intros HP'. by apply no_racing_push_tail, HP. }
  intros _ s3 w3 [H3 HP3]. simpl.
  apply hoare_bind. eapply hoare_mono; [by apply (carried_join_loop this _ P)|].
  intros _ s4 w4 [H4 HP4]. simpl.
  apply hoare_bind, hoare_modify_obj. intros o4 Ho4.
  apply hoare_bind. unfold drain, hoare at 1.
  eapply hoare_mono; [by apply (carried_drain_loop this _ P)|].
  intros _ s5 w5 [H5 _]. apply hoare_ret.
  eapply carried_trans; [exact H2|]. eapply carried_trans; [exact H3|].
  eapply carried_trans; [exact H4|]. eapply carried_trans; [|exact H5].
  by eapply carried_put.
Qed.

(** X11.  [StopThreads] drains the wakeup signal, not the queue.  The
    calling thread neither pushes nor pops: when [StopThreads] returns,
    the queue is what it was, without what the workers dequeued from its
    front before they returned and with what racing clients pushed at its
    back.  Tasks that no worker took are still queued. *)
Theorem StopThreads_keeps_queue (this : addr) (o : ThreadPoolMan) (s : sched)
    (w : world) :
  heap w !! this = Some o → tracked this w → owned this w →
  ∃ s' w' evs,
    StopThreads this s w = Ret true s' w' ∧
    trace w' = trace w ++ evs ∧
    instruction_list o ++ pushes this evs.*2 = pops this evs.*2 ++ queue_of this w' ∧
    pushes this (caller_events evs) = [] ∧ pops this (caller_events evs) = [] ∧
    (no_racing_push s = true → pushes this evs.*2 = []).
Proof.
  intros Ho Htr Hown.
  destruct (wp_ret_inv _ _ _ s w (StopThreads_spec this (λ _, False) s w o Ho Htr Hown))
    as (b & s' & w' & Hrun & -> & _); [by auto|].
  pose proof (hoare_inv _ _ _ _ _ _ _
                (carried_StopThreads this (no_racing_push s = true) s w (λ H, H)) Hrun)
    as (mine & (evs & Htr' & Hq & Hmine & Hall) & Hpush & Hpop).
  exists s', w', evs. split_and!; [done|done| |congruence|congruence|].
  - unfold queue_of in Hq at 1. by rewrite Ho in Hq.
  - intros Hno. by rewrite Hall.
Qed.

(** ** The return codes of pthread_create *)

Lemma spent_refl w : spent 0 0 w w.
Proof. split; [done|lia]. Qed.

Lemma spent_trans k1 n1 k2 n2 w1 w2 w3 :
  spent k1 n1 w1 w2 → spent k2 n2 w2 w3 → spent (k1 + k2) (n1 + n2) w1 w3.
Proof.
  intros [T1 L1] [T2 L2]. split; [|lia].
  by rewrite T2, T1, drop_drop.
Qed.

Lemma quiet_spent w w' : quiet w w' → spent 0 0 w w'.
Proof.
  intros Hq. pose proof (q_env _ _ Hq) as He. unfold env in He.
  split; [rewrite drop_0; congruence|]. rewrite (quiet_length _ _ Hq). lia.
Qed.

Lemma spent_step w1 w2 w3 k n :
  spent 0 0 w1 w2 → spent k n w2 w3 → spent k n w1 w3.
Proof. intros H1 H2. apply (spent_trans 0 0 k n w1 w2 w3 H1 H2). Qed.

Lemma run_to_exit_quiet t fuel w w' : run_to_exit t fuel w = Some w' → quiet w w'.
Proof.
  revert w. induction fuel as [|fuel IH]; intros w; simpl.
  - destruct (threads w !! t) as [th|]; [|done].
    destruct (t_pc th); try done. intros [= <-]. apply quiet_refl.
  - destruct (threads w !! t) as [th|]; [|done].
    assert ((worker_step t w ≫= run_to_exit t fuel) = Some w' → quiet w w') as Hstep.
    { destruct (worker_step t w) as [w1|] eqn:Hw; simpl; [|done]. intros Hrun.
      eapply quiet_trans; [by eapply worker_step_quiet|by apply IH]. }
    destruct (t_pc th); try done. intros [= <-]. apply quiet_refl.
Qed.

Lemma spent_pthread_join t s w :
  hoare (pthread_join t) (λ _ s' w', spent 0 0 w w') s w.
Proof.
  unfold hoare, pthread_join.
  destruct (threads w !! t) as [th|]; [|by apply quiet_spent, quiet_emit].
  assert (match
            match run_to_exit t (join_fuel t w) w with
            | Some w' =>
                match t_pc <$> threads w' !! t with
                | Some (W_exit retval) =>
                    Ret (0%Z, retval) s
                      (emit Caller (E_join t 0%Z) (set_pc t th W_reaped w'))
                | _ => Stuck w'
                end
            | None => Stuck w
            end
          with
          | Ret _ s' w' => spent 0 0 w w'
          | _ => True
          end) as Hjoin.
  { destruct (run_to_exit t (join_fuel t w) w) as [w'|] eqn:Hrun; [|done].
    destruct (t_pc <$> threads w' !! t) as [[]|]; try done.
    destruct (quiet_spent _ _ (run_to_exit_quiet _ _ _ _ Hrun)) as [HT HL].
    split; [exact HT|]. simpl. rewrite length_insert. exact HL. }
  destruct (t_pc th); try done; by apply quiet_spent, quiet_emit.
Qed.

Lemma spent_post_loop this n s w :
  hoare (post_loop this n) (λ _ _ w', spent 0 0 w w') s w.
Proof.
  revert s w. induction n as [|n IH]; intros s w; simpl.
  - apply hoare_ret, spent_refl.
  - apply hoare_bind, hoare_yield. intros c _.
    apply hoare_bind, hoare_try_modify. intros w2 Hpost.
    eapply hoare_mono; [apply IH|]. intros ? s3 w3 H3.
    eapply spent_step; [|exact H3]. apply quiet_spent.
    eapply quiet_trans; [apply run_actions_quiet|by eapply post_wakeup_quiet].
Qed.

Lemma spent_join_loop l s w :
  hoare (join_loop l) (λ _ _ w', spent 0 0 w w') s w.
Proof.
  revert s w. induction l as [|t l IH]; intros s w; simpl.
  - apply hoare_ret, spent_refl.
  - apply hoare_bind, hoare_yield. intros c _.
    apply hoare_bind. eapply hoare_mono; [apply spent_pthread_join|].
    intros r s2 w2 H2. simpl. apply hoare_bind.
    assert (∀ lv msg,
              hoare (log lv msg)
                (λ _ s3 w3, hoare (join_loop l) (λ _ _ w', spent 0 0 w w') s3 w3)
                s2 w2) as Hlog.
    { intros lv msg. apply hoare_log. eapply hoare_mono; [apply IH|].
      intros ? s4 w4 H4. eapply spent_step; [apply quiet_spent, run_actions_quiet|].
      eapply spent_step; [exact H2|]. eapply spent_step; [|exact H4].
      apply quiet_spent, quiet_emit. }
    destruct (bool_decide (r.1 = 0%Z)); apply Hlog.
Qed.

Lemma put_obj_spent a o w : spent 0 0 w (put_obj a o w).
Proof. split; simpl; [done|lia]. Qed.

Lemma spent_drain_loop this fuel s w :
  hoare (drain_loop this fuel) (λ _ _ w', spent 0 0 w w') s w.
Proof.
  revert s w. induction fuel as [|fuel IH]; intros s w; simpl; [done|].
  apply hoare_bind, hoare_yield. intros c _.
  apply hoare_bind, hoare_get_obj. intros o Ho.
  apply hoare_bind, hoare_modify.
  assert (spent 0 0 w (put_obj this (set_sem (sem_try_wait (thpoolman_sem o)).2 o)
                         (run_actions c w))) as H2.
  { eapply spent_step; [apply quiet_spent, run_actions_quiet|apply put_obj_spent]. }
  destruct (sem_try_wait (thpoolman_sem o)).1.
  - eapply hoare_mono; [apply IH|]. intros ? s4 w4 H4. by eapply spent_step.
  - by apply hoare_ret.
Qed.

Lemma spent_StopThreads this s w :
  hoare (StopThreads this) (λ _ _ w', spent 0 0 w w') s w.
Proof.
  unfold StopThreads. apply hoare_bind, hoare_get_obj. intros o Ho.
  destruct (bool_decide (thread_list o = [])).
  { apply hoare_bind, hoare_log, hoare_ret. apply quiet_spent, quiet_emit. }
  apply hoare_bind, hoare_yield. intros c _.
  apply hoare_bind. unfold SetExitFlag. apply hoare_modify_obj. intros o1 Ho1.
  assert (spent 0 0 w (put_obj this (set_is_exit true o1) (run_actions c w))) as H2.
  { eapply spent_step; [apply quiet_spent, run_actions_quiet|apply put_obj_spent]. }
  apply hoare_bind. eapply hoare_mono; [apply spent_post_loop|].
  intros ? s3 w3 H3. simpl.
  apply hoare_bind. eapply hoare_mono; [apply spent_join_loop|].
  intros ? s4 w4 H4. simpl.
  apply hoare_bind, hoare_modify_obj. intros o4 Ho4.
  apply hoare_bind. unfold drain, hoare at 1.
  eapply hoare_mono; [apply spent_drain_loop|].
  intros ? s5 w5 H5. apply hoare_ret.
  eapply spent_step; [exact H2|]. eapply spent_step; [exact H3|].
  eapply spent_step; [exact H4|]. eapply spent_step; [|exact H5].
  apply put_obj_spent.
Qed.

Lemma spent_create_loop this n s w :
  hoare (create_loop this n)
    (λ b _ w',
       (b = true → spent n n w w' ∧ Forall (λ rc, rc = 0%Z) (take n (create_tape w))) ∧
       (b = false → ∃ k rc, k < n ∧ Forall (λ rc, rc = 0%Z) (take k (create_tape w)) ∧
          create_tape w !! k = Some rc ∧ rc ≠ 0%Z ∧ spent (S k) k w w')) s w.
Proof.
  revert s w. induction n as [|n IH]; intros s w; simpl.
  - apply hoare_ret. split; [|done]. intros _. split; [apply spent_refl|constructor].
  - apply hoare_bind, hoare_yield. intros c _.
    pose proof (quiet_spent _ _ (run_actions_quiet c w)) as [HT1 HL1].
    rewrite drop_0 in HT1.
    remember (run_actions c w) as w1 eqn:Hw1. clear Hw1.
    apply hoare_bind. unfold hoare at 1, pthread_create. rewrite HT1.
    destruct (bool_decide (default 0%Z (head (create_tape w)) = 0%Z)) eqn:Hrc; simpl.
    + apply bool_decide_eq_true in Hrc.
      apply hoare_bind, hoare_modify_obj. intros o Ho.
      eapply hoare_mono; [apply IH|]. intros b s3 w3 [Hgood Hbad]. simpl in *.
      split.
      * intros Hb. destruct (Hgood Hb) as [[HT3 HL3] Hall]. simpl in *.
        split; [split|].
        -- rewrite HT3. destruct (create_tape w); simpl; by rewrite ?drop_nil.
        -- rewrite HL3, length_app. simpl. lia.
        -- destruct (create_tape w) as [|x tape]; [constructor|]. simpl in *.
           by constructor.
      * intros Hb. destruct (Hbad Hb) as (k & rc & Hk & Hall & Hrck & Hne & [HT3 HL3]).
        simpl in *. destruct (create_tape w) as [|x tape] eqn:Htape; [done|].
        simpl in *. exists (S k), rc. split_and!; [lia|by constructor|done|done|].
        split; simpl; [by rewrite Htape|]. rewrite HL3, length_app. simpl. lia.
    + rewrite Hrc. apply bool_decide_eq_false in Hrc.
      destruct (create_tape w) as [|x tape] eqn:Htape; [done|]. simpl in Hrc.
      apply hoare_bind, hoare_log, hoare_bind.
      eapply hoare_mono; [apply spent_StopThreads|]. intros b s3 w3 [HT3 HL3].
      apply hoare_ret. split; [done|]. intros _. exists 0, x.
      split_and!; [lia|constructor|done|done|]. simpl in *.
      split; simpl; [by rewrite HT3, drop_0, Htape|lia].
Qed.

Lemma spent_StartThreads this count s w :
  (1 ≤ count)%Z →
  hoare (StartThreads this count)
    (λ b _ w',
       b = false → ∃ k rc, k < Z.to_nat count ∧
         Forall (λ rc, rc = 0%Z) (take k (create_tape w)) ∧
         create_tape w !! k = Some rc ∧ rc ≠ 0%Z ∧ spent (S k) k w w') s w.
Proof.
  intros Hcount. unfold StartThreads. rewrite bool_decide_eq_false_2 by lia.
  apply hoare_bind.
  eapply hoare_mono;
    [exact (hoare_and _ _ _ _ _ (spent_StopThreads this s w)
              (hoare_StopThreads_true this s w))|].
  intros stopped s1 w1 [H1 ->]. simpl.
  - apply hoare_bind, hoare_yield. intros c _.
    apply hoare_bind. unfold SetExitFlag. apply hoare_modify_obj. intros o2 Ho2.
    set (w3 := put_obj this (set_is_exit false o2) (run_actions c w1)).
    assert (spent 0 0 w w3) as [HT3 HL3].
    { eapply spent_step; [exact H1|].
      eapply spent_step; [apply quiet_spent, run_actions_quiet|apply put_obj_spent]. }
    rewrite drop_0 in HT3.
    eapply hoare_mono; [apply spent_create_loop|].
    intros b s4 w4 [_ Hbad] Hb. destruct (Hbad Hb) as (k & rc & Hk & Hall & Hrc & Hne & HS).
    rewrite HT3 in Hall, Hrc. exists k, rc. split_and!; [done..|].
    by apply (spent_step w w3 w4).
Qed.

(** The place of the first return code on the tape that is not zero. *)
Lemma first_failure_unique (tape : list Z) k k' rc rc' :
  Forall (λ rc, rc = 0%Z) (take k tape) → tape !! k = Some rc → rc ≠ 0%Z →
  Forall (λ rc, rc = 0%Z) (take k' tape) → tape !! k' = Some rc' → rc' ≠ 0%Z →
  k = k'.
Proof.
  intros Hall Hk Hne Hall' Hk' Hne'.
  destruct (lt_eq_lt_dec k k') as [[Hlt|Heq]|Hgt]; [|done|].
  - rewrite Forall_lookup in Hall'. destruct Hne.
    apply (Hall' k). by rewrite lookup_take_lt.
  - rewrite Forall_lookup in Hall. destruct Hne'.
    apply (Hall k'). by rewrite lookup_take_lt.
Qed.

(** X12.  [StartThreads] gives up at the first [pthread_create] that
    fails.  When the creations before the [k]-th succeed and the [k]-th
    fails, with [k] below the count, [StartThreads] returns false after
    exactly [k + 1] calls of [pthread_create]: it has created [k] threads
    and no more, all of them have returned, and the worker list is
    empty. *)
Theorem StartThreads_first_failure (this : addr) (o : ThreadPoolMan) (count : Z)
    (k : nat) (rc : Z) (s : sched) (w : world) :
  heap w !! this = Some o → tracked this w → owned this w →
  k < Z.to_nat count →
  Forall (λ rc, rc = 0%Z) (take k (create_tape w)) →
  create_tape w !! k = Some rc → rc ≠ 0%Z →
  ∃ s' w' o',
    StartThreads this count s w = Ret false s' w' ∧
    create_tape w' = drop (S k) (create_tape w) ∧
    length (threads w') = length (threads w) + k ∧
    heap w' !! this = Some o' ∧ thread_list o' = [] ∧
    ∀ t th, threads w' !! t = Some th → t_arg th = Some this → live th = false.
Proof.
  intros Ho Htr Hown Hk Hall Hrc Hne.
  assert (1 ≤ count)%Z as Hcount by lia.
  destruct (wp_ret_inv _ _ _ s w
              (StartThreads_spec this count (λ _, False) s w o Ho Htr Hown Hcount))
    as (b & s' & w' & Hrun & _ & _ & _ & _ & o' & Ho' & _ & Hok & Hfail); [by auto|].
  assert (b = false) as ->.
  { destruct b; [|done]. destruct (Hok eq_refl) as (_ & _ & _ & Hzero).
    rewrite Forall_lookup in Hzero. destruct Hne. apply (Hzero k).
    by rewrite lookup_take_lt. }
  destruct (Hfail eq_refl) as [Hl' Hret'].
  destruct (hoare_inv _ _ _ _ _ _ _ (spent_StartThreads this count s w Hcount) Hrun eq_refl)
    as (k' & rc' & _ & Hall' & Hrc' & Hne' & [HT HL]).
  assert (k' = k) as -> by (by eapply first_failure_unique).
  exists s', w', o'. by split_and!.
Qed.

(** ** A pool that was just started *)

Lemma run_actions_staffed a acts w : staffed a w → staffed a (run_actions acts w).
Proof.
  intros (o & Ho & Hex & Hall).
  destruct (quiet_obj _ _ _ _ (run_actions_quiet acts w) Ho) as (o' & Ho' & Hex' & Hl' & _).
  exists o'. split_and!; [done|congruence|]. intros t Hin. rewrite Hl' in Hin.
  destruct (Hall t Hin) as (th & Hth & Ha & Hl).
  by eapply run_actions_alive.
Qed.

Lemma worker_step_calm a t w w' : worker_step t w = Some w' → calm a w → calm a w'.
Proof.
  intros (th & pc' & w1 & Hth & Hb & ->)%worker_step_unfold (o & Ho & Hsem & Hq & Hrest).
  pose proof (worker_body_inv _ _ _ _ _ Hb) as (Hl & Ht & _).
  pose proof (lookup_lt_Some _ _ _ Hth) as Hlt.
  assert (∀ w1 pc', threads w1 = threads w → heap w1 !! a = Some o →
            (t_arg th = Some a → live (mk_thread (t_arg th) pc') = true →
             resting pc' = true) →
            calm a (set_pc t th pc' w1)) as Hfin.
  { clear Hb Ht w1 pc'. intros w1 pc' Ht Ho1 Hpc. exists o. split_and!; [done..|].
    intros t' th' Hth' Ha' Hl'. simpl in Hth'. rewrite Ht in Hth'.
    destruct (decide (t' = t)) as [->|Hne].
    - rewrite list_lookup_insert_eq in Hth' by done. simplify_eq/=. by apply Hpc.
    - rewrite list_lookup_insert_ne in Hth' by done. by eapply Hrest. }
  specialize (Hrest t th Hth).
  worker_cases Hb; simpl in *.
  all: try (apply Hfin; [done|done|]; intros; simplify_eq; done).
  all: destruct (decide (a0 = a)) as [->|Hne];
    [specialize (Hrest eq_refl eq_refl); simplify_eq; try done; try congruence
    |apply Hfin; [done|simpl; rewrite ?lookup_insert_ne by done; done|congruence]].
Qed.

Lemma run_actions_calm a acts w :
  forallb is_step acts = true → calm a w → calm a (run_actions acts w).
Proof.
  revert w. induction acts as [|act acts IH]; intros w Hacts Hc; simpl; [done|].
  simpl in Hacts. apply andb_true_iff in Hacts as [Hact Hacts].
  apply IH; [done|]. destruct act as [t| |]; try done. simpl.
  destruct (worker_step t w) eqn:Hw; simpl; [by eapply worker_step_calm|done].
Qed.

Lemma hoare_create_loop this n (P : Prop) s w :
  staffed this w → (P → no_client s = true) → (P → calm this w) →
  hoare (create_loop this n)
    (λ b _ w', b = true → staffed this w' ∧ (P → calm this w')) s w.
Proof.
  revert s w. induction n as [|n IH]; intros s w Hst HP Hcalm; simpl.
  - by apply hoare_ret.
  - apply hoare_bind, hoare_yield. intros c Hc.
    set (w1 := run_actions c w).
    pose proof (run_actions_staffed this c w Hst : staffed this w1) as Hst1.
    assert (P → calm this w1) as Hcalm1.
    { intros HP'. apply run_actions_calm; [|by apply Hcalm].
      rewrite Hc. by apply no_client_head, HP. }
    apply hoare_bind. unfold hoare at 1, pthread_create.
    destruct (bool_decide (default 0%Z (head (create_tape w1)) = 0%Z)) eqn:Hrc; simpl.
    + apply hoare_bind, hoare_modify_obj. intros o Ho. simpl in Ho.
      eapply hoare_mono; [apply (IH _ _)|].
      * destruct Hst1 as (o1 & Ho1 & Hex1 & Hall1). simplify_eq.
        eexists. split_and!; [simpl; by rewrite lookup_insert_eq|done|].
        simpl. intros t [Hin| ->%list_elem_of_singleton]%elem_of_app.
        -- destruct (Hall1 t Hin) as (th & Hth & Ha & Hl). exists th.
           split_and!; [|done..]. by rewrite lookup_app_l by (by eapply lookup_lt_Some).
        -- exists (mk_thread (Some this) W_start). split_and!; [|done..].
           by rewrite lookup_app_r, Nat.sub_diag.
      * intros HP'. by apply no_client_tail, HP.
      * intros HP'. destruct (Hcalm1 HP') as (o1 & Ho1 & Hs1 & Hq1 & Hr1). simplify_eq.
        eexists. split_and!; [simpl; by rewrite lookup_insert_eq|done..|].
        simpl. intros t th [Hth|[Hge Hth]]%lookup_app_Some Ha Hl.
        -- by eapply Hr1.
        -- destruct (t - length (threads w1)) as [|k]; [|done].
           by simplify_eq/=.
      * done.
    + rewrite Hrc. apply hoare_bind, hoare_log, hoare_bind.
      eapply hoare_mono; [apply hoare_true|]. intros b s' w' _. by apply hoare_ret.
Qed.

Lemma calm_put a o o' w :
  heap w !! a = Some o → thpoolman_sem o' = thpoolman_sem o →
  instruction_list o' = instruction_list o →
  calm a w → calm a (put_obj a o' w).
Proof.
  intros Ho Hs Hq (o1 & Ho1 & Hs1 & Hq1 & Hr1). simplify_eq.
  exists o'. simpl. rewrite lookup_insert_eq. split_and!; [done|congruence..|done].
Qed.

Lemma hoare_new count (P : Prop) s w :
  idle w → (P → no_client s = true) →
  hoare (new_ThreadPoolMan count)
    (λ p _ w', p = next_addr w ∧ staffed p w' ∧ (P → calm p w')) s w.
Proof.
  intros (Hs & Hh & Hd) HP. unfold new_ThreadPoolMan.
  apply hoare_bind, hoare_get_world, hoare_bind, hoare_modify.
  set (this := next_addr w).
  set (o1 := mk_pool false 0 false [] []).
  set (w1 := set_next_addr (S this) (put_obj this o1 w)).
  destruct (bool_decide (count < 1)%Z) eqn:Hcount.
  { by apply hoare_bind, hoare_log, hoare_abort. }
  apply bool_decide_eq_false in Hcount.
  apply hoare_bind, hoare_get_world. simpl.
  rewrite (bool_decide_eq_false_2 (singleton w ≠ None)) by (by rewrite Hs; intros []).
  destruct (bool_decide (mutex_init_rc w ≠ 0%Z)).
  { by apply hoare_bind, hoare_log, hoare_abort. }
  apply hoare_bind, hoare_modify_obj. intros o Ho.
  assert (o = o1) as -> by (unfold w1 in Ho; simpl in Ho; rewrite lookup_insert_eq in Ho;
                            congruence).
  set (o2 := set_is_lock_init true o1).
  set (w2 := put_obj this o2 w1).
  assert (heap w2 !! this = Some o2) as Ho2.
  { unfold w2. simpl. by rewrite lookup_insert_eq. }
  assert (calm this w2) as Hcalm2.
  { exists o2. split_and!; [done..|]. intros t th Hth _ Hl.
    by rewrite (Hd t th Hth) in Hl. }
  apply hoare_bind. unfold StartThreads.
  rewrite (bool_decide_eq_false_2 (count < 1)%Z) by done.
  apply hoare_bind.
  eapply hoare_mono; [by apply (hoare_StopThreads_empty this o2)|].
  intros b s3 w3 (-> & -> & ->). simpl.
  set (w3 := emit Caller (E_log INFO "Any threads are running now, then nothing to do.") w2).
  assert (calm this w3) as Hcalm3 by done.
  apply hoare_bind, hoare_yield. intros c Hc.
  set (w4 := run_actions c w3).
  assert (P → calm this w4) as Hcalm4.
  { intros HP'. apply run_actions_calm; [|done]. rewrite Hc. by apply no_client_head, HP. }
  destruct (quiet_obj _ _ _ _ (run_actions_quiet c w3 : quiet w3 w4) Ho2)
    as (o4 & Ho4 & Hex4 & Hl4 & _).
  apply hoare_bind. unfold SetExitFlag. apply hoare_modify_obj. intros o4' Ho4'.
  assert (o4' = o4) as -> by congruence.
  set (w5 := put_obj this (set_is_exit false o4) w4).
  eapply hoare_mono; [apply (hoare_create_loop this (Z.to_nat count) P)|].
  - exists (set_is_exit false o4). unfold w5. simpl. rewrite lookup_insert_eq.
    split_and!; [done..|]. rewrite Hl4. simpl. by intros t ?%elem_of_nil.
  - intros HP'. by apply no_client_tail, HP.
  - intros HP'. by apply (calm_put this o4), Hcalm4.
  - intros b s6 w6 Hb. destruct b; simpl.
    + apply hoare_ret. by destruct (Hb eq_refl).
    + by apply hoare_bind, hoare_log, hoare_abort.
Qed.

(** The parts of a run of [Initialize]. *)
Lemma Initialize_run count s w b s' w' :
  world_ok w → Initialize count s w = Ret b s' w' →
  ∃ s1 w1 p w2,
    idle w1 ∧ retired w w1 ∧ length (threads w1) = length (threads w) ∧
    s1 `suffix_of` s ∧
    new_ThreadPoolMan count s1 w1 = Ret p s' w2 ∧
    w' = set_singleton (Some p) w2 ∧ b = true ∧ (1 ≤ count)%Z.
Proof.
  intros Hok Hrun.
  assert (1 ≤ count)%Z as Hcount.
  { destruct (decide (count < 1)%Z) as [Hc|Hc]; [|lia].
    pose proof (Initialize_aborts count s w Hok Hc) as Hwp. unfold wp in Hwp.
    by rewrite Hrun in Hwp. }
  unfold Initialize in Hrun.
  apply bind_ret_inv in Hrun as (w0 & s0 & w0' & Hget & Hrun).
  unfold get_world in Hget. injection Hget as <- <- <-.
  apply bind_ret_inv in Hrun as (u & s1 & w1 & Hre & Hrun).
  apply bind_ret_inv in Hrun as (p & s2 & w2 & Hnew & Hrun).
  apply bind_ret_inv in Hrun as (u' & s3 & w3 & Hset & Hrun).
  unfold modify in Hset. injection Hset as <- <-.
  unfold mret, M_ret in Hrun. injection Hrun as <- <- <-.
  pose proof (wp_inv _ _ _ _ _ _ _ _ (wp_recreate (λ _, True) s w Hok (λ _ _ _, I)) Hre)
    as (Hidle & Hret & Hlen & _).
  assert (s1 `suffix_of` s) as Hsuf.
  { assert (consumes (if bool_decide (singleton w ≠ None) then
                log WARN "Already singleton for Thread Manager is existed, then re-create it.";;
                Destroy
              else mret ())) as Hc.
    { consumes_with ltac:(apply consumes_Destroy). }
    apply (hoare_inv _ _ _ _ _ _ _ (Hc s w) Hre). }
  exists s1, w1, p, w2. by split_and!.
Qed.

(** X13.  What a successful [Initialize] leaves behind.  It returns true
    only for a count of at least one.  Then one pool object exists, the
    handle points to it, its lock is initialised and its exit flag is
    clear; its worker list holds [count] threads that did not exist
    before; the threads that have not returned are exactly the threads of
    this list, and they were started on the new object.  When no other
    client was inside [Instruct] during the call, the wakeup count is
    zero, the queue is empty and every worker is before its loop, at the
    loop condition or inside the wait. *)
Theorem Initialize_starts_workers (count : Z) (s : sched) (w : world)
    (b : bool) (s' : sched) (w' : world) :
  world_ok w → Initialize count s w = Ret b s' w' →
  b = true ∧ (1 ≤ count)%Z ∧
  ∃ p o', singleton w' = Some p ∧ heap w' !! p = Some o' ∧
    (∀ a, is_Some (heap w' !! a) → a = p) ∧
    is_exit o' = false ∧ is_lock_init o' = true ∧
    thread_list o' = seq (length (threads w)) (Z.to_nat count) ∧
    length (threads w') = length (threads w) + Z.to_nat count ∧
    (∀ t th, threads w' !! t = Some th →
       (live th = true ↔ t ∈ thread_list o') ∧ (live th = true → t_arg th = Some p)) ∧
    (no_client s = true →
       thpoolman_sem o' = 0 ∧ instruction_list o' = [] ∧
       ∀ t th, threads w' !! t = Some th → live th = true → resting (t_pc th) = true).
Proof.
  intros Hok Hrun.
  destruct (Initialize_run _ _ _ _ _ _ Hok Hrun)
    as (s1 & w1 & p & w2 & Hidle & Hret & Hlen & Hsuf & Hnew & -> & -> & Hcount).
  pose proof (wp_inv _ _ _ _ _ _ _ _
                (wp_new count (λ _, True) s1 w1 Hidle Hcount (λ _ _, I)) Hnew)
    as (-> & Hs2 & Hpool & Honly & Hlive & _ & _ & _ & Hlen2 & o2 & Ho2 & Hl2 & Hex2 & Hlk2).
  pose proof (hoare_inv _ _ _ _ _ _ _
                (hoare_new count (no_client s = true) s1 w1 Hidle
                   (no_client_suffix s s1 Hsuf)) Hnew)
    as (_ & (o3 & Ho3 & _ & Hall) & Hcalm).
  assert (o3 = o2) as -> by congruence.
  split_and!; [done..|]. exists (next_addr w1), o2. simpl.
  split_and!; [done|done|done|done|done|by rewrite Hl2, Hlen|lia| |].
  - intros t th Hth. split; [split|].
    + intros Hl. destruct Hpool as (_ & Htr & _).
      destruct (Htr t th Hth (Hlive t th Hth Hl) Hl) as (o & Ho & Hin). congruence.
    + intros Hin. destruct (Hall t Hin) as (th' & Hth' & _ & Hl'). congruence.
    + by apply (Hlive t).
  - intros Hno. destruct (Hcalm Hno) as (o & Ho & Hsem & Hq & Hrest).
    assert (o = o2) as -> by congruence. split_and!; [done..|].
    intros t th Hth Hl. eapply Hrest; [done| |done]. by apply (Hlive t).
Qed.

(** ** Why Initialize ends the process *)

Lemma last_emit who e w : last (trace (emit who e w)) = Some (who, e).
Proof. simpl. apply last_snoc. Qed.

(** [Destroy] inside [Initialize] aborts only in the destructor. *)
Lemma recreate_abort s w :
  world_ok w →
  wp (if bool_decide (singleton w ≠ None) then
        log WARN "Already singleton for Thread Manager is existed, then re-create it.";;
        Destroy
      else mret ())
    (λ w', last (trace w') =
             Some (Caller, E_log CRIT "failed to destroy thread_list_lock: %d") ∧
           singleton w ≠ None ∧ mutex_destroy_rc w ≠ 0%Z)
    (λ _ _ _, True) s w.
Proof.
  intros (H1 & _). destruct (singleton w) as [p|] eqn:Hs; [|done].
  rewrite bool_decide_eq_true_2 by done.
  destruct (H1 p eq_refl) as ([o Ho] & Htr & Hown).
  apply wp_bind, wp_log.
  set (w0 := emit Caller
    (E_log WARN "Already singleton for Thread Manager is existed, then re-create it.") w).
  unfold Destroy. apply wp_bind, wp_get_world.
  assert (singleton w0 = Some p) as -> by done.
  apply wp_bind. unfold delete_ThreadPoolMan. apply wp_bind.
  eapply wp_mono; [by apply (StopThreads_spec p (λ _, False) s w0 o)|done|].
  intros b s1 w1 (-> & Hst & Hret & o1 & Ho1 & Hl1 & _). simpl.
  pose proof (s_env _ _ _ Hst) as He. unfold env in He. simpl in He.
  apply wp_bind. eapply wp_get_obj; [done|].
  destruct (is_lock_init o1).
  - apply wp_bind, wp_bind, wp_get_world.
    destruct (bool_decide (mutex_destroy_rc w1 ≠ 0%Z)) eqn:Hrc.
    + apply bool_decide_eq_true in Hrc. apply wp_bind, wp_log, wp_abort.
      split_and!; [apply last_emit|done|congruence].
    + eapply wp_modify_obj; [done|]. by apply wp_modify, wp_modify.
  - apply wp_bind, wp_ret. by apply wp_modify, wp_modify.
Qed.

(** The aborts of the constructor on a state without a pool. *)
Lemma new_abort count s w :
  idle w →
  wp (new_ThreadPoolMan count)
    (λ w',
       (last (trace w') =
          Some (Caller, E_log CRIT
            "Failed to creating singleton for Thread Manager, because thread count(%d) is under 1.") ∧
        (count < 1)%Z) ∨
       (last (trace w') =
          Some (Caller, E_log CRIT "failed to init thread_list_lock: %d") ∧
        (1 ≤ count)%Z ∧ mutex_init_rc w ≠ 0%Z) ∨
       (last (trace w') =
          Some (Caller, E_log ERR "Failed starting threads at initializing.") ∧
        (1 ≤ count)%Z ∧ mutex_init_rc w = 0%Z ∧
        ¬ Forall (λ rc, rc = 0%Z) (take (Z.to_nat count) (create_tape w))))
    (λ _ _ _, True) s w.
Proof.
  intros (Hs & Hh & Hd). unfold new_ThreadPoolMan.
  apply wp_bind, wp_get_world, wp_bind, wp_modify.
  set (this := next_addr w).
  set (w1 := set_next_addr (S this) (put_obj this (mk_pool false 0 false [] []) w)).
  destruct (bool_decide (count < 1)%Z) eqn:Hcount.
  { apply bool_decide_eq_true in Hcount. apply wp_bind, wp_log, wp_abort. left.
    split; [apply last_emit|done]. }
  apply bool_decide_eq_false in Hcount.
  apply wp_bind, wp_get_world. simpl.
  rewrite (bool_decide_eq_false_2 (singleton w ≠ None)) by (by rewrite Hs; intros []).
  destruct (bool_decide (mutex_init_rc w ≠ 0%Z)) eqn:Hrc.
  { apply bool_decide_eq_true in Hrc. apply wp_bind, wp_log, wp_abort. right. left.
    split_and!; [apply last_emit|lia|done]. }
  apply bool_decide_eq_false in Hrc.
  assert (heap w1 !! this = Some (mk_pool false 0 false [] [])) as Ho1.
  { unfold w1. simpl. by rewrite lookup_insert_eq. }
  apply wp_bind. eapply wp_modify_obj; [done|].
  set (o2 := set_is_lock_init true (mk_pool false 0 false [] [])).
  set (w2 := put_obj this o2 w1).
  assert (heap w2 !! this = Some o2) as Ho2.
  { unfold w2. simpl. by rewrite lookup_insert_eq. }
  assert (tracked this w2) as Htr2.
  { intros t th Hth Ha Hl. by rewrite (Hd t th Hth) in Hl. }
  assert (owned this w2) as Hown2.
  { intros o' t th Ho' Hin. simplify_eq. by apply elem_of_nil in Hin. }
  apply wp_bind.
  eapply wp_mono;
    [apply (StartThreads_spec this count (λ _, False) s w2 o2 Ho2 Htr2 Hown2); lia|done|].
  intros b s3 w3 (_ & _ & _ & _ & o3 & _ & Hgood & _). simpl.
  destruct b; simpl; [by apply wp_ret|].
  apply wp_bind, wp_log, wp_abort. right. right.
  split_and!; [apply last_emit|lia|by destruct (decide (mutex_init_rc w = 0%Z))|].
  intros Hall. by specialize (Hgood Hall).
Qed.

(** X14.  Every abort of [Initialize] has one of four causes, and the
    last line of the log names it: the mutex of the old object could not
    be destroyed, the count is below one, the mutex of the new object
    could not be initialised, or a [pthread_create] failed.  The second
    check of the constructor, for a singleton that exists already, never
    fires under [Initialize], which has destroyed the old object before
    it constructs the new one. *)
Theorem Initialize_abort_causes (count : Z) (s : sched) (w w' : world) :
  world_ok w → Initialize count s w = Aborted w' →
  abort_cause count w w' ∧
  last (trace w') ≠
    Some (Caller, E_log CRIT "Already singleton for Thread Manager is existed.").
Proof.
  intros Hok Hrun.
  assert (wp (Initialize count) (abort_cause count w) (λ _ _ _, True) s w) as Hwp.
  { unfold Initialize. apply wp_bind, wp_get_world, wp_bind.
    eapply wp_mono;
      [exact (wp_and _ _ _ _ _ _ _
                (wp_recreate (λ _, True) s w Hok (λ _ _ _, I)) (recreate_abort s w Hok))
      | |].
    { intros w1 [_ H]. by left. }
    intros u s1 w1 [(Hidle & _ & _ & _ & Htape & Hrc & _) _]. simpl.
    apply wp_bind. eapply wp_mono; [by apply new_abort| |].
    - intros w2 H. right. by rewrite <- Htape, <- Hrc.
    - intros p s2 w2 _. by apply wp_bind, wp_modify, wp_ret. }
  unfold wp in Hwp. rewrite Hrun in Hwp. split; [done|].
  destruct Hwp as [[-> _]|[[-> _]|[[-> _]|[-> _]]]]; done.
Qed.

(** ** Destroy *)

(** Without a pool no thread moves. *)
Lemma idle_inert acts w :
  idle w → forallb is_step acts = true → run_actions acts w = w.
Proof.
  intros (Hs & Hh & Hd). induction acts as [|act acts IH]; simpl; [done|].
  intros [Hact Hacts]%andb_prop.
  assert (apply_action act w = w) as ->; [|by apply IH].
  destruct act as [t|a p|a]; simpl; [|done..].
  destruct (threads w !! t) as [th|] eqn:Hth.
  - by rewrite (worker_step_returned t th w Hth (Hd t th Hth)).
  - unfold worker_step. by rewrite Hth.
Qed.

(** X15.  [Destroy] returns under every schedule when there is no
    singleton or the mutex can be destroyed.  Afterwards the handle is
    null and no pool object exists; no thread has disappeared and every
    thread has returned; and no worker moves any more: no sequence of
    steps of the threads changes the state, so whatever was still queued
    is never run. *)
Theorem Destroy_stops_and_frees (s : sched) (w : world) :
  world_ok w → singleton w = None ∨ mutex_destroy_rc w = 0%Z →
  ∃ s' w', Destroy s w = Ret () s' w' ∧
    singleton w' = None ∧ (∀ a, heap w' !! a = None) ∧
    length (threads w') = length (threads w) ∧
    (∀ t th, threads w !! t = Some th →
       ∃ th', threads w' !! t = Some th' ∧ t_arg th' = t_arg th ∧ live th' = false) ∧
    ∀ acts, forallb is_step acts = true → run_actions acts w' = w'.
Proof.
  intros Hok Hrc.
  assert (singleton w ≠ None → mutex_destroy_rc w ≠ 0%Z → world → False) as HE.
  { intros Hs Hne _. by destruct Hrc. }
  destruct (wp_ret_inv _ _ _ s w (wp_Destroy (λ _, False) s w Hok HE))
    as ([] & s' & w' & Hrun & Hidle & Hret & Hlen & _); [by auto|].
  exists s', w'. pose proof Hidle as (Hs & Hh & Hd).
  split_and!; [done..|]. intros acts Hacts. by apply idle_inert.
Qed.

(** X16.  When [pthread_mutex_destroy] fails, [Destroy] ends the process
    in the destructor, after [StopThreads]: at the abort every worker of
    the pool has returned and the worker list is empty, but the object is
    not released, its lock flag is still set and the handle still points
    to it; the last line of the log is the critical message of the
    destructor. *)
Theorem Destroy_aborts_on_mutex_failure (p : addr) (o : ThreadPoolMan) (s : sched)
    (w : world) :
  world_ok w → singleton w = Some p → heap w !! p = Some o →
  is_lock_init o = true → mutex_destroy_rc w ≠ 0%Z →
  ∃ w1 o1, Destroy s w =
      Aborted (emit Caller (E_log CRIT "failed to destroy thread_list_lock: %d") w1) ∧
    singleton w1 = Some p ∧ heap w1 !! p = Some o1 ∧
    thread_list o1 = [] ∧ is_lock_init o1 = true ∧ all_returned p w1.
Proof.
  intros Hok Hs Ho Hlock Hrc.
  destruct Hok as (H1 & _). destruct (H1 p Hs) as (_ & Htr & Hown).
  assert (wp Destroy
            (λ w', ∃ w1 o1,
               w' = emit Caller (E_log CRIT "failed to destroy thread_list_lock: %d") w1 ∧
               singleton w1 = Some p ∧ heap w1 !! p = Some o1 ∧
               thread_list o1 = [] ∧ is_lock_init o1 = true ∧ all_returned p w1)
            (λ _ _ _, False) s w) as Hwp.
  { unfold Destroy. apply wp_bind, wp_get_world. rewrite Hs.
    apply wp_bind. unfold delete_ThreadPoolMan. apply wp_bind.
    eapply wp_mono; [by apply (StopThreads_spec p (λ _, False) s w o)|done|].
    intros b s1 w1 (-> & Hst & Hret & o1 & Ho1 & Hl1 & _). simpl.
    pose proof (s_env _ _ _ Hst) as He. unfold env in He.
    pose proof (s_lock _ _ _ Hst) as Hlk. rewrite Ho1, Ho in Hlk. simpl in Hlk.
    apply wp_bind. eapply wp_get_obj; [done|].
    assert (is_lock_init o1 = true) as -> by congruence.
    apply wp_bind, wp_bind, wp_get_world.
    rewrite bool_decide_eq_true_2 by congruence.
    apply wp_bind, wp_log, wp_abort.
    exists w1, o1. split_and!; [done|congruence|done|done|congruence|done]. }
  unfold wp in Hwp. destruct (Destroy s w) as [? ? ?|w'|w']; [done| |done].
  destruct Hwp as (w1 & o1 & -> & H). by exists w1, o1.
Qed.

(** X17.  [Destroy] without a singleton does nothing, and it leaves no
    singleton behind: a second [Destroy] after one that returned changes
    nothing, consumes nothing of the schedule and returns. *)
Theorem Destroy_idempotent (s : sched) (w : world) :
  (singleton w = None → Destroy s w = Ret () s w) ∧
  (∀ u s1 w1, Destroy s w = Ret u s1 w1 →
     singleton w1 = None ∧ ∀ s2, Destroy s2 w1 = Ret () s2 w1).
Proof.
  assert (∀ s w, singleton w = None → Destroy s w = Ret () s w) as Hnone.
  { clear. intros s w Hs. unfold Destroy. rewrite bind_unfold. unfold get_world.
    by rewrite Hs. }
  split; [apply Hnone|].
  intros u s1 w1 HD. pose proof (Destroy_clears_handle _ _ _ _ _ HD) as Hs1.
  split; [done|]. intros s2. by apply Hnone.
Qed.

(** ** Sequences of calls *)

Lemma run_calls_world_ok cs s w :
  world_ok w → wp (run_calls cs) (λ _, True) (λ _ _ w', world_ok w') s w.
Proof.
  revert s w. induction cs as [|c cs IH]; intros s w Hok; simpl; [done|].
  change (wp (run_call c;; run_calls cs) (λ _, True) (λ _ _ w', world_ok w') s w).
  apply wp_bind. eapply wp_mono; [by apply world_ok_call|done|].
  intros u s' w' Hok'. by apply IH.
Qed.

(** X18.  While no other client is inside [Instruct], so that nobody
    reaches for a pool that a [Destroy] of the sequence has released,
    every sequence of [Initialize], [Destroy] and [Instruct] calls from a
    well-formed state returns or aborts the process, however the workers
    are scheduled (the tasks they run are functions that return), and it
    leaves a well-formed state: at most one pool object exists, it is the
    one the handle points to, and every thread that has not returned is a
    worker of this object that is in its worker list. *)
Theorem interface_keeps_one_pool (cs : list call) (s : sched) (w : world) :
  world_ok w → no_client s = true →
  match run_calls cs s w with
  | Ret _ _ w' => world_ok w'
  | Aborted _ => True
  | Stuck _ => False
  end.
Proof.
  intros Hok _. by apply run_calls_world_ok.
Qed.

(** ** Tasks in hand at a shutdown *)

Lemma handled_refl t w : is_Some (threads w !! t) → handled t w w.
Proof. intros [th Hth]. exists th, th, []. rewrite !app_nil_r. by split_and!. Qed.

Lemma handled_trans t w1 w2 w3 : handled t w1 w2 → handled t w2 w3 → handled t w1 w3.
Proof.
  intros (th1 & th2 & e1 & Ht1 & Ht2 & Ha1 & Tr1 & Hh1 & Ho1)
         (th2' & th3 & e2 & Ht2' & Ht3 & Ha2 & Tr2 & Hh2 & Ho2).
  assert (th2' = th2) as -> by congruence.
  exists th1, th3, (e1 ++ e2). rewrite worker_events_app.
  unfold taken, called, signalled in *. rewrite !omap_app.
  split_and!; [done|done|congruence|by rewrite Tr2, Tr1, app_assoc|..].
  - rewrite app_assoc, Hh1, <- app_assoc, Hh2, app_assoc. done.
  - rewrite app_assoc, Ho1, <- app_assoc, Ho2, app_assoc. done.
Qed.

(** A step that leaves the entry of [t] alone and adds no event of [t]. *)
Lemma handled_other t w w' evs :
  is_Some (threads w !! t) → threads w' !! t = threads w !! t →
  trace w' = trace w ++ evs → worker_events t evs = [] → handled t w w'.
Proof.
  intros [th Hth] Ht Htr Hev. exists th, th, evs. rewrite Hev. simpl.
  rewrite !app_nil_r. split_and!; [done|congruence|done..].
Qed.

Lemma handled_caller t e w : is_Some (threads w !! t) → handled t w (emit Caller e w).
Proof. intros Hth. by apply (handled_other t w _ [(Caller, e)]). Qed.

Lemma handled_put t a o w : is_Some (threads w !! t) → handled t w (put_obj a o w).
Proof. intros Hth. apply (handled_other t w _ []); [done..|by rewrite app_nil_r|done]. Qed.

Lemma handled_some t w w' : handled t w w' → is_Some (threads w' !! t).
Proof. intros (th & th' & evs & _ & Hth' & _). by eexists. Qed.

Lemma apply_action_handled t act w :
  is_Some (threads w !! t) → handled t w (apply_action act w).
Proof.
  intros [th Hth].
  assert ((act = A_step t → worker_step t w = None) → handled t w (apply_action act w))
    as Hother.
  { intros Hact. destruct (apply_action_other t act w Hact) as (Ht1 & e1 & Htr1 & He1).
    by apply (handled_other t w _ e1). }
  destruct act as [t'|b p|b]; [|by apply Hother..].
  destruct (decide (t' = t)) as [->|Hne]; [|apply Hother; congruence].
  destruct (worker_step t w) as [w'|] eqn:Hw'; [|by apply Hother].
  simpl. rewrite Hw'. simpl.
  destruct (worker_step_events _ _ _ _ Hw' Hth) as (pc' & l & Ht' & Htr & H1 & H2 & _).
  eexists th, _, _. split_and!; [done|done|done|done|..]; by rewrite worker_events_pair.
Qed.

Lemma run_actions_handled t acts w :
  is_Some (threads w !! t) → handled t w (run_actions acts w).
Proof.
  revert w. induction acts as [|act acts IH]; intros w Hth; simpl.
  - by apply handled_refl.
  - pose proof (apply_action_handled t act w Hth) as H1.
    eapply handled_trans; [exact H1|]. apply IH. by eapply handled_some.
Qed.

(** What [pthread_join] waits for are steps of the thread it joins. *)
Lemma run_to_exit_actions t fuel w w' :
  run_to_exit t fuel w = Some w' → ∃ acts, w' = run_actions acts w.
Proof.
  revert w. induction fuel as [|fuel IH]; intros w; simpl.
  - destruct (threads w !! t) as [th|]; [|done].
    destruct (t_pc th); try done. intros [= <-]. by exists [].
  - destruct (threads w !! t) as [th|]; [|done].
    assert ((worker_step t w ≫= run_to_exit t fuel) = Some w' →
            ∃ acts, w' = run_actions acts w) as Hstep.
    { destruct (worker_step t w) as [w1|] eqn:Hw; simpl; [|done]. intros Hrun.
      destruct (IH w1 Hrun) as (acts & ->). exists (A_step t :: acts). simpl.
      by rewrite Hw. }
    destruct (t_pc th); try done. intros [= <-]. by exists [].
Qed.

Lemma handled_pthread_join t t' s w :
  is_Some (threads w !! t) →
  hoare (pthread_join t') (λ _ s' w', s' = s ∧ handled t w w') s w.
Proof.
  intros Hth. unfold hoare, pthread_join.
  destruct (threads w !! t') as [th|] eqn:Hth'; [|split; [done|by apply handled_caller]].
  assert (match
            match run_to_exit t' (join_fuel t' w) w with
            | Some w' =>
                match t_pc <$> threads w' !! t' with
                | Some (W_exit retval) =>
                    Ret (0%Z, retval) s
                      (emit Caller (E_join t' 0%Z) (set_pc t' th W_reaped w'))
                | _ => Stuck w'
                end
            | None => Stuck w
            end
          with
          | Ret _ s' w' => s' = s ∧ handled t w w'
          | _ => True
          end) as Hjoin.
  { destruct (run_to_exit t' (join_fuel t' w) w) as [w'|] eqn:Hrun; [|done].
    destruct (threads w' !! t') as [th1|] eqn:Hth1; simpl; [|done].
    destruct (t_pc th1) eqn:Hpc; try done.
    split; [done|].
    destruct (run_to_exit_actions _ _ _ _ Hrun) as (acts & ->).
    pose proof (run_actions_handled t acts w Hth) as H1.
    eapply handled_trans; [exact H1|].
    eapply handled_trans; [|apply handled_caller].
    2: { simpl. destruct (decide (t' = t)) as [->|Hne].
         - eexists. apply list_lookup_insert_eq. by eapply lookup_lt_Some.
         - rewrite list_lookup_insert_ne by done. by eapply handled_some. }
    destruct (decide (t' = t)) as [->|Hne].
    - pose proof (q_args _ _ (run_actions_quiet acts w) t) as Ha.
      rewrite Hth1, Hth' in Ha. simpl in Ha. injection Ha as Ha.
      exists th1, (mk_thread (t_arg th) W_reaped), []. rewrite Hpc. simpl.
      rewrite app_nil_r. split_and!; [done| |done..].
      apply list_lookup_insert_eq. by eapply lookup_lt_Some.
    - apply (handled_other t _ _ []); [by eapply handled_some| |by rewrite app_nil_r|done].
      simpl. by rewrite list_lookup_insert_ne. }
  destruct (t_pc th); try done. split; [done|by apply handled_caller].
Qed.

Lemma handled_post_loop t this n s w :
  is_Some (threads w !! t) →
  hoare (post_loop this n) (λ _ _ w', handled t w w') s w.
Proof.
  revert s w. induction n as [|n IH]; intros s w Hth; simpl.
  - by apply hoare_ret, handled_refl.
  - apply hoare_bind, hoare_yield. intros c _.
    pose proof (run_actions_handled t c w Hth) as H1.
    apply hoare_bind, hoare_try_modify. intros w2 Hpost.
    assert (handled t (run_actions c w) w2) as H2.
    { unfold post_wakeup in Hpost.
      destruct (heap (run_actions c w) !! this) as [o|]; simpl in Hpost; [|done].
      injection Hpost as <-.
      eapply handled_trans; [apply handled_put|apply handled_caller];
        by eapply handled_some. }
    eapply hoare_mono; [apply IH; by eapply handled_some|].
    intros ? s3 w3 H3. eapply handled_trans; [exact H1|]. by eapply handled_trans.
Qed.

Lemma handled_join_loop t l s w :
  is_Some (threads w !! t) →
  hoare (join_loop l) (λ _ _ w', handled t w w') s w.
Proof.
  revert s w. induction l as [|t' l IH]; intros s w Hth; simpl.
  - by apply hoare_ret, handled_refl.
  - apply hoare_bind, hoare_yield. intros c _.
    pose proof (run_actions_handled t c w Hth) as H1.
    apply hoare_bind.
    eapply hoare_mono; [apply (handled_pthread_join t); by eapply handled_some|].
    intros r s2 w2 [-> H2]. simpl. apply hoare_bind.
    assert (∀ lv msg,
              hoare (log lv msg)
                (λ _ s3 w3, hoare (join_loop l) (λ _ _ w', handled t w w') s3 w3)
                (tail s) w2) as Hlog.
    { intros lv msg. apply hoare_log.
      assert (handled t w2 (emit Caller (E_log lv msg) w2)) as H3.
      { apply handled_caller. by eapply handled_some. }
      eapply hoare_mono; [apply IH; by eapply handled_some|].
      intros ? s4 w4 H4. eapply handled_trans; [exact H1|].
      eapply handled_trans; [exact H2|]. by eapply handled_trans. }
    destruct (bool_decide (r.1 = 0%Z)); apply Hlog.
Qed.

Lemma handled_drain_loop t this fuel s w :
  is_Some (threads w !! t) →
  hoare (drain_loop this fuel) (λ _ _ w', handled t w w') s w.
Proof.
  revert s w. induction fuel as [|fuel IH]; intros s w Hth; simpl; [done|].
  apply hoare_bind, hoare_yield. intros c _.
  pose proof (run_actions_handled t c w Hth) as H1.
  apply hoare_bind, hoare_get_obj. intros o Ho.
  apply hoare_bind, hoare_modify.
  assert (handled t w (put_obj this (set_sem (sem_try_wait (thpoolman_sem o)).2 o)
                         (run_actions c w))) as H2.
  { eapply handled_trans; [exact H1|]. apply handled_put. by eapply handled_some. }
  destruct (sem_try_wait (thpoolman_sem o)).1.
  - eapply hoare_mono; [apply IH; by eapply handled_some|].
    intros ? s4 w4 H4. by eapply handled_trans.
  - by apply hoare_ret.
Qed.

Lemma handled_StopThreads t this s w :
  is_Some (threads w !! t) →
  hoare (StopThreads this) (λ _ _ w', handled t w w') s w.
Proof.
  intros Hth. unfold StopThreads. apply hoare_bind, hoare_get_obj. intros o Ho.
  destruct (bool_decide (thread_list o = [])).
  { apply hoare_bind, hoare_log, hoare_ret. by apply handled_caller. }
  apply hoare_bind, hoare_yield. intros c _.
  pose proof (run_actions_handled t c w Hth) as H1.
  apply hoare_bind. unfold SetExitFlag. apply hoare_modify_obj. intros o1 Ho1.
  assert (handled t w (put_obj this (set_is_exit true o1) (run_actions c w))) as H2.
  { eapply handled_trans; [exact H1|]. apply handled_put. by eapply handled_some. }
  apply hoare_bind.
  eapply hoare_mono; [apply (handled_post_loop t); by eapply handled_some|].
  intros ? s3 w3 H3. simpl in H3. simpl.
  apply hoare_bind.
  eapply hoare_mono; [apply (handled_join_loop t); by eapply handled_some|].
  intros ? s4 w4 H4. simpl in H4. simpl.
  apply hoare_bind, hoare_modify_obj. intros o4 Ho4.
  assert (handled t w4 (put_obj this (set_thread_list [] o4) w4)) as H5.
  { apply handled_put. by eapply handled_some. }
  apply hoare_bind. unfold drain, hoare at 1.
  eapply hoare_mono; [apply (handled_drain_loop t); by eapply handled_some|].
  intros ? s6 w6 H6. simpl in H6. apply hoare_ret.
  eapply handled_trans; [exact H2|]. eapply handled_trans; [exact H3|].
  eapply handled_trans; [exact H4|]. eapply handled_trans; [exact H5|exact H6].
Qed.

(** X19.  A shutdown abandons no task that a worker has taken.  When
    [StopThreads] returns, every worker of the pool has called each
    descriptor that it dequeued, the one it held when the shutdown began
    included, in the order in which it took them, and has posted the
    completion semaphore of each call that has one, the one it owed at the
    beginning included: the exit flag is looked at only at the head of the
    loop, never between [pop_front] and the call or between the call and
    [post]. *)
Theorem StopThreads_completes_taken_tasks (this : addr) (o : ThreadPoolMan)
    (t : pthread_t) (th : thread) (s : sched) (w : world) :
  heap w !! this = Some o → tracked this w → owned this w →
  threads w !! t = Some th → t_arg th = Some this →
  ∃ s' w' evs,
    StopThreads this s w = Ret true s' w' ∧
    trace w' = trace w ++ evs ∧
    in_hand (t_pc th) ++ taken (worker_events t evs) = called (worker_events t evs) ∧
    owed (t_pc th) ++ omap psem (called (worker_events t evs)) =
      signalled (worker_events t evs).
Proof.
  intros Ho Htr Hown Hth Ha.
  destruct (wp_ret_inv _ _ _ s w (StopThreads_spec this (λ _, False) s w o Ho Htr Hown))
    as (b & s' & w' & Hrun & -> & _ & Hret & _); [by auto|].
  pose proof (hoare_inv _ _ _ _ _ _ _
                (handled_StopThreads t this s w ltac:(by eexists)) Hrun)
    as (th0 & th' & evs & Hth0 & Hth' & Ha' & Htrace & Hhand & Howed).
  assert (th0 = th) as -> by congruence.
  assert (live th' = false) as Hl by (eapply Hret; [done|congruence]).
  assert (in_hand (t_pc th') = [] ∧ owed (t_pc th') = []) as [Hi Hw].
  { destruct th' as [arg pc]. by destruct pc. }
  rewrite Hi, Hw, !app_nil_r in *. by exists s', w', evs.
Qed.

(** * The further properties on the example states *)

Lemma ex_running_covered : covered 0 0 ex_running.
Proof. exists ex_pool. split_and!; [reflexivity..|]. simpl. lia. Qed.

Lemma ex_running_backed : backed 0 0 ex_running.
Proof. exists ex_pool. split; [reflexivity|]. simpl. lia. Qed.

Lemma ex_running_manned : manned 0 ex_running.
Proof.
  intros t th Hth _. destruct t as [|[|t]]; simpl in Hth; by simplify_eq.
Qed.

Lemma ex_loaded_tracked : tracked 0 ex_loaded.
Proof.
  intros t th Hth Ha Hl. eexists. split; [reflexivity|].
  destruct t as [|t]; simpl in Hth; [|discriminate Hth]. apply list_elem_of_here.
Qed.

Lemma ex_loaded_owned : owned 0 ex_loaded.
Proof.
  intros o t th Ho Hin Hth.
  destruct t as [|t]; simpl in Hth; [|discriminate Hth]. by simplify_eq.
Qed.

Lemma worker_runs_each_task_once_witness :
  ∃ th' evs,
    threads (run_actions [A_step 0; A_step 1; A_step 0] ex_busy) !! 0 = Some th' ∧
    t_arg th' = Some 0 ∧
    trace (run_actions [A_step 0; A_step 1; A_step 0] ex_busy) = trace ex_busy ++ evs ∧
    [ex_task 2 (Some 9) 7] ++ taken (worker_events 0 evs) =
      called (worker_events 0 evs) ++ in_hand (t_pc th') ∧
    omap psem (called (worker_events 0 evs)) =
      signalled (worker_events 0 evs) ++ owed (t_pc th').
Proof.
  apply (worker_runs_each_task_once 0
           (mk_thread (Some 0) (W_call (ex_task 2 (Some 9) 7)))
           [A_step 0; A_step 1; A_step 0] ex_busy).
  reflexivity.
Defined.

Lemma single_worker_in_order_witness :
  ∃ th' evs,
    threads (run_actions
               [A_step 0; A_step 0; A_push 0 (ex_task 3 None 0); A_step 0; A_step 0;
                A_step 0; A_step 0; A_step 0] ex_loaded) !! 0 = Some th' ∧
    trace (run_actions
             [A_step 0; A_step 0; A_push 0 (ex_task 3 None 0); A_step 0; A_step 0;
              A_step 0; A_step 0; A_step 0] ex_loaded) = trace ex_loaded ++ evs ∧
    called evs.*2 ++ in_hand (t_pc th') ++
      queue_of 0 (run_actions
                    [A_step 0; A_step 0; A_push 0 (ex_task 3 None 0); A_step 0; A_step 0;
                     A_step 0; A_step 0; A_step 0] ex_loaded) =
      queue_of 0 ex_loaded ++ pushes 0 evs.*2 ∧
    called evs.*2 `prefix_of` queue_of 0 ex_loaded ++ pushes 0 evs.*2.
Proof.
  apply (single_worker_in_order 0 0 (mk_thread (Some 0) W_wait)
           [A_step 0; A_step 0; A_push 0 (ex_task 3 None 0); A_step 0; A_step 0;
            A_step 0; A_step 0; A_step 0] ex_loaded);
    reflexivity.
Defined.

Lemma worker_returns_only_on_exit_witness :
  ∃ th' o',
    threads (run_actions [A_post 0; A_step 0; A_step 0; A_step 0] ex_running) !! 0 =
      Some th' ∧
    t_arg th' = Some 0 ∧ live th' = true ∧
    heap (run_actions [A_post 0; A_step 0; A_step 0; A_step 0] ex_running) !! 0 =
      Some o' ∧
    is_exit o' = false.
Proof.
  apply (worker_returns_only_on_exit 0 ex_pool 0 (mk_thread (Some 0) W_wait)
           [A_post 0; A_step 0; A_step 0; A_step 0] ex_running);
    reflexivity.
Defined.

Lemma worker_without_pool_witness :
  ∃ w1, worker_step 0 ex_orphan = Some w1 ∧
    heap w1 = heap ex_orphan ∧ csem w1 = csem ex_orphan ∧
    trace w1 = trace ex_orphan ++
      [(Thr 0, E_log ERR "The parameter for worker thread is invalid.")] ∧
    threads w1 !! 0 = Some (mk_thread None (W_exit (-5))) ∧
    (∀ acts, worker_step 0 (run_actions acts w1) = None) ∧
    ∀ s, ∃ w2, pthread_join 0 s ex_orphan = Ret (0%Z, (-5)%Z) s w2 ∧
      heap w2 = heap ex_orphan ∧
      threads w2 !! 0 = Some (mk_thread None W_reaped).
Proof.
  apply (worker_without_pool 0 ex_orphan). reflexivity.
Defined.

Lemma submitted_task_runs_witness :
  ∃ w1 w2 w3,
    Instruct (ex_task 2 (Some 9) 7) [] ex_running = Ret true [] w1 ∧
    worker_run 0 5 w1 = Some w2 ∧
    heap w2 = <[0 := mk_pool false 0 true [0; 1] []]> (heap ex_running) ∧
    threads w2 = <[0 := mk_thread (Some 0) W_loop]> (threads ex_running) ∧
    csem w2 = <[9 := 1]> (csem ex_running) ∧
    trace w2 =
      [(Caller, E_push 0 (ex_task 2 (Some 9) 7)); (Caller, E_post 0);
       (Thr 0, E_pop 0 (ex_task 2 (Some 9) 7));
       (Thr 0, E_call (ex_task 2 (Some 9) 7) 7);
       (Thr 0, E_log WARN "The instruction function returned with somthign error code(%ld).");
       (Thr 0, E_signal 9)] ∧
    worker_step 0 w2 = Some w3 ∧ heap w3 = heap w2 ∧
    threads w3 !! 0 = Some (mk_thread (Some 0) W_wait) ∧
    (thpoolman_sem ex_pool = 0 → worker_step 0 w3 = None).
Proof.
  exact (submitted_task_runs 0 ex_pool 0 (ex_task 2 (Some 9) 7) ex_running
           eq_refl eq_refl eq_refl eq_refl).
Defined.

Lemma no_stranded_task_witness :
  ∃ s1 w1 o',
    Instruct_all [ex_task 1 None 0; ex_task 2 (Some 9) 7] ex_sched ex_running =
      Ret (replicate 2 true) s1 w1 ∧
    heap (run_actions [A_step 0; A_post 0] w1) !! 0 = Some o' ∧ is_exit o' = false ∧
    length (instruction_list o') ≤
      thpoolman_sem o' + woken 0 (run_actions [A_step 0; A_post 0] w1) ∧
    (instruction_list o' ≠ [] →
     (∃ t th, threads (run_actions [A_step 0; A_post 0] w1) !! t = Some th ∧
              t_arg th = Some 0 ∧ live th = true) →
     ∃ t th, threads (run_actions [A_step 0; A_post 0] w1) !! t = Some th ∧
             t_arg th = Some 0 ∧
             is_Some (worker_step t (run_actions [A_step 0; A_post 0] w1))).
Proof.
  apply (no_stranded_task 0 [ex_task 1 None 0; ex_task 2 (Some 9) 7] ex_sched
           [A_step 0; A_post 0] ex_running);
    [reflexivity|exact ex_running_covered|reflexivity|reflexivity].
Defined.

Lemma no_wakeup_without_task_witness :
  ∃ s1 w1 evs o',
    Instruct_all [ex_task 1 None 0; ex_task 2 (Some 9) 7] ex_sched ex_running =
      Ret (replicate 2 true) s1 w1 ∧
    trace (run_actions [A_step 1; A_step 0; A_step 0] w1) = trace ex_running ++ evs ∧
    Forall (λ e, e.2 ≠ wasted) evs ∧
    heap (run_actions [A_step 1; A_step 0; A_step 0] w1) !! 0 = Some o' ∧
    thpoolman_sem o' + woken 0 (run_actions [A_step 1; A_step 0; A_step 0] w1) ≤
      length (instruction_list o').
Proof.
  apply (no_wakeup_without_task 0 [ex_task 1 None 0; ex_task 2 (Some 9) 7] ex_sched
           [A_step 1; A_step 0; A_step 0] ex_running);
    [reflexivity|exact ex_running_backed|exact ex_running_manned
    |reflexivity|reflexivity].
Defined.

Lemma Instruct_leaves_pool_alone_witness :
  ∃ s' w' o', Instruct (ex_task 1 None 0) ex_sched ex_running = Ret true s' w' ∧
    singleton w' = Some 0 ∧ heap w' !! 0 = Some o' ∧
    is_exit o' = is_exit ex_pool ∧ thread_list o' = thread_list ex_pool ∧
    is_lock_init o' = is_lock_init ex_pool ∧
    length (threads w') = length (threads ex_running) ∧
    create_tape w' = create_tape ex_running ∧ next_addr w' = next_addr ex_running ∧
    (∀ b, is_Some (heap w' !! b) ↔ is_Some (heap ex_running !! b)) ∧
    (∀ t th, threads ex_running !! t = Some th → live th = false →
       ∃ th', threads w' !! t = Some th' ∧ live th' = false).
Proof.
  apply (Instruct_leaves_pool_alone (ex_task 1 None 0) 0 ex_pool ex_sched ex_running);
    reflexivity.
Defined.

Lemma StopThreads_keeps_queue_witness :
  ∃ s' w' evs,
    StopThreads 0 [[A_step 0; A_step 0; A_step 0]; []] ex_loaded = Ret true s' w' ∧
    trace w' = trace ex_loaded ++ evs ∧
    [ex_task 1 None 0; ex_task 2 (Some 9) 7] ++ pushes 0 evs.*2 =
      pops 0 evs.*2 ++ queue_of 0 w' ∧
    pushes 0 (caller_events evs) = [] ∧ pops 0 (caller_events evs) = [] ∧
    (no_racing_push [[A_step 0; A_step 0; A_step 0]; []] = true →
     pushes 0 evs.*2 = []).
Proof.
  apply (StopThreads_keeps_queue 0
           (mk_pool false 2 true [0] [ex_task 1 None 0; ex_task 2 (Some 9) 7])
           [[A_step 0; A_step 0; A_step 0]; []] ex_loaded);
    [reflexivity|exact ex_loaded_tracked|exact ex_loaded_owned].
Defined.

Lemma StartThreads_first_failure_witness :
  ∃ s' w' o',
    StartThreads 0 3 ex_sched ex_scarce = Ret false s' w' ∧
    create_tape w' = [] ∧
    length (threads w') = 3 ∧
    heap w' !! 0 = Some o' ∧ thread_list o' = [] ∧
    ∀ t th, threads w' !! t = Some th → t_arg th = Some 0 → live th = false.
Proof.
  apply (StartThreads_first_failure 0 ex_pool 3 1 EAGAIN ex_sched ex_scarce);
    [reflexivity|exact ex_running_tracked|exact ex_running_owned|simpl; lia
    |repeat constructor|reflexivity|discriminate].
Defined.

Lemma Initialize_starts_workers_witness :
  true = true ∧ (1 ≤ 2)%Z ∧
  ∃ p o', singleton ex_first = Some p ∧ heap ex_first !! p = Some o' ∧
    (∀ a, is_Some (heap ex_first !! a) → a = p) ∧
    is_exit o' = false ∧ is_lock_init o' = true ∧
    thread_list o' = seq (length (threads ex_boot)) (Z.to_nat 2) ∧
    length (threads ex_first) = length (threads ex_boot) + Z.to_nat 2 ∧
    (∀ t th, threads ex_first !! t = Some th →
       (live th = true ↔ t ∈ thread_list o') ∧ (live th = true → t_arg th = Some p)) ∧
    (no_client ex_restart_sched = true →
       thpoolman_sem o' = 0 ∧ instruction_list o' = [] ∧
       ∀ t th, threads ex_first !! t = Some th → live th = true →
         resting (t_pc th) = true).
Proof.
  apply (Initialize_starts_workers 2 ex_restart_sched ex_boot true
           [[A_step 0; A_step 0; A_step 1]] ex_first ex_boot_ok).
  vm_compute. reflexivity.
Defined.

Lemma Initialize_abort_causes_witness :
  abort_cause 3 ex_scarce ex_aborted ∧
  last (trace ex_aborted) ≠
    Some (Caller, E_log CRIT "Already singleton for Thread Manager is existed.").
Proof.
  apply (Initialize_abort_causes 3 [] ex_scarce ex_aborted ex_running_ok).
  vm_compute. reflexivity.
Defined.

Lemma Destroy_stops_and_frees_witness :
  ∃ s' w', Destroy ex_sched ex_running = Ret () s' w' ∧
    singleton w' = None ∧ (∀ a, heap w' !! a = None) ∧
    length (threads w') = length (threads ex_running) ∧
    (∀ t th, threads ex_running !! t = Some th →
       ∃ th', threads w' !! t = Some th' ∧ t_arg th' = t_arg th ∧ live th' = false) ∧
    ∀ acts, forallb is_step acts = true → run_actions acts w' = w'.
Proof.
  apply (Destroy_stops_and_frees ex_sched ex_running ex_running_ok).
  right. reflexivity.
Defined.

Lemma Destroy_aborts_on_mutex_failure_witness :
  ∃ w1 o1,
    Destroy ex_sched ex_jammed =
      Aborted (emit Caller (E_log CRIT "failed to destroy thread_list_lock: %d") w1) ∧
    singleton w1 = Some 0 ∧ heap w1 !! 0 = Some o1 ∧
    thread_list o1 = [] ∧ is_lock_init o1 = true ∧ all_returned 0 w1.
Proof.
  apply (Destroy_aborts_on_mutex_failure 0 ex_pool ex_sched ex_jammed ex_running_ok);
    [reflexivity..|discriminate].
Defined.

Lemma Destroy_idempotent_witness :
  Destroy [] ex_boot = Ret () [] ex_boot ∧
  singleton ex_destroyed = None ∧
  ∀ s2, Destroy s2 ex_destroyed = Ret () s2 ex_destroyed.
Proof.
  split.
  - apply (proj1 (Destroy_idempotent [] ex_boot)). reflexivity.
  - apply (proj2 (Destroy_idempotent ex_sched ex_running) () [] ex_destroyed).
    vm_compute. reflexivity.
Defined.

Lemma interface_keeps_one_pool_witness :
  match run_calls ex_calls ex_sched ex_boot with
  | Ret _ _ w' => world_ok w'
  | Aborted _ => True
  | Stuck _ => False
  end.
Proof.
  apply (interface_keeps_one_pool ex_calls ex_sched ex_boot);
    [exact ex_boot_ok|reflexivity].
Defined.

Lemma ex_busy_tracked : tracked 0 ex_busy.
Proof.
  intros t th Hth Ha Hl. eexists. split; [reflexivity|].
  destruct t as [|[|t]]; simpl in Hth; [| |discriminate Hth].
  - apply list_elem_of_here.
  - apply list_elem_of_further, list_elem_of_here.
Qed.

Lemma ex_busy_owned : owned 0 ex_busy.
Proof.
  intros o t th Ho Hin Hth.
  destruct t as [|[|t]]; simpl in Hth; [| |discriminate Hth]; by simplify_eq.
Qed.

Lemma StopThreads_completes_taken_tasks_witness :
  ∃ s' w' evs,
    StopThreads 0 ex_sched ex_busy = Ret true s' w' ∧
    trace w' = trace ex_busy ++ evs ∧
    [ex_task 2 (Some 9) 7] ++ taken (worker_events 0 evs) =
      called (worker_events 0 evs) ∧
    [] ++ omap psem (called (worker_events 0 evs)) = signalled (worker_events 0 evs).
Proof.
  apply (StopThreads_completes_taken_tasks 0 (mk_pool false 0 true [0; 1] []) 0
           (mk_thread (Some 0) (W_call (ex_task 2 (Some 9) 7))) ex_sched ex_busy);
    [reflexivity|exact ex_busy_tracked|exact ex_busy_owned|reflexivity..].
Defined.
